(** * qcfg: a shallow embedding of the block/row/column configuration loader

    The development follows [qcfg.go]: byte-slice helpers of Go's [bytes]
    and [strings] packages, the in-memory tree ([cfgRow], [CfgBlock]), the
    line classifier, the recursive loader ([loadRow], [loadBlock],
    [loadCfgFile]), the process-wide registry ([NewCfg], [NewCfgMem]), the
    typed lookups, the editor and the writer. *)

From Stdlib Require Import ZArith Ascii String List Lia.
From stdpp Require Import base option list gmap fin_maps strings.

Local Open Scope Z_scope.
Local Open Scope list_scope.

(** ** Byte slices and Go strings

    Both [[]byte] and [string] are finite byte sequences; conversions
    between them copy the bytes, so both are lists of [ascii]. *)

Abbreviation bytes := (list ascii).

Definition bs (s : string) : bytes := list_ascii_of_string s.

Definition len (s : bytes) : Z := Z.of_nat (length s).

(** [s[:n]] and [s[n:]] for an in-range [n]. *)
Definition slice_to (s : bytes) (n : Z) : bytes := take (Z.to_nat n) s.
Definition slice_from (s : bytes) (n : Z) : bytes := drop (Z.to_nat n) s.

Fixpoint has_prefix (p s : bytes) : bool :=
  match p, s with
  | [], _ => true
  | a :: p', b :: s' => Ascii.eqb a b && has_prefix p' s'
  | _ :: _, [] => false
  end.

(** [bytes.Index]: position of the first occurrence of [sep], or [-1]. *)
Fixpoint Index (s sep : bytes) : Z :=
  if has_prefix sep s then 0
  else match s with
       | [] => -1
       | _ :: t => let i := Index t sep in if i <? 0 then -1 else i + 1
       end.

Definition in_cutset (c : ascii) (cutset : bytes) : bool :=
  existsb (Ascii.eqb c) cutset.

(** [bytes.TrimLeft] and [bytes.TrimRight] for an ASCII cutset. *)
Fixpoint TrimLeft (s cutset : bytes) : bytes :=
  match s with
  | [] => []
  | c :: t => if in_cutset c cutset then TrimLeft t cutset else s
  end.

Fixpoint TrimRight (s cutset : bytes) : bytes :=
  match s with
  | [] => []
  | c :: t =>
      match TrimRight t cutset with
      | [] => if in_cutset c cutset then [] else [c]
      | t' => c :: t'
      end
  end.

(** The loop of Go's [genSplit] for a non-empty separator: at most [k]
    cuts, each at the next occurrence of [sep]. *)
Fixpoint split_loop (k : nat) (s sep : bytes) : list bytes :=
  match k with
  | O => [s]
  | S k' =>
      let m := Index s sep in
      if m <? 0 then [s]
      else slice_to s m :: split_loop k' (slice_from s (m + len sep)) sep
  end.

(** [bytes.Split(s, sep)] and [strings.Split]: the number of pieces is
    [Count(s, sep) + 1], which never exceeds [len(s) + 1]. *)
Definition bytes_Split (s sep : bytes) : list bytes := split_loop (length s) s sep.

(** [bytes.SplitN(s, sep, n)] for a non-empty [sep]. *)
Definition bytes_SplitN (s sep : bytes) (n : Z) : list bytes :=
  if n =? 0 then []
  else if n <? 0 then bytes_Split s sep
  else split_loop (Nat.min (Z.to_nat (n - 1)) (length s)) s sep.

(** [bytes.ToLower] on ASCII letters; bytes from 0x80 up are kept (Go
    lowers the runes they encode). *)
Definition lower_byte (c : ascii) : ascii :=
  let n := nat_of_ascii c in
  if ((65 <=? n)%nat && (n <=? 90)%nat)%bool then ascii_of_nat (n + 32) else c.

Definition ToLower (s : bytes) : bytes := map lower_byte s.

(** [bytes.TrimSpace] slices off the leading and the trailing white space
    as Unicode defines it, the runes for which [unicode.IsSpace] holds:
    U+0009 to U+000D, U+0020, U+0085, U+00A0, U+1680, U+2000 to U+200A,
    U+2028, U+2029, U+202F, U+205F and U+3000. Go decodes one rune at a
    time, from the front with [utf8.DecodeRune] and from the back with
    [utf8.DecodeLastRune]; bytes that are no valid UTF-8 decode to U+FFFD,
    which is no white space, and a rune has one valid encoding. So a text
    starts (ends) with a white space rune exactly when it starts (ends)
    with one of the byte sequences of [space_runes], the UTF-8 encodings
    of these runes. *)
Definition space_runes : list bytes :=
  map (map ascii_of_nat)
  [[9]; [10]; [11]; [12]; [13]; [32]; [194; 133]; [194; 160]; [225; 154; 128];
   [226; 128; 128]; [226; 128; 129]; [226; 128; 130]; [226; 128; 131];
   [226; 128; 132]; [226; 128; 133]; [226; 128; 134]; [226; 128; 135];
   [226; 128; 136]; [226; 128; 137]; [226; 128; 138];
   [226; 128; 168]; [226; 128; 169]; [226; 128; 175]; [226; 129; 159];
   [227; 128; 128]]%nat.

Definition leading_space (s : bytes) : option bytes :=
  find (fun e => has_prefix e s) space_runes.

Definition trailing_space (s : bytes) : option bytes :=
  find (fun e => has_prefix (rev e) (rev s)) space_runes.

(** Every step slices off one rune, so [length s] steps are enough. *)
Fixpoint TrimLeftSpace (n : nat) (s : bytes) : bytes :=
  match n with
  | O => s
  | S n =>
      match leading_space s with
      | Some e => TrimLeftSpace n (drop (length e) s)
      | None => s
      end
  end.

Fixpoint TrimRightSpace (n : nat) (s : bytes) : bytes :=
  match n with
  | O => s
  | S n =>
      match trailing_space s with
      | Some e => TrimRightSpace n (take (length s - length e) s)
      | None => s
      end
  end.

Definition TrimSpace (s : bytes) : bytes :=
  TrimRightSpace (length s) (TrimLeftSpace (length s) s).

Definition bytes_Equal (a b : bytes) : bool := bool_decide (a = b).

(** [bufio.Reader.ReadBytes(delim)] on the unread part of a stream: the
    bytes up to and including the first [delim], whether the end of the
    stream was hit before a [delim] ([err != nil]), and what stays unread. *)
Fixpoint ReadBytes (rdr : bytes) (delim : ascii) : bytes * bool * bytes :=
  match rdr with
  | [] => ([], true, [])
  | c :: t =>
      if Ascii.eqb c delim then ([c], false, t)
      else let '(b, e, r) := ReadBytes t delim in (c :: b, e, r)
  end.

Definition NL : ascii := ascii_of_nat 10.
Definition DQ : ascii := ascii_of_nat 34.     (* the double quote *)
Definition TAB : ascii := ascii_of_nat 9.
Definition blanks : bytes := [" "%char; TAB].

(** ** Outcomes

    A call returns, panics (the process aborts), or the model runs out of
    the fuel that bounds the loader's loops and recursion. *)

Inductive result (A : Type) : Type :=
  | Ok (a : A)
  | Panic (msg : bytes)
  | OutOfFuel.
Arguments Ok {A} a.
Arguments Panic {A} msg.
Arguments OutOfFuel {A}.

#[global] Instance result_ret : MRet result := fun A a => Ok a.
#[global] Instance result_bind : MBind result := fun A B f m =>
  match m with
  | Ok a => f a
  | Panic msg => Panic msg
  | OutOfFuel => OutOfFuel
  end.

(** ** The tree *)

Record cfgRow := mkRow {
  row_name : bytes;
  cols : gmap bytes bytes
}.

#[warnings="-register-all"]
Inductive CfgBlock := mkBlock {
  name : bytes;                 (* block name *)
  fname : bytes;                (* file containing the block *)
  rows : gmap bytes cfgRow;     (* non-recursive *)
  tbls : gmap bytes CfgBlock    (* recursive *)
}.

Definition set_rows (cfg : CfgBlock) (r : gmap bytes cfgRow) : CfgBlock :=
  mkBlock (name cfg) (fname cfg) r (tbls cfg).
Definition set_tbls (cfg : CfgBlock) (t : gmap bytes CfgBlock) : CfgBlock :=
  mkBlock (name cfg) (fname cfg) (rows cfg) t.

(** ** Line helpers *)

Definition cleanLine (_line : bytes) : bytes :=
  let nn := Index _line (bs "#") in
  let l := if 0 <=? nn then slice_to _line nn else _line in
  let line := TrimLeft l blanks in
  TrimRight line blanks.

Definition lineIsInclude (_line : bytes) : bool :=
  (8 <? len _line) && bytes_Equal (bs "%include") (slice_to _line 8).

Definition lineIsBlockEnd (_line : bytes) : bool :=
  match _line with
  | c :: _ => Ascii.eqb c "}"
  | [] => false
  end.

Definition lineIsBlockNew (_line : bytes) : bool :=
  match bytes_SplitN _line (bs " ") 2 with
  | p0 :: _ :: _ => bytes_Equal (bs "%block") (ToLower p0)
  | _ => false
  end.

(** [getFilename]: [parts[1][0]] and [parts[1][1:len-1]] are bounds
    checked by the Go runtime. *)
Definition getFilename (_line : bytes) : result bytes :=
  match bytes_SplitN _line (bs " ") 2 with
  | p0 :: p1 :: _ =>
      if bytes_Equal (bs "%include") (ToLower p0) then
        let p1 := cleanLine p1 in
        match p1 with
        | [] => Panic (bs "index out of range")
        | c :: rest =>
            if Ascii.eqb c DQ then
              match rest with
              | [] => Panic (bs "slice bounds out of range")
              | _ => Ok (removelast rest)
              end
            else Ok p1
        end
      else Ok []
  | _ => Ok []
  end.

Definition getBlockname (_line : bytes) : bytes :=
  match bytes_SplitN _line (bs " ") 2 with
  | p0 :: p1 :: _ =>
      if bytes_Equal (bs "%block") (ToLower p0) then cleanLine p1 else []
  | _ => []
  end.

(** ** Parsing a row

    [parse_cols] is the loop over the [;]-separated pieces of a row's data:
    a piece with an empty key or without [=] is skipped ([bytes.SplitN] with
    [n = 2] always yields a first element). *)

Definition parse_col (row : cfgRow) (piece : bytes) : cfgRow :=
  match bytes_SplitN piece (bs "=") 2 with
  | k :: rest =>
      let k := cleanLine k in
      if len k <? 1 then row
      else match rest with
           | [] => row
           | v :: _ => mkRow (row_name row) (<[k := cleanLine v]> (cols row))
           end
  | [] => row
  end.

Definition parse_cols (pieces : list bytes) (row : cfgRow) : cfgRow :=
  foldl parse_col row pieces.

(** The row name, the row data and the [add] flag that [loadRow] derives
    from the cleaned line when no row name is pending. *)
Definition splitRow (_line : bytes) : option (bytes * bytes * bool) :=
  let nnNew := Index _line (bs "::") in
  let nnAdd := Index _line (bs "+=") in
  if (0 <=? nnNew) && (0 <? nnAdd) then
    if nnAdd <? nnNew
    then Some (slice_to _line nnAdd, slice_from _line (nnAdd + 2), false)
    else Some (slice_to _line nnNew, slice_from _line (nnNew + 2), true)
  else if 0 <? nnAdd then
    Some (slice_to _line nnAdd, slice_from _line (nnAdd + 2), true)
  else if 0 <? nnNew then
    Some (slice_to _line nnNew, slice_from _line (nnNew + 2), false)
  else None.

(** [loadRow] returns the row name (nil when the line is not understood);
    the block's [rows] map is updated in place, here returned. *)
Definition loadRow (cfg : CfgBlock) (_line _fname _rowName : bytes)
  : CfgBlock * bytes :=
  let _line := cleanLine _line in
  let parsed :=
    if len _rowName <? 1 then
      match splitRow _line with
      | Some (n, d, add) => Some (cleanLine n, cleanLine d, add)
      | None => None
      end
    else Some (_rowName, _line, true) in
  match parsed with
  | None => (cfg, [])
  | Some (_rowName, rowData, add) =>
      let row :=
        match rows cfg !! _rowName with
        | Some row => if add then row else mkRow _rowName ∅
        | None => mkRow _rowName ∅
        end in
      let row := parse_cols (bytes_Split rowData (bs ";")) row in
      (set_rows cfg (<[_rowName := row]> (rows cfg)), _rowName)
  end.

(** ** Files

    The file system maps a path to the content of a file that can be
    opened for reading; [HomeDir] is the home directory of the current user. *)

Record FS := mkFS {
  files : gmap bytes bytes;
  HomeDir : bytes;
  creatable : bytes -> bool     (* can the path be opened for writing *)
}.

(** [strings.Replace(s, old, new, 1)]. *)
Definition Replace1 (s old new : bytes) : bytes :=
  let i := Index s old in
  if i <? 0 then s else slice_to s i ++ new ++ slice_from s (i + len old).

Definition expandUser (fs : FS) (_fname : bytes) : bytes :=
  if len _fname <? 2 then _fname
  else if negb (bytes_Equal (slice_to _fname 2) (bs "~/")) then _fname
  else Replace1 _fname (bs "~/") (HomeDir fs ++ bs "/").

(** ** The loader

    [loadBlock] and [loadCfgFile] read the stream line by line; every loop
    iteration and every nested call spends one unit of fuel. [loadBlock]
    shares its reader with its caller and returns what it left unread;
    [loadCfgFile] owns its reader. The unused parameters [_tblname] and
    [_verbose] are dropped, as is the diagnostic output. *)

Section Loader.
Variable fs : FS.

Definition newBlock (_name _fname : bytes) : CfgBlock := mkBlock _name _fname ∅ ∅.

Definition openInclude (buf : bytes) : result (bytes * bytes) :=
  f ← getFilename (TrimSpace buf);
  let fname2 := expandUser fs f in
  match files fs !! fname2 with
  | None => Panic (bs "could not open file " ++ fname2)
  | Some content => Ok (fname2, content)
  end.

Fixpoint loadBlock (fuel : nat) (cfg : CfgBlock) (_rdr _fname prevRow : bytes)
  {struct fuel} : result (CfgBlock * bytes) :=
  match fuel with
  | O => OutOfFuel
  | S fuel =>
      let '(buf, err, _rdr) := ReadBytes _rdr NL in
      let next cfg _rdr prevRow :=
        if err then Ok (cfg, _rdr) else loadBlock fuel cfg _rdr _fname prevRow in
      if len buf <? 1 then next cfg _rdr prevRow
      else
        let buf := cleanLine (removelast buf) in
        if len buf <? 1 then next cfg _rdr prevRow
        else if lineIsInclude buf then
          '(fname2, rdrNew) ← openInclude buf;
          cfg ← loadCfgFile fuel cfg rdrNew fname2 [];
          next cfg _rdr prevRow
        else if lineIsBlockEnd buf then Ok (cfg, _rdr)
        else if lineIsBlockNew buf then
          let name2 := getBlockname buf in
          '(blk, _rdr) ← loadBlock fuel (newBlock name2 _fname) _rdr _fname [];
          next (set_tbls cfg (<[name2 := blk]> (tbls cfg))) _rdr prevRow
        else if (2 <? len buf) && has_prefix (bs "+=") buf then
          let '(cfg, prevRow) := loadRow cfg (slice_from buf 2) _fname prevRow in
          next cfg _rdr prevRow
        else if has_prefix (bs "{") buf then next cfg _rdr prevRow
        else
          let '(cfg, prevRow) := loadRow cfg buf _fname [] in
          next cfg _rdr prevRow
  end
with loadCfgFile (fuel : nat) (cfg : CfgBlock) (_rdr _fname prevRow : bytes)
  {struct fuel} : result CfgBlock :=
  match fuel with
  | O => OutOfFuel
  | S fuel =>
      let '(buf, err, _rdr) := ReadBytes _rdr NL in
      let next cfg _rdr prevRow :=
        if err then Ok cfg else loadCfgFile fuel cfg _rdr _fname prevRow in
      if len buf <? 1 then next cfg _rdr prevRow
      else
        let buf := cleanLine (removelast buf) in
        if len buf <? 1 then next cfg _rdr prevRow
        else if lineIsInclude buf then
          '(fname2, rdrNew) ← openInclude buf;
          cfg ← loadCfgFile fuel cfg rdrNew fname2 [];
          next cfg _rdr prevRow
        else if lineIsBlockEnd buf then Ok cfg
        else if lineIsBlockNew buf then
          let name2 := getBlockname buf in
          '(blk, _rdr) ← loadBlock fuel (newBlock name2 _fname) _rdr _fname [];
          next (set_tbls cfg (<[name2 := blk]> (tbls cfg))) _rdr prevRow
        else if (2 <? len buf) && has_prefix (bs "+=") buf then
          let '(cfg, prevRow) := loadRow cfg (slice_from buf 2) _fname prevRow in
          next cfg _rdr prevRow
        else if has_prefix (bs "{") buf then next cfg _rdr prevRow
        else
          let '(cfg, prevRow) := loadRow cfg buf _fname [] in
          next cfg _rdr prevRow
  end.
End Loader.

(** ** The registry

    [cfgs] maps a name to a pointer; the heap holds the root blocks the
    pointers refer to. Inside a tree every block owns its rows and
    children, so the tree below a root is a value. *)

Abbreviation loc := nat.

Record World := mkWorld {
  cfgs : gmap bytes loc;
  heap : gmap loc CfgBlock
}.

Definition NewCfg (fs : FS) (fuel : nat) (w : World) (_name _fname : bytes)
  : result (loc * World) :=
  let _fname := expandUser fs _fname in
  match cfgs w !! _name with
  | Some cfg => Ok (cfg, w)
  | None =>
      let p := fresh (dom (heap w)) in
      let w := mkWorld (<[_name := p]> (cfgs w))
                       (<[p := newBlock _name _fname]> (heap w)) in
      match cfgs w !! _name with
      | None => Panic (bs "cfg: NewCfg failed for cfg " ++ _name)
      | Some cfg =>
          match heap w !! cfg with
          | None => Panic (bs "cfg: NewCfg cfg could not be created for cfg" ++ _name)
          | Some blk =>
              match files fs !! _fname with
              | None => Panic (bs "could not open file " ++ _fname)
              | Some rdr =>
                  blk ← loadCfgFile fs fuel blk rdr _fname [];
                  Ok (cfg, mkWorld (cfgs w) (<[cfg := blk]> (heap w)))
              end
          end
      end
  end.

Definition NewCfgMem (w : World) (_name : bytes) : result (loc * World) :=
  match cfgs w !! _name with
  | Some _ => Panic (bs "cfg: NewCfgMem or NewCfg already called for cfg " ++ _name)
  | None =>
      let p := fresh (dom (heap w)) in
      let w := mkWorld (<[_name := p]> (cfgs w)) (<[p := newBlock _name []]> (heap w)) in
      match cfgs w !! _name with
      | None => Panic (bs "cfg: NewCfgMem failed for cfg " ++ _name)
      | Some cfg =>
          match heap w !! cfg with
          | None => Panic (bs "cfg: NewCfgMem cfg could not be created for cfg" ++ _name)
          | Some _ => Ok (cfg, w)
          end
      end
  end.

(** ** Editing *)

Definition EditEntry (cfg : CfgBlock) (_tbl _row _col value : bytes) : CfgBlock :=
  let tbl :=
    match tbls cfg !! _tbl with
    | Some tbl => tbl
    | None => mkBlock (name cfg) [] ∅ ∅
    end in
  let row :=
    match rows tbl !! _row with
    | Some row => row
    | None => mkRow _row ∅
    end in
  let row := mkRow (row_name row) (<[_col := value]> (cols row)) in
  set_tbls cfg (<[_tbl := set_rows tbl (<[_row := row]> (rows tbl))]> (tbls cfg)).

(** [EditEntry] through a root pointer, and a sequence of such calls. *)
Definition EditEntryAt (w : World) (p : loc) (e : bytes * bytes * bytes * bytes)
  : result World :=
  let '(_tbl, _row, _col, value) := e in
  match heap w !! p with
  | None => Panic (bs "invalid memory address or nil pointer dereference")
  | Some cfg =>
      Ok (mkWorld (cfgs w) (<[p := EditEntry cfg _tbl _row _col value]> (heap w)))
  end.

Fixpoint EditEntries (w : World) (p : loc) (es : list (bytes * bytes * bytes * bytes))
  : result World :=
  match es with
  | [] => Ok w
  | e :: es => w ← EditEntryAt w p e; EditEntries w p es
  end.

(** ** Writing

    Go leaves the order of a [range] over a map unspecified: an iteration
    visits the entries of the map in some order, once each. *)

Definition ranges {A} (m : gmap bytes A) (l : list (bytes * A)) : Prop :=
  l ≡ₚ map_to_list m.

Abbreviation ocols := (list (bytes * bytes)).
Abbreviation orows := (list (bytes * ocols)).
Abbreviation otbls := (list (bytes * orows)).

Definition write_col (c : bytes * bytes) : bytes :=
  c.1 ++ bs "=" ++ c.2 ++ bs "; ".

Definition write_row (r : bytes * ocols) : bytes :=
  [TAB] ++ r.1 ++ TAB :: bs ":: " ++ concat (write_col <$> r.2) ++ [NL].

Definition write_tbl (t : bytes * orows) : bytes :=
  NL :: bs "%block " ++ t.1 ++ NL :: "{"%char :: NL ::
  concat (write_row <$> t.2) ++ [NL; "}"%char; NL].

Definition write_tbls (l : otbls) : bytes := concat (write_tbl <$> l).

(** The orders in which one call of [CfgWrite] may visit the tree. *)
Definition visits_rows (m : gmap bytes cfgRow) (l : orows) : Prop :=
  exists lr, ranges m lr /\
    Forall2 (fun kr ko => kr.1 = ko.1 /\ ranges (cols kr.2) ko.2) lr l.

Definition visits_tbls (m : gmap bytes CfgBlock) (l : otbls) : Prop :=
  exists lb, ranges m lb /\
    Forall2 (fun kb ko => kb.1 = ko.1 /\ visits_rows (rows kb.2) ko.2) lb l.

(** [CfgWrite fs cfg _filename r]: the call may end in [r], a panic when
    the file cannot be created, and else the file system in which the
    file holds the text written. *)
Inductive CfgWrite (fs : FS) (cfg : CfgBlock) (_filename : bytes)
  : result FS -> Prop :=
  | CfgWrite_panic :
      creatable fs (expandUser fs _filename) = false ->
      CfgWrite fs cfg _filename
        (Panic (bs "Cannot open filename : " ++ expandUser fs _filename))
  | CfgWrite_ok (l : otbls) :
      creatable fs (expandUser fs _filename) = true ->
      visits_tbls (tbls cfg) l ->
      CfgWrite fs cfg _filename
        (Ok (mkFS (<[expandUser fs _filename := write_tbls l]> (files fs))
                  (HomeDir fs) (creatable fs))).

(** ** Lookups *)

Definition Str (cfg : CfgBlock) (_tbl _row _col _def : bytes) : bytes :=
  match tbls cfg !! _tbl with
  | None => _def
  | Some tbl =>
      match rows tbl !! _row with
      | None => _def
      | Some row =>
          match cols row !! _col with
          | None => _def
          | Some col => col
          end
      end
  end.

Definition SelfStr (cfg : CfgBlock) (_row _col _def : bytes) : bytes :=
  match rows cfg !! _row with
  | None => _def
  | Some row =>
      match cols row !! _col with
      | None => _def
      | Some col => col
      end
  end.

Fixpoint GetBlock (cfg : CfgBlock) (_blockPath : list bytes) : option CfgBlock :=
  match _blockPath with
  | [] => Some cfg
  | tbl :: rest =>
      match tbls cfg !! tbl with
      | None => None
      | Some cfg1 => GetBlock cfg1 rest
      end
  end.

Definition NestedStr (cfg : CfgBlock) (_tbls : list bytes) (_row _col _def : bytes)
  : bytes :=
  let nn := length _tbls in
  if (nn =? 0)%nat then SelfStr cfg _row _col _def
  else
    let nn := (nn - 1)%nat in
    if (nn =? 0)%nat then Str cfg (nth 0 _tbls []) _row _col _def
    else match GetBlock cfg (take nn _tbls) with
         | None => _def
         | Some cfg1 => Str cfg1 (nth nn _tbls []) _row _col _def
         end.

(** A conversion to a signed integer type of [bits] bits wraps. *)
Definition wrap (bits : Z) (z : Z) : Z :=
  (z + 2 ^ (bits - 1)) mod 2 ^ bits - 2 ^ (bits - 1).
Definition to_int64 (z : Z) : Z := wrap 64 z.
Definition is_int64 (z : Z) : Prop := - 2 ^ 63 <= z < 2 ^ 63.

Section Typed.
(** Go's [int] has the size of the target's word: [int_bits] is 32 or 64,
    as the program is built. [int(x)] is [to_int x]. *)
Variable int_bits : Z.

Definition to_int (z : Z) : Z := wrap int_bits z.
Definition is_int (z : Z) : Prop := - 2 ^ (int_bits - 1) <= z < 2 ^ (int_bits - 1).

(** [fmt.Sscanf(col, "%d", &ival)] and [fmt.Sscanf(col, "%g", &ival)],
    whose error is ignored by every caller: [Some v] when a value was
    scanned and stored, [None] when the scan failed and [ival] keeps the
    value it had. Floats are kept abstract; no arithmetic is done on
    them. *)
Variable Sscanf_d : bytes -> option Z.
Variable float64 : Type.
Variable Sscanf_g : bytes -> option float64.

Definition Int (cfg : CfgBlock) (_tbl _row _col : bytes) (_def : Z) : Z :=
  match tbls cfg !! _tbl with
  | None => _def
  | Some tbl =>
      match rows tbl !! _row with
      | None => _def
      | Some row =>
          match cols row !! _col with
          | None => _def
          | Some col =>
              let ival := to_int _def in
              match Sscanf_d col with Some v => v | None => ival end
          end
      end
  end.

Definition SelfInt (cfg : CfgBlock) (_row _col : bytes) (_def : Z) : Z :=
  match rows cfg !! _row with
  | None => _def
  | Some row =>
      match cols row !! _col with
      | None => _def
      | Some col =>
          let ival := to_int _def in
          match Sscanf_d col with Some v => v | None => ival end
      end
  end.

Definition NestedInt (cfg : CfgBlock) (_tbls : list bytes) (_row _col : bytes)
  (_def : Z) : Z :=
  let nn := length _tbls in
  if (nn =? 0)%nat then SelfInt cfg _row _col _def
  else
    let nn := (nn - 1)%nat in
    if (nn =? 0)%nat then Int cfg (nth 0 _tbls []) _row _col _def
    else match GetBlock cfg (take nn _tbls) with
         | None => _def
         | Some cfg1 => Int cfg1 (nth nn _tbls []) _row _col _def
         end.

Definition Int64 (cfg : CfgBlock) (_tbl _row _col : bytes) (_def : Z) : Z :=
  match tbls cfg !! _tbl with
  | None => _def
  | Some tbl =>
      match rows tbl !! _row with
      | None => _def
      | Some row =>
          match cols row !! _col with
          | None => _def
          | Some col =>
              let ival := to_int _def in
              to_int64 (match Sscanf_d col with Some v => v | None => ival end)
          end
      end
  end.

Definition SelfInt64 (cfg : CfgBlock) (_row _col : bytes) (_def : Z) : Z :=
  match rows cfg !! _row with
  | None => _def
  | Some row =>
      match cols row !! _col with
      | None => _def
      | Some col =>
          let ival := to_int _def in
          to_int64 (match Sscanf_d col with Some v => v | None => ival end)
      end
  end.

Definition NestedInt64 (cfg : CfgBlock) (_tbls : list bytes) (_row _col : bytes)
  (_def : Z) : Z :=
  let nn := length _tbls in
  if (nn =? 0)%nat then SelfInt64 cfg _row _col _def
  else
    let nn := (nn - 1)%nat in
    if (nn =? 0)%nat then Int64 cfg (nth 0 _tbls []) _row _col _def
    else match GetBlock cfg (take nn _tbls) with
         | None => _def
         | Some cfg1 => Int64 cfg1 (nth nn _tbls []) _row _col _def
         end.

Definition Float64 (cfg : CfgBlock) (_tbl _row _col : bytes) (_def : float64)
  : float64 :=
  match tbls cfg !! _tbl with
  | None => _def
  | Some tbl =>
      match rows tbl !! _row with
      | None => _def
      | Some row =>
          match cols row !! _col with
          | None => _def
          | Some col =>
              let ival := _def in
              match Sscanf_g col with Some v => v | None => ival end
          end
      end
  end.

Definition SelfFloat64 (cfg : CfgBlock) (_row _col : bytes) (_def : float64)
  : float64 :=
  match rows cfg !! _row with
  | None => _def
  | Some row =>
      match cols row !! _col with
      | None => _def
      | Some col =>
          let ival := _def in
          match Sscanf_g col with Some v => v | None => ival end
      end
  end.

Definition NestedFloat64 (cfg : CfgBlock) (_tbls : list bytes) (_row _col : bytes)
  (_def : float64) : float64 :=
  let nn := length _tbls in
  if (nn =? 0)%nat then SelfFloat64 cfg _row _col _def
  else
    let nn := (nn - 1)%nat in
    if (nn =? 0)%nat then Float64 cfg (nth 0 _tbls []) _row _col _def
    else match GetBlock cfg (take nn _tbls) with
         | None => _def
         | Some cfg1 => Float64 cfg1 (nth nn _tbls []) _row _col _def
         end.
End Typed.

(** ** Lists *)

Definition Split (cfg : CfgBlock) (_tbl _row _col _def : bytes) : list bytes :=
  bytes_Split (Str cfg _tbl _row _col _def) (bs ",").

(** The [partsmap] that [Expandlist] fills. *)
Definition Expandlist_partsmap (cfg : CfgBlock) (_block _row _col _row2 : bytes)
  : gmap bytes bool :=
  foldl (fun partsmap boxtype =>
           foldl (fun partsmap box => <[box := true]> partsmap) partsmap
                 (Split cfg _block _row2 boxtype []))
        ∅ (Split cfg _block _row _col []).

(** The keys of [partsmap] come back in an unspecified order; the order of
    the list below stands for any of them. *)
Definition Expandlist (cfg : CfgBlock) (_block _row _col _row2 : bytes) : list bytes :=
  if len _block <=? 0 then []
  else if len _row <=? 0 then []
  else if len _col <=? 0 then []
  else if len _row2 <=? 0 then []
  else (map_to_list (Expandlist_partsmap cfg _block _row _col _row2)).*1.

(** ** Sample data for the evaluations below *)

Definition world0 : World := mkWorld ∅ ∅.
Definition fs_empty : FS := mkFS ∅ (bs "/home/u") (fun _ => true).

(** The world after [NewCfgMem("mem")], and the world after
    [NewCfg("app", "/etc/app.cfg")] on a file of one row. *)
Definition world_mem : World :=
  mkWorld {[ bs "mem" := 0%nat ]} {[ 0%nat := newBlock (bs "mem") [] ]}.

Definition fs_one_row : FS :=
  mkFS {[ bs "/etc/app.cfg" := bs "top :: k=v;
" ]} (bs "/home/u") (fun _ => true).

Definition world_file : World :=
  match NewCfg fs_one_row 10 world0 (bs "app") (bs "/etc/app.cfg") with
  | Ok (_, w) => w
  | _ => world0
  end.

(** A top-level file that includes a file that opens a block and, inside
    it, includes a file that is missing. *)
Definition text_inner : bytes := bs "%block b
{
%include /etc/missing.cfg
}
".

Definition text_include_inc : bytes := bs "%include /etc/inc.cfg
".

Definition text_include_missing : bytes := bs "%include /etc/missing.cfg
}
".

Definition fs_nested : FS :=
  mkFS {[ bs "/etc/app.cfg" := text_include_inc;
          bs "/etc/inc.cfg" := text_inner ]} (bs "/home/u") (fun _ => true).

(** ** Entries

    What is stored at a (block, row, column) triple, if anything; the
    lookups are stated against these. *)

Definition self_entry (cfg : CfgBlock) (_row _col : bytes) : option bytes :=
  r ← rows cfg !! _row; cols r !! _col.

Definition entry (cfg : CfgBlock) (_tbl _row _col : bytes) : option bytes :=
  t ← tbls cfg !! _tbl; self_entry t _row _col.

Definition nested_entry (cfg : CfgBlock) (_tbls : list bytes) (_row _col : bytes)
  : option bytes :=
  b ← GetBlock cfg _tbls; self_entry b _row _col.

(** The entry is absent, or its text is one the scanner rejects. *)
Definition unusable {A} (scan : bytes -> option A) (e : option bytes) : Prop :=
  forall s, e = Some s -> scan s = None.

(** A scanner for plain decimal text (blanks, an optional sign, digits),
    used to evaluate the numeric lookups on sample trees. *)
Definition digit_of (c : ascii) : option Z :=
  let n := nat_of_ascii c in
  if ((48 <=? n)%nat && (n <=? 57)%nat)%bool then Some (Z.of_nat (n - 48)) else None.

Fixpoint scan_digits (s : bytes) (acc : option Z) : option Z :=
  match s with
  | c :: t =>
      match digit_of c with
      | Some d => scan_digits t (Some (10 * default 0 acc + d))
      | None => acc
      end
  | [] => acc
  end.

Definition scan_decimal (s : bytes) : option Z :=
  let s := TrimLeft s blanks in
  let '(neg, s) :=
    match s with
    | c :: t => if Ascii.eqb c "-" then (true, t)
                else if Ascii.eqb c "+" then (false, t) else (false, s)
    | [] => (false, s)
    end in
  v ← scan_digits s None;
  let v := if neg : bool then - v else v in
  if (- 2 ^ 63 <=? v) && (v <? 2 ^ 63) then Some v else None.

Definition sample_tree : CfgBlock :=
  EditEntry (EditEntry (EditEntry (newBlock (bs "app") [])
    (bs "thirdblock") (bs "some-row") (bs "numProcs") (bs "8"))
    (bs "thirdblock") (bs "some-row") (bs "user") (bs "abc"))
    (bs "someblock") (bs "lmirror") (bs "plugins") (bs "transpath,split").

(** A block that already holds the row [r] with the single column [a=1]. *)
Definition block_with_r : CfgBlock :=
  (loadRow (newBlock (bs "b") (bs "f")) (bs "r :: a=1;") (bs "f") []).1.

Definition cols_of (l : list (string * string)) : gmap bytes bytes :=
  list_to_map ((fun kv => (bs kv.1, bs kv.2)) <$> l).

Definition tree_x : CfgBlock :=
  EditEntry (newBlock (bs "app") []) (bs "b") (bs "r") (bs "c") (bs "x").

(** ** A view of one loop iteration

    The loops of [loadBlock] and [loadCfgFile] test a cleaned line against
    the same chain of conditions; [classify] names the branch taken and
    [iteration] is the body of [loadBlock]'s loop for a cleaned line, with
    [next] standing for the rest of the loop. *)

Inductive kind := KSkip | KInclude | KEnd | KNew | KAdd | KBrace | KRow.

Definition classify (buf : bytes) : kind :=
  if len buf <? 1 then KSkip
  else if lineIsInclude buf then KInclude
  else if lineIsBlockEnd buf then KEnd
  else if lineIsBlockNew buf then KNew
  else if (2 <? len buf) && has_prefix (bs "+=") buf then KAdd
  else if has_prefix (bs "{") buf then KBrace
  else KRow.

Definition iteration (fs : FS) (fuel : nat) (cfg : CfgBlock) (buf _rdr _fname prevRow : bytes)
    (next : CfgBlock -> bytes -> bytes -> result (CfgBlock * bytes))
  : result (CfgBlock * bytes) :=
  match classify buf with
  | KSkip | KBrace => next cfg _rdr prevRow
  | KInclude =>
      '(fname2, rdrNew) ← openInclude fs buf;
      cfg ← loadCfgFile fs fuel cfg rdrNew fname2 [];
      next cfg _rdr prevRow
  | KEnd => Ok (cfg, _rdr)
  | KNew =>
      let name2 := getBlockname buf in
      '(blk, _rdr) ← loadBlock fs fuel (newBlock name2 _fname) _rdr _fname [];
      next (set_tbls cfg (<[name2 := blk]> (tbls cfg))) _rdr prevRow
  | KAdd =>
      let '(cfg, prevRow) := loadRow cfg (slice_from buf 2) _fname prevRow in
      next cfg _rdr prevRow
  | KRow =>
      let '(cfg, prevRow) := loadRow cfg buf _fname [] in
      next cfg _rdr prevRow
  end.

(** What one line does before the loop goes on to the next: [None] when
    the line ends the scope, and else the block, the stream and the
    pending row name the loop goes on with. *)
Definition handled (fs : FS) (fuel : nat) (cfg : CfgBlock) (buf _rdr _fname prevRow : bytes)
  : result (option (CfgBlock * bytes * bytes)) :=
  match classify buf with
  | KSkip | KBrace => Ok (Some (cfg, _rdr, prevRow))
  | KInclude =>
      '(fname2, rdrNew) ← openInclude fs buf;
      cfg ← loadCfgFile fs fuel cfg rdrNew fname2 [];
      Ok (Some (cfg, _rdr, prevRow))
  | KEnd => Ok None
  | KNew =>
      let name2 := getBlockname buf in
      '(blk, _rdr) ← loadBlock fs fuel (newBlock name2 _fname) _rdr _fname [];
      Ok (Some (set_tbls cfg (<[name2 := blk]> (tbls cfg)), _rdr, prevRow))
  | KAdd =>
      let '(cfg, prevRow) := loadRow cfg (slice_from buf 2) _fname prevRow in
      Ok (Some (cfg, _rdr, prevRow))
  | KRow =>
      let '(cfg, prevRow) := loadRow cfg buf _fname [] in
      Ok (Some (cfg, _rdr, prevRow))
  end.

(** [reaches fs f F cfg rdr prev cfg' rdr' prev']: the loop that starts
    on the stream [rdr] with the block [cfg] and the pending row name
    [prev] gets, one line after the other, to read [rdr'] with the block
    [cfg'] and the pending row name [prev']; the included files and the
    child blocks on the way are loaded within the fuel [F]. *)
Inductive reaches (fs : FS) (f : bytes) (F : nat)
  : CfgBlock -> bytes -> bytes -> CfgBlock -> bytes -> bytes -> Prop :=
  | reaches_here cfg (rdr prev : bytes) : reaches fs f F cfg rdr prev cfg rdr prev
  | reaches_line cfg (l rest prev : bytes) c1 (r1 p1 : bytes) c2 (r2 p2 : bytes) :
      NL ∉ l ->
      handled fs F cfg (cleanLine l) rest f prev = Ok (Some (c1, r1, p1)) ->
      reaches fs f F c1 r1 p1 c2 r2 p2 ->
      reaches fs f F cfg (l ++ NL :: rest) prev c2 r2 p2.

(** A file system whose top-level file holds a row line and then
    includes a file that is missing. *)
Definition fs_late_include : FS :=
  mkFS {[ bs "/etc/app.cfg" := bs "a :: k=v;
%include /etc/missing.cfg
" ]} (bs "/home/u") (fun _ => true).

(** A file system whose top-level file includes a file that is missing,
    from inside a block. *)
Definition fs_missing_include : FS :=
  mkFS {[ bs "/etc/app.cfg" :=
            bs "%block b
{
  r :: a=1;
  %include /etc/missing.cfg
}
" ]} (bs "/home/u") (fun _ => true).

(** ** Names and values the format can hold

    A text is [plain] when cleaning a line leaves it as it is and it fits
    in one line: no [#], no newline, no blank at either end. *)

Definition plain (s : bytes) : Prop :=
  ("#"%char ∉ s) /\ (NL ∉ s) /\
  TrimLeft s blanks = s /\ TrimRight s blanks = s.

Definition ok_block (b : bytes) : Prop := b <> [] /\ plain b.

Definition ok_row (r : bytes) : Prop :=
  r <> [] /\ plain r /\
  (head r ∉ [Some "%"%char; Some "{"%char; Some "}"%char]) /\
  Index r (bs "::") = -1 /\ Index r (bs "+=") = -1.

Definition ok_col (c : bytes) : Prop :=
  c <> [] /\ plain c /\ (";"%char ∉ c) /\ ("="%char ∉ c).

Definition ok_val (v : bytes) : Prop := plain v /\ (";"%char ∉ v).

Definition ok_cols (l : ocols) : Prop :=
  Forall (fun cv => ok_col cv.1 /\ ok_val cv.2) l.

(** The data of a cleaned row line: each column as [ c=v;]. *)
Definition col_text (cv : bytes * bytes) : bytes :=
  " "%char :: cv.1 ++ "="%char :: cv.2 ++ [";"%char].

Definition cols_text (l : ocols) : bytes := concat (col_text <$> l).

(** A cleaned row line: the name, one blank, [::] and the data. *)
Definition row_text (r : bytes) (sep : ascii) (d : bytes) : bytes :=
  r ++ sep :: bs "::" ++ d.

(** The columns and rows the loader builds from an ordered list. *)
Definition cols_from (l : ocols) (m : gmap bytes bytes) : gmap bytes bytes :=
  foldl (fun m cv => <[cv.1 := cv.2]> m) m l.

Definition rows_from (l : orows) (m : gmap bytes cfgRow) : gmap bytes cfgRow :=
  foldl (fun m ro => <[ro.1 := mkRow ro.1 (cols_from ro.2 ∅)]> m) m l.

(** The child blocks the loader builds from an ordered list of written
    blocks, and the fuel that suffices to load them. *)
Definition tbls_from (l : otbls) (f : bytes) (m : gmap bytes CfgBlock)
  : gmap bytes CfgBlock :=
  foldl (fun m ob => <[ob.1 := mkBlock ob.1 f (rows_from ob.2 ∅) ∅]> m) m l.

Definition fuel_for (l : otbls) : nat :=
  S (foldr (fun ob n => (length ob.2 + 5 + n)%nat) 0%nat l).

Definition ok_rows (l : orows) : Prop :=
  Forall (fun ro => ok_row ro.1 /\ ok_cols ro.2) l /\ NoDup l.*1.

Definition ok_tbls (l : otbls) : Prop :=
  Forall (fun ob => ok_block ob.1 /\ ok_rows ob.2) l.

(** ** What a tree holds

    The block names, the row names of each block and the columns of each
    row: the part of a tree that [CfgWrite] writes and the lookups see. *)

Definition block_content (B : CfgBlock) : gmap bytes (gmap bytes bytes) :=
  cols <$> rows B.

Definition content (cfg : CfgBlock) : gmap bytes (gmap bytes (gmap bytes bytes)) :=
  block_content <$> tbls cfg.

Definition same_content (cfg cfg' : CfgBlock) : Prop :=
  dom (tbls cfg) = dom (tbls cfg') /\
  forall b B B', tbls cfg !! b = Some B -> tbls cfg' !! b = Some B' ->
    dom (rows B) = dom (rows B') /\
    forall r R R', rows B !! r = Some R -> rows B' !! r = Some R' -> cols R = cols R'.

Definition ok_edit (e : bytes * bytes * bytes * bytes) : Prop :=
  let '(t, r, c, v) := e in ok_block t /\ ok_row r /\ ok_col c /\ ok_val v.

Definition clean_tree (cfg : CfgBlock) : Prop :=
  forall b B, tbls cfg !! b = Some B ->
    ok_block b /\
    forall r R, rows B !! r = Some R ->
      ok_row r /\
      forall c v, cols R !! c = Some v -> ok_col c /\ ok_val v.

(** One order in which [CfgWrite] may visit a tree: that of [map_to_list]
    at every level. *)
Definition order_rows (m : gmap bytes cfgRow) : orows :=
  (fun kr => (kr.1, map_to_list (cols kr.2))) <$> map_to_list m.

Definition order_tbls (m : gmap bytes CfgBlock) : otbls :=
  (fun kb => (kb.1, order_rows (rows kb.2))) <$> map_to_list m.

(** A tree built by one edit whose value holds a [;], the world that holds
    it, and the file system after it is written to [/tmp/out.cfg]. *)
Definition edit_semicolon : bytes * bytes * bytes * bytes :=
  (bs "b", bs "r", bs "c", bs "x;y").

Definition tree_semicolon : CfgBlock :=
  EditEntry (newBlock (bs "mem") []) (bs "b") (bs "r") (bs "c") (bs "x;y").

Definition world_semicolon : World :=
  mkWorld {[ bs "mem" := 0%nat ]} {[ 0%nat := tree_semicolon ]}.

Definition fs_semicolon : FS :=
  mkFS {[ bs "/tmp/out.cfg" := write_tbls (order_tbls (tbls tree_semicolon)) ]}
       (bs "/home/u") (fun _ => true).

(** A clean sequence of edits. *)
Definition edits_sample : list (bytes * bytes * bytes * bytes) :=
  [ (bs "thirdblock", bs "some-row", bs "numProcs", bs "8");
    (bs "thirdblock", bs "some-row", bs "path", bs "/usr/local:/opt a=b");
    (bs "block 4", bs "another:row", bs "millis", bs "123456789");
    (bs "thirdblock", bs "other", bs "note", []) ].

(** The world after [NewCfgMem] and the edits of [edits_sample], the tree
    built, and the file system after that tree is written to
    [/tmp/out.cfg] in the order of [order_tbls]. *)
Definition world_sample : World :=
  match EditEntries world_mem 0%nat edits_sample with
  | Ok w => w
  | _ => world_mem
  end.

Definition tree_sample : CfgBlock :=
  default (newBlock [] []) (heap world_sample !! 0%nat).

Definition fs_sample : FS :=
  mkFS (<[ expandUser fs_empty (bs "/tmp/out.cfg") :=
             write_tbls (order_tbls (tbls tree_sample)) ]> (files fs_empty))
       (HomeDir fs_empty) (creatable fs_empty).

Definition loaded_sample : CfgBlock :=
  match NewCfg fs_sample 1000 world_sample (bs "copy") (bs "/tmp/out.cfg") with
  | Ok (q, w) => default (newBlock [] []) (heap w !! q)
  | _ => newBlock [] []
  end.

Definition loaded_semicolon : CfgBlock :=
  match NewCfg fs_semicolon 100 world_semicolon (bs "copy") (bs "/tmp/out.cfg") with
  | Ok (q, w) => default (newBlock [] []) (heap w !! q)
  | _ => newBlock [] []
  end.

(** A continuation line: [+=] and the data. *)
Definition continuation_text (d : bytes) : bytes := bs "+=" ++ d.

(** Sample lines and texts. *)
Definition cols_a1 : ocols := [(bs "a", bs "1")].
Definition cols_b2 : ocols := [(bs "b", bs "2")].
Definition cols_c3 : ocols := [(bs "c", bs "3")].
Definition cols_plus : ocols := [(bs "c", bs "x+=y")].

Definition block_with_name : CfgBlock :=
  (loadRow (newBlock (bs "blk") (bs "f")) (bs "name :: a=1; z=26;") (bs "f") []).1.



Definition load_text (text : bytes) : CfgBlock :=
  match loadCfgFile fs_empty 20 (newBlock (bs "app") (bs "f")) text (bs "f") [] with
  | Ok cfg => cfg
  | _ => newBlock [] []
  end.

(** ** A stream whose last line no newline ends

    [newline_for_last s] is [s] with its last byte replaced by a newline. *)

Definition unterminated (s : bytes) : Prop := s <> [] /\ last s <> Some NL.

Definition newline_for_last (s : bytes) : bytes := removelast s ++ [NL].

(** Two streams that are equal, or differ as above; two outcomes that
    agree on the tree, with what is left unread related by [R]. *)
Definition same_or_cut (s s' : bytes) : Prop :=
  s' = s \/ (unterminated s /\ s' = newline_for_last s).

Definition both_empty (s s' : bytes) : Prop := s = [] /\ s' = [].

Definition agree (R : bytes -> bytes -> Prop) (r r' : result (CfgBlock * bytes)) : Prop :=
  match r, r' with
  | Ok (c, s), Ok (c', s') => c = c' /\ R s s'
  | Panic m, Panic m' => m = m'
  | _, _ => False
  end.

(** The line that opens a block, and a written row line less its
    newline. *)
Definition block_line (b : bytes) : bytes := bs "%block " ++ b.

Definition row_raw (ro : bytes * ocols) : bytes :=
  TAB :: ro.1 ++ TAB :: bs ":: " ++ concat (write_col <$> ro.2).

(** ** Introspection

    [GetBlocks] fills a slice of [len(cfg.tbls)] empty strings by index
    while ranging over the map; [GetRows] and [GetCols] append while
    ranging. The order of each range is unspecified, so each is a relation
    between the tree and the list returned. (An index that is out of range
    would panic in Go; the list update below does nothing there.) *)

Definition fill_by_index (keys : list bytes) (blocks : list bytes) : list bytes :=
  (foldl (fun st kk => (<[st.2 := kk]> st.1, S st.2)) (blocks, 0%nat) keys).1.

Definition append_all (keys : list bytes) (rows : list bytes) : list bytes :=
  foldl (fun rows rr => rows ++ [rr]) rows keys.

Inductive GetBlocks (cfg : CfgBlock) : list bytes -> Prop :=
  | GetBlocks_range (l : list (bytes * CfgBlock)) :
      ranges (tbls cfg) l ->
      GetBlocks cfg (fill_by_index l.*1 (replicate (size (tbls cfg)) [])).

Inductive GetRows (cfg : CfgBlock) (_tbl : bytes) : list bytes -> Prop :=
  | GetRows_found tbl (l : list (bytes * cfgRow)) :
      tbls cfg !! _tbl = Some tbl -> ranges (rows tbl) l ->
      GetRows cfg _tbl (append_all l.*1 [])
  | GetRows_missing :
      tbls cfg !! _tbl = None -> GetRows cfg _tbl [].

Inductive GetCols (cfg : CfgBlock) (_tbl _row : bytes) : list bytes -> Prop :=
  | GetCols_found tbl row (l : list (bytes * bytes)) :
      tbls cfg !! _tbl = Some tbl -> rows tbl !! _row = Some row ->
      ranges (cols row) l ->
      GetCols cfg _tbl _row (append_all l.*1 [])
  | GetCols_no_row tbl :
      tbls cfg !! _tbl = Some tbl -> rows tbl !! _row = None ->
      GetCols cfg _tbl _row []
  | GetCols_no_tbl :
      tbls cfg !! _tbl = None -> GetCols cfg _tbl _row [].

Definition RowExists (cfg : CfgBlock) (block row : bytes) : bool :=
  match tbls cfg !! block with
  | None => false
  | Some tbl =>
      match rows tbl !! row with
      | None => false
      | Some _ => true
      end
  end.

(** The shape shared by [NestedStr], [NestedInt], [NestedInt64] and
    [NestedFloat64]: [self] and [plain] are the self and plain lookups at
    a fixed row, column and default. *)
Definition nested_of {A} (self : CfgBlock -> A) (plain : CfgBlock -> bytes -> A)
    (d : A) (cfg : CfgBlock) (_tbls : list bytes) : A :=
  let nn := length _tbls in
  if (nn =? 0)%nat then self cfg
  else
    let nn := (nn - 1)%nat in
    if (nn =? 0)%nat then plain cfg (nth 0 _tbls [])
    else match GetBlock cfg (take nn _tbls) with
         | None => d
         | Some cfg1 => plain cfg1 (nth nn _tbls [])
         end.

(** [strings.Join(l, sep)], against which [Split] is stated. *)
Definition Join (l : list bytes) (sep : bytes) : bytes :=
  match l with
  | [] => []
  | x :: rest => x ++ concat ((fun y => sep ++ y) <$> rest)
  end.

(** The tree of the list example: [col] lists the keys [x] and [y] of
    [row2], which hold [a,b] and [b,c]. *)
Definition tree_lists : CfgBlock :=
  EditEntry (EditEntry (EditEntry (newBlock (bs "app") [])
    (bs "block") (bs "row") (bs "col") (bs "x,y"))
    (bs "block") (bs "row2") (bs "x") (bs "a,b"))
    (bs "block") (bs "row2") (bs "y") (bs "b,c").

(** ** What loading keeps

    [grows cfg cfg']: [cfg'] has the name and file of [cfg] and at least
    its row names and block names. [occurs pat s]: [pat] is a piece of
    [s]. *)

Definition grows (cfg cfg' : CfgBlock) : Prop :=
  name cfg' = name cfg /\ fname cfg' = fname cfg /\
  dom (rows cfg) ⊆ dom (rows cfg') /\ dom (tbls cfg) ⊆ dom (tbls cfg').

Definition occurs (pat s : bytes) : Prop := exists a b, s = a ++ pat ++ b.

Definition text_no_include : bytes := bs "# settings
top :: k=v;
%block b
  stray text
  += lost=1;
  r :: a=1;
}
} trailing".

(** ** The registry invariant

    Every registered name points to a live root block that carries this
    name. *)

Definition registry_ok (w : World) : Prop :=
  forall n p, cfgs w !! n = Some p ->
    exists blk, heap w !! p = Some blk /\ name blk = n.



(** ** Include lines

    [include_line p] is the cleaned line [%include p]; [quoted p] is [p]
    between double quotes. [ok_path]: a path the line can hold bare, with
    no [#], no newline, no white space at either end, and no leading
    quote. *)

Definition include_line (p : bytes) : bytes := bs "%include " ++ p.

Definition quoted (p : bytes) : bytes := DQ :: p ++ [DQ].

Definition ok_path (p : bytes) : Prop :=
  p <> [] /\ plain p /\ trailing_space p = None /\ head p <> Some DQ.

Definition fs_includes : FS :=
  mkFS {[ bs "/etc/rows.cfg" := bs "r :: a=1;
" ]} (bs "/home/u") (fun _ => true).

(** A text whose top level is closed by a brace before it ends. *)
Definition text_closed_early : bytes := bs "a :: k=v;
%block b
  r :: x=1;
}
}
late :: k=w;
".

(** * Properties *)

#[local] Arguments Ascii.eqb : simpl never.
#[local] Arguments bs : simpl never.

(** ** The registry *)

Lemma NewCfgMem_registers w _name p w' :
  NewCfgMem w _name = Ok (p, w') -> cfgs w' !! _name = Some p.
Proof.
  unfold NewCfgMem. destruct (cfgs w !! _name); [discriminate|]. simpl.
  rewrite lookup_insert_eq, lookup_insert_eq. intros [= <- <-]. simpl.
  apply lookup_insert_eq.
Qed.

Lemma NewCfg_registers fs fuel w _name _fname p w' :
  NewCfg fs fuel w _name _fname = Ok (p, w') -> cfgs w' !! _name = Some p.
Proof.
  unfold NewCfg. destruct (cfgs w !! _name) eqn:E.
  - intros [= <- <-]. exact E.
  - simpl. rewrite lookup_insert_eq, lookup_insert_eq.
    destruct (files fs !! expandUser fs _fname); [|discriminate].
    destruct (loadCfgFile _ _ _ _ _ _) eqn:L; simpl; try discriminate.
    intros [= <- <-]. simpl. apply lookup_insert_eq.
Qed.

(** C10: for every name already present in the registry, whether it was
    registered by [NewCfg] or by [NewCfgMem], [NewCfgMem] with that name
    panics; it neither returns the cached tree nor creates an empty one. *)
Theorem NewCfgMem_registered_panics :
  (forall w _name p, cfgs w !! _name = Some p ->
     NewCfgMem w _name =
       Panic (bs "cfg: NewCfgMem or NewCfg already called for cfg " ++ _name)) /\
  (forall w _name p w', NewCfgMem w _name = Ok (p, w') ->
     NewCfgMem w' _name =
       Panic (bs "cfg: NewCfgMem or NewCfg already called for cfg " ++ _name)) /\
  (forall fs fuel w _name _fname p w', NewCfg fs fuel w _name _fname = Ok (p, w') ->
     NewCfgMem w' _name =
       Panic (bs "cfg: NewCfgMem or NewCfg already called for cfg " ++ _name)).
Proof.
  assert (H : forall w _name p, cfgs w !! _name = Some p ->
     NewCfgMem w _name =
       Panic (bs "cfg: NewCfgMem or NewCfg already called for cfg " ++ _name)).
  { intros w n p Hp. unfold NewCfgMem. now rewrite Hp. }
  split; [exact H|]. split.
  - intros w n p w' Hm. apply (H w' n p). eapply NewCfgMem_registers, Hm.
  - intros fs fuel w n f p w' Hn. apply (H w' n p). eapply NewCfg_registers, Hn.
Qed.

Lemma NewCfgMem_registered_panics_witness :
  NewCfgMem world_mem (bs "mem") =
    Panic (bs "cfg: NewCfgMem or NewCfg already called for cfg mem") /\
  NewCfgMem world_file (bs "app") =
    Panic (bs "cfg: NewCfgMem or NewCfg already called for cfg app").
Proof.
  destruct NewCfgMem_registered_panics as (A & B & C). split.
  - apply (B world0 (bs "mem") 0%nat world_mem). vm_compute. reflexivity.
  - apply (C fs_one_row 10%nat world0 (bs "app") (bs "/etc/app.cfg") 0%nat world_file).
    vm_compute. reflexivity.
Defined.

(** C4: once a name is registered, every later [NewCfg] with that name
    returns the registered pointer and leaves the registry and the heap as
    they were, whatever the file system holds, whatever path is passed and
    with no fuel spent: even where no file can be opened the call returns. *)
Theorem NewCfg_cached :
  (forall fs fuel w _name _fname p, cfgs w !! _name = Some p ->
     NewCfg fs fuel w _name _fname = Ok (p, w)) /\
  (forall fs fuel w _name _fname p w',
     NewCfg fs fuel w _name _fname = Ok (p, w') ->
     forall fs' fuel' _fname', NewCfg fs' fuel' w' _name _fname' = Ok (p, w')).
Proof.
  assert (H : forall fs fuel w _name _fname p, cfgs w !! _name = Some p ->
     NewCfg fs fuel w _name _fname = Ok (p, w)).
  { intros fs fuel w n f p Hp. unfold NewCfg. now rewrite Hp. }
  split; [exact H|].
  intros fs fuel w n f p w' Hn fs' fuel' f'. apply H.
  eapply NewCfg_registers, Hn.
Qed.

Lemma NewCfg_cached_witness :
  NewCfg fs_empty 0 world_mem (bs "mem") (bs "/no/such/file") = Ok (0%nat, world_mem) /\
  NewCfg fs_empty 0 world_file (bs "app") (bs "/etc/other.cfg") = Ok (0%nat, world_file).
Proof.
  destruct NewCfg_cached as (A & B). split.
  - apply (A fs_empty 0%nat world_mem (bs "mem") (bs "/no/such/file") 0%nat).
    vm_compute. reflexivity.
  - apply (B fs_one_row 10%nat world0 (bs "app") (bs "/etc/app.cfg") 0%nat world_file).
    vm_compute. reflexivity.
Defined.

(** ** Typed lookups *)

Lemma wrap_small bits z :
  0 < bits -> - 2 ^ (bits - 1) <= z < 2 ^ (bits - 1) -> wrap bits z = z.
Proof.
  intros Hb Hz. unfold wrap.
  assert (E : 2 ^ bits = 2 * 2 ^ (bits - 1)).
  { replace bits with (Z.succ (bits - 1)) at 1 by lia. apply Z.pow_succ_r. lia. }
  rewrite Z.mod_small; lia.
Qed.

Lemma wrap_range bits z :
  0 < bits -> - 2 ^ (bits - 1) <= wrap bits z < 2 ^ (bits - 1).
Proof.
  intros Hb. unfold wrap.
  assert (E : 2 ^ bits = 2 * 2 ^ (bits - 1)).
  { replace bits with (Z.succ (bits - 1)) at 1 by lia. apply Z.pow_succ_r. lia. }
  assert (P : 0 < 2 ^ (bits - 1)) by (apply Z.pow_pos_nonneg; lia).
  pose proof (Z.mod_pos_bound (z + 2 ^ (bits - 1)) (2 ^ bits)). lia.
Qed.

Lemma to_int_id bits z : 0 < bits -> is_int bits z -> to_int bits z = z.
Proof. intros Hb H. now apply wrap_small. Qed.

(** Converting to [int] keeps a value exactly when it fits [int]. *)
Lemma to_int_fits bits z : 0 < bits -> to_int bits z = z <-> is_int bits z.
Proof.
  intros Hb. split.
  - intros <-. now apply wrap_range.
  - now apply to_int_id.
Qed.

Lemma to_int64_id z : is_int64 z -> to_int64 z = z.
Proof. intros H. apply wrap_small; [reflexivity | exact H]. Qed.

Lemma int_size_pos bits : bits = 32 \/ bits = 64 -> 0 < bits.
Proof. intros [-> | ->]; reflexivity. Qed.

Lemma is_int_is_int64 bits z : bits = 32 \/ bits = 64 -> is_int bits z -> is_int64 z.
Proof. intros [-> | ->]; unfold is_int, is_int64; lia. Qed.

Lemma to_int64_to_int bits z :
  bits = 32 \/ bits = 64 -> to_int64 (to_int bits z) = to_int bits z.
Proof.
  intros Hb. apply to_int64_id, (is_int_is_int64 bits _ Hb).
  apply wrap_range, int_size_pos, Hb.
Qed.

Lemma GetBlock_snoc cfg p x :
  GetBlock cfg (p ++ [x]) = (b ← GetBlock cfg p; tbls b !! x).
Proof.
  revert cfg. induction p as [|y p IH]; intros cfg; simpl.
  - destruct (tbls cfg !! x); reflexivity.
  - destruct (tbls cfg !! y); [apply IH | reflexivity].
Qed.

Lemma nested_entry_nil cfg r c : nested_entry cfg [] r c = self_entry cfg r c.
Proof. reflexivity. Qed.

Lemma nested_entry_snoc cfg p x r c :
  nested_entry cfg (p ++ [x]) r c = (b ← GetBlock cfg p; entry b x r c).
Proof.
  unfold nested_entry, entry. rewrite GetBlock_snoc.
  destruct (GetBlock cfg p); reflexivity.
Qed.

Lemma path_split (p : list bytes) :
  p <> [] -> p = take (length p - 1) p ++ [nth (length p - 1) p []].
Proof.
  destruct p as [|a p] using rev_ind; [congruence|]. intros _.
  rewrite length_app. simpl.
  replace (length p + 1 - 1)%nat with (length p) by lia.
  rewrite take_app_length. now rewrite nth_middle.
Qed.

Section TypedFacts.
Variable int_bits : Z.
Variable Sscanf_d : bytes -> option Z.
Variable float64 : Type.
Variable Sscanf_g : bytes -> option float64.

(** A generic numeric lookup: what [Int], [Int64] and [Float64] share. *)
Lemma self_lookup_default {A} (scan : bytes -> option A) (conv : A -> A)
      cfg r c (d : A) :
  unusable scan (self_entry cfg r c) -> conv d = d ->
  match rows cfg !! r with
  | None => d
  | Some row =>
      match cols row !! c with
      | None => d
      | Some col => match scan col with Some v => conv v | None => conv d end
      end
  end = d.
Proof.
  unfold unusable, self_entry. intros H Hc.
  destruct (rows cfg !! r) as [row|]; simpl in *; [|reflexivity].
  destruct (cols row !! c) as [col|]; [|reflexivity].
  now rewrite (H col eq_refl).
Qed.

Lemma Int_entry cfg (t r c : bytes) (d : Z) :
  Int int_bits Sscanf_d cfg t r c d =
  match entry cfg t r c with
  | None => d
  | Some col => match Sscanf_d col with Some v => v | None => to_int int_bits d end
  end.
Proof.
  unfold Int, entry, self_entry.
  destruct (tbls cfg !! t) as [tbl|]; simpl; [|reflexivity].
  destruct (rows tbl !! r) as [row|]; simpl; [|reflexivity].
  destruct (cols row !! c); reflexivity.
Qed.

Lemma SelfInt_entry cfg (r c : bytes) (d : Z) :
  SelfInt int_bits Sscanf_d cfg r c d =
  match self_entry cfg r c with
  | None => d
  | Some col => match Sscanf_d col with Some v => v | None => to_int int_bits d end
  end.
Proof.
  unfold SelfInt, self_entry.
  destruct (rows cfg !! r) as [row|]; simpl; [|reflexivity].
  destruct (cols row !! c); reflexivity.
Qed.

Lemma Int64_entry cfg (t r c : bytes) (d : Z) :
  Int64 int_bits Sscanf_d cfg t r c d =
  match entry cfg t r c with
  | None => d
  | Some col =>
      to_int64 (match Sscanf_d col with Some v => v | None => to_int int_bits d end)
  end.
Proof.
  unfold Int64, entry, self_entry.
  destruct (tbls cfg !! t) as [tbl|]; simpl; [|reflexivity].
  destruct (rows tbl !! r) as [row|]; simpl; [|reflexivity].
  destruct (cols row !! c); reflexivity.
Qed.

Lemma SelfInt64_entry cfg (r c : bytes) (d : Z) :
  SelfInt64 int_bits Sscanf_d cfg r c d =
  match self_entry cfg r c with
  | None => d
  | Some col =>
      to_int64 (match Sscanf_d col with Some v => v | None => to_int int_bits d end)
  end.
Proof.
  unfold SelfInt64, self_entry.
  destruct (rows cfg !! r) as [row|]; simpl; [|reflexivity].
  destruct (cols row !! c); reflexivity.
Qed.


Lemma Int_default cfg t r c d :
  0 < int_bits -> is_int int_bits d -> unusable Sscanf_d (entry cfg t r c) ->
  Int int_bits Sscanf_d cfg t r c d = d.
Proof.
  intros Hb Hd H. rewrite Int_entry.
  destruct (entry cfg t r c) as [col|]; [|reflexivity].
  rewrite (H col eq_refl). now apply to_int_id.
Qed.

Lemma SelfInt_default cfg r c d :
  0 < int_bits -> is_int int_bits d -> unusable Sscanf_d (self_entry cfg r c) ->
  SelfInt int_bits Sscanf_d cfg r c d = d.
Proof.
  intros Hb Hd H. rewrite SelfInt_entry.
  destruct (self_entry cfg r c) as [col|]; [|reflexivity].
  rewrite (H col eq_refl). now apply to_int_id.
Qed.

(** [Int64] and [SelfInt64] keep the default in an [int]: where the text
    is one the scan rejects, what comes back is [int64(int(_def))]. *)
Lemma Int64_default cfg t r c d :
  int_bits = 32 \/ int_bits = 64 -> unusable Sscanf_d (entry cfg t r c) ->
  Int64 int_bits Sscanf_d cfg t r c d =
  match entry cfg t r c with None => d | Some _ => to_int int_bits d end.
Proof.
  intros Hb H. rewrite Int64_entry.
  destruct (entry cfg t r c) as [col|]; [|reflexivity].
  rewrite (H col eq_refl). now apply to_int64_to_int.
Qed.

Lemma SelfInt64_default cfg r c d :
  int_bits = 32 \/ int_bits = 64 -> unusable Sscanf_d (self_entry cfg r c) ->
  SelfInt64 int_bits Sscanf_d cfg r c d =
  match self_entry cfg r c with None => d | Some _ => to_int int_bits d end.
Proof.
  intros Hb H. rewrite SelfInt64_entry.
  destruct (self_entry cfg r c) as [col|]; [|reflexivity].
  rewrite (H col eq_refl). now apply to_int64_to_int.
Qed.

Lemma Float64_default cfg t r c d :
  unusable Sscanf_g (entry cfg t r c) -> Float64 float64 Sscanf_g cfg t r c d = d.
Proof.
  intros H. unfold Float64, entry in *.
  destruct (tbls cfg !! t) as [tbl|]; simpl in *; [|reflexivity].
  apply (self_lookup_default Sscanf_g (fun v => v) tbl r c d H eq_refl).
Qed.

Lemma SelfFloat64_default cfg r c d :
  unusable Sscanf_g (self_entry cfg r c) -> SelfFloat64 float64 Sscanf_g cfg r c d = d.
Proof.
  intros H. unfold SelfFloat64.
  apply (self_lookup_default Sscanf_g (fun v => v) cfg r c d H eq_refl).
Qed.

(** The nested variants reduce to the plain ones below the resolved
    parent, and to the self ones on the empty path: what relates the
    entry to the value returned for the self and the plain variant, and
    an absent entry to the default, relates them for the nested one. *)
Lemma nested_value {A} (Q : option bytes -> A -> Prop)
      (self : CfgBlock -> bytes -> bytes -> A -> A)
      (plain : CfgBlock -> bytes -> bytes -> bytes -> A -> A) cfg p r c (d : A) :
  (forall b, Q (self_entry b r c) (self b r c d)) ->
  (forall b t, Q (entry b t r c) (plain b t r c d)) ->
  Q None d ->
  Q (nested_entry cfg p r c)
    (let nn := length p in
     if (nn =? 0)%nat then self cfg r c d
     else let nn := (nn - 1)%nat in
          if (nn =? 0)%nat then plain cfg (nth 0 p []) r c d
          else match GetBlock cfg (take nn p) with
               | None => d
               | Some cfg1 => plain cfg1 (nth nn p []) r c d
               end).
Proof.
  intros Hself Hplain Hnone. cbv zeta.
  destruct p as [|a p'] eqn:Ep.
  { simpl. apply Hself. }
  rewrite <- Ep in *. assert (Hne : p <> []) by (subst; discriminate).
  destruct (Nat.eqb_spec (length p) 0) as [E0|_].
  { destruct p; [congruence | discriminate]. }
  rewrite (path_split p Hne) at 1. rewrite nested_entry_snoc.
  destruct (Nat.eqb_spec (length p - 1) 0) as [E1|E1].
  - rewrite E1. simpl. apply Hplain.
  - destruct (GetBlock cfg (take (length p - 1) p)) as [cfg1|]; simpl.
    + apply Hplain.
    + exact Hnone.
Qed.

(** C3, on the code: a typed numeric lookup returns the caller's default
    when the block, the row or the column is absent, whatever the type.
    When the stored text is one the scan rejects, [Int] and [Float64]
    (plain, self and nested) return the default, and [Int64] (plain, self
    and nested) returns [int64(int(_def))]: the default where it fits
    Go's [int], as every default does where [int] has 64 bits, and a
    value other than the default where it does not, as for a default
    beyond 32 bits on a target whose [int] has 32 bits. *)
Theorem numeric_lookup_default cfg (_tbls : list bytes) (_tbl _row _col : bytes)
        (d : Z) (d64 : Z) (df : float64) :
  int_bits = 32 \/ int_bits = 64 -> is_int int_bits d -> is_int64 d64 ->
  (unusable Sscanf_d (entry cfg _tbl _row _col) ->
     Int int_bits Sscanf_d cfg _tbl _row _col d = d) /\
  (unusable Sscanf_g (entry cfg _tbl _row _col) ->
     Float64 float64 Sscanf_g cfg _tbl _row _col df = df) /\
  (unusable Sscanf_d (self_entry cfg _row _col) ->
     SelfInt int_bits Sscanf_d cfg _row _col d = d) /\
  (unusable Sscanf_g (self_entry cfg _row _col) ->
     SelfFloat64 float64 Sscanf_g cfg _row _col df = df) /\
  (unusable Sscanf_d (nested_entry cfg _tbls _row _col) ->
     NestedInt int_bits Sscanf_d cfg _tbls _row _col d = d) /\
  (unusable Sscanf_g (nested_entry cfg _tbls _row _col) ->
     NestedFloat64 float64 Sscanf_g cfg _tbls _row _col df = df) /\
  (unusable Sscanf_d (entry cfg _tbl _row _col) ->
     Int64 int_bits Sscanf_d cfg _tbl _row _col d64 =
     match entry cfg _tbl _row _col with
     | None => d64
     | Some _ => to_int int_bits d64
     end) /\
  (unusable Sscanf_d (self_entry cfg _row _col) ->
     SelfInt64 int_bits Sscanf_d cfg _row _col d64 =
     match self_entry cfg _row _col with
     | None => d64
     | Some _ => to_int int_bits d64
     end) /\
  (unusable Sscanf_d (nested_entry cfg _tbls _row _col) ->
     NestedInt64 int_bits Sscanf_d cfg _tbls _row _col d64 =
     match nested_entry cfg _tbls _row _col with
     | None => d64
     | Some _ => to_int int_bits d64
     end) /\
  (to_int int_bits d64 = d64 <-> is_int int_bits d64) /\
  (int_bits = 64 -> is_int int_bits d64).
Proof.
  intros Hb Hd Hd64. pose proof (int_size_pos _ Hb) as Hpos.
  repeat apply conj.
  - now apply Int_default.
  - apply Float64_default.
  - now apply SelfInt_default.
  - apply SelfFloat64_default.
  - apply (nested_value (fun e v => unusable Sscanf_d e -> v = d)
             (SelfInt int_bits Sscanf_d) (Int int_bits Sscanf_d)).
    + intros b. now apply SelfInt_default.
    + intros b t. now apply Int_default.
    + reflexivity.
  - apply (nested_value (fun e v => unusable Sscanf_g e -> v = df)
             (SelfFloat64 float64 Sscanf_g) (Float64 float64 Sscanf_g)).
    + intros b. apply SelfFloat64_default.
    + intros b t. apply Float64_default.
    + reflexivity.
  - now apply Int64_default.
  - now apply SelfInt64_default.
  - apply (nested_value
             (fun e v => unusable Sscanf_d e ->
                v = match e with None => d64 | Some _ => to_int int_bits d64 end)
             (SelfInt64 int_bits Sscanf_d) (Int64 int_bits Sscanf_d)).
    + intros b. now apply SelfInt64_default.
    + intros b t. now apply Int64_default.
    + reflexivity.
  - now apply to_int_fits.
  - now apply to_int_fits.
  - intros ->. exact Hd64.
Qed.
End TypedFacts.

Example Int_sample_hit :
  Int 64 scan_decimal sample_tree (bs "thirdblock") (bs "some-row") (bs "numProcs") (-1) = 8.
Proof. vm_compute. reflexivity. Qed.

Lemma numeric_lookup_default_witness :
  Int 32 scan_decimal sample_tree (bs "thirdblock") (bs "some-row") (bs "user") (-1) = -1 /\
  Float64 Z scan_decimal sample_tree (bs "thirdblock") (bs "some-row") (bs "user") 42 = 42 /\
  NestedInt 32 scan_decimal sample_tree [bs "thirdblock"] (bs "some-row") (bs "user") (-1)
    = -1 /\
  Int64 32 scan_decimal sample_tree (bs "thirdblock") (bs "some-row") (bs "user")
        42000000000 = -949672960 /\
  Int64 32 scan_decimal sample_tree (bs "thirdblock") (bs "some-row") (bs "absent")
        42000000000 = 42000000000 /\
  Int64 64 scan_decimal sample_tree (bs "thirdblock") (bs "some-row") (bs "user")
        42000000000 = 42000000000.
Proof.
  assert (U : forall c, c = bs "user" \/ c = bs "absent" ->
            unusable scan_decimal
              (entry sample_tree (bs "thirdblock") (bs "some-row") c)).
  { intros c [-> | ->] s Hs; vm_compute in Hs; [|discriminate Hs].
    injection Hs as <-. vm_compute. reflexivity. }
  assert (N : unusable scan_decimal
                (nested_entry sample_tree [bs "thirdblock"] (bs "some-row") (bs "user"))).
  { intros s Hs. vm_compute in Hs. injection Hs as <-. vm_compute. reflexivity. }
  assert (Hi : is_int 32 (-1)) by (unfold is_int; lia).
  assert (Hj : is_int64 42000000000) by (unfold is_int64; lia).
  destruct (numeric_lookup_default 32 scan_decimal Z scan_decimal sample_tree
              [bs "thirdblock"] (bs "thirdblock") (bs "some-row") (bs "user")
              (-1) 42000000000 42 (or_introl eq_refl) Hi Hj)
    as (A & B & _ & _ & E & _ & G & _).
  destruct (numeric_lookup_default 32 scan_decimal Z scan_decimal sample_tree
              [bs "thirdblock"] (bs "thirdblock") (bs "some-row") (bs "absent")
              (-1) 42000000000 42 (or_introl eq_refl) Hi Hj)
    as (_ & _ & _ & _ & _ & _ & G' & _).
  destruct (numeric_lookup_default 64 scan_decimal Z scan_decimal sample_tree
              [bs "thirdblock"] (bs "thirdblock") (bs "some-row") (bs "user")
              (-1) 42000000000 42 (or_intror eq_refl) ltac:(unfold is_int; lia) Hj)
    as (_ & _ & _ & _ & _ & _ & G64 & _).
  split; [exact (A (U _ (or_introl eq_refl)))|].
  split; [exact (B (U _ (or_introl eq_refl)))|].
  split; [exact (E N)|].
  split; [exact (G (U _ (or_introl eq_refl)))|].
  split; [exact (G' (U _ (or_intror eq_refl)))|].
  exact (G64 (U _ (or_introl eq_refl))).
Defined.

(** ** Splitting and expanding lists *)

Lemma split_loop_length k s sep : (1 <= length (split_loop k s sep))%nat.
Proof.
  revert s. induction k as [|k IH]; intros s; simpl; [lia|].
  destruct (Index s sep <? 0); simpl; lia.
Qed.

Lemma Str_entry cfg t r c d : Str cfg t r c d = default d (entry cfg t r c).
Proof.
  unfold Str, entry, self_entry.
  destruct (tbls cfg !! t) as [tbl|]; simpl; [|reflexivity].
  destruct (rows tbl !! r) as [row|]; simpl; [|reflexivity].
  destruct (cols row !! c); reflexivity.
Qed.

Lemma Split_miss cfg t r c : entry cfg t r c = None -> Split cfg t r c [] = [[]].
Proof. intros H. unfold Split. rewrite Str_entry, H. reflexivity. Qed.

Lemma fold_insert_true_lookup (l : list bytes) (m : gmap bytes bool) k :
  is_Some (foldl (fun pm box => <[box := true]> pm) m l !! k) <->
  is_Some (m !! k) \/ k ∈ l.
Proof.
  revert m. induction l as [|x l IH]; intros m; simpl.
  - rewrite elem_of_nil. tauto.
  - rewrite IH, elem_of_cons. destruct (decide (x = k)) as [->|Hne].
    + rewrite lookup_insert_eq. split; [auto | intros _; left; eauto].
    + rewrite lookup_insert_ne by exact Hne. split; intros [?|?]; auto.
      destruct H as [->|?]; [congruence | auto].
Qed.

Lemma partsmap_lookup cfg b r c r2 k :
  is_Some (Expandlist_partsmap cfg b r c r2 !! k) <->
  exists boxtype, boxtype ∈ Split cfg b r c [] /\ k ∈ Split cfg b r2 boxtype [].
Proof.
  unfold Expandlist_partsmap.
  assert (G : forall l (m : gmap bytes bool),
    is_Some (foldl (fun pm boxtype =>
               foldl (fun pm box => <[box := true]> pm) pm (Split cfg b r2 boxtype []))
             m l !! k) <->
    is_Some (m !! k) \/ exists boxtype, boxtype ∈ l /\ k ∈ Split cfg b r2 boxtype []).
  { induction l as [|x l IH]; intros m; simpl.
    - split; [auto | intros [?|(? & H & _)]; [auto | inversion H]].
    - rewrite IH, fold_insert_true_lookup. split.
      + intros [[?|?]|(y & Hy & Hk)]; [auto | right; exists x | right; exists y];
          split; auto; constructor; auto.
      + intros [?|(y & Hy & Hk)]; [auto|].
        apply elem_of_cons in Hy as [->|Hy]; [auto | right; eauto]. }
  rewrite G, lookup_empty. split; [intros [[? H]|?]; [discriminate | auto] | auto].
Qed.

Lemma len_leb_0 s : s <> [] -> (len s <=? 0) = false.
Proof.
  intros H. apply Z.leb_gt. unfold len. destruct s; [congruence | simpl; lia].
Qed.

Lemma Expandlist_elem cfg b r c r2 k :
  b <> [] -> r <> [] -> c <> [] -> r2 <> [] ->
  k ∈ Expandlist cfg b r c r2 <->
  exists boxtype, boxtype ∈ Split cfg b r c [] /\ k ∈ Split cfg b r2 boxtype [].
Proof.
  intros Hb Hr Hc Hr2. unfold Expandlist.
  rewrite !len_leb_0 by assumption.
  rewrite <- partsmap_lookup, list_elem_of_fmap. split.
  - intros ([k' v] & -> & Hin). apply elem_of_map_to_list in Hin. simpl. eauto.
  - intros [v Hv]. exists (k, v). split; [reflexivity|]. now apply elem_of_map_to_list.
Qed.

(** C9, as amended: [Split] returns at least one element, and on a miss
    with the empty default the one-element list holding the empty string;
    so, when its four arguments are non-empty, [Expandlist] has the empty
    string in its result whenever a listed key is absent from the target
    row. With an empty argument [Expandlist] returns the empty list. *)
Theorem Split_Expandlist_empty_string cfg (b r c r2 : bytes) :
  (forall t r' c' d, (1 <= length (Split cfg t r' c' d))%nat) /\
  (forall t r' c', entry cfg t r' c' = None -> Split cfg t r' c' [] = [[]]) /\
  (b <> [] -> r <> [] -> c <> [] -> r2 <> [] ->
   forall k, k ∈ Split cfg b r c [] -> entry cfg b r2 k = None ->
             [] ∈ Expandlist cfg b r c r2) /\
  (b = [] \/ r = [] \/ c = [] \/ r2 = [] -> Expandlist cfg b r c r2 = []).
Proof.
  split; [|split; [|split]].
  - intros. apply split_loop_length.
  - intros. now apply Split_miss.
  - intros Hb Hr Hc Hr2 k Hk Hmiss.
    apply Expandlist_elem; try assumption.
    exists k. split; [exact Hk|]. rewrite (Split_miss _ _ _ _ Hmiss). constructor.
  - unfold Expandlist. change (len [] <=? 0) with true.
    intros [E|[E|[E|E]]]; subst; change (len [] <=? 0) with true; cbv iota;
      repeat (match goal with |- context [len ?s <=? 0] => destruct (len s <=? 0) end);
      reflexivity.
Qed.

Lemma Split_Expandlist_empty_string_witness :
  [] ∈ Expandlist sample_tree (bs "someblock") (bs "lmirror") (bs "plugins") (bs "lmirror").
Proof.
  apply (proj1 (proj2 (proj2 (Split_Expandlist_empty_string sample_tree
           (bs "someblock") (bs "lmirror") (bs "plugins") (bs "lmirror")))))
    with (k := bs "split"); try discriminate.
  - replace (Split sample_tree (bs "someblock") (bs "lmirror") (bs "plugins") [])
      with [bs "transpath"; bs "split"] by (vm_compute; reflexivity).
    right. left.
  - vm_compute. reflexivity.
Defined.

(** C9 as stated fails where an argument is empty: the key [x] is listed
    and absent from the target row, yet the result is the empty list. *)
Lemma Expandlist_empty_row2_counterexample :
  bs "x" ∈ Split tree_x (bs "b") (bs "r") (bs "c") [] /\
  entry tree_x (bs "b") [] (bs "x") = None /\
  [] ∉ Expandlist tree_x (bs "b") (bs "r") (bs "c") [].
Proof.
  split; [|split].
  - replace (Split tree_x (bs "b") (bs "r") (bs "c") []) with [bs "x"]
      by (vm_compute; reflexivity).
    left.
  - vm_compute. reflexivity.
  - replace (Expandlist tree_x (bs "b") (bs "r") (bs "c") []) with (@nil bytes)
      by (vm_compute; reflexivity).
    apply not_elem_of_nil.
Qed.

(** ** Rows *)

(** What [splitRow] does when both operators occur in the line. *)
Lemma splitRow_both _line :
  let nnNew := Index _line (bs "::") in
  let nnAdd := Index _line (bs "+=") in
  0 <= nnNew -> 0 < nnAdd ->
  splitRow _line =
    if nnAdd <? nnNew
    then Some (slice_to _line nnAdd, slice_from _line (nnAdd + 2), false)
    else Some (slice_to _line nnNew, slice_from _line (nnNew + 2), true).
Proof.
  intros nnNew nnAdd H1 H2. unfold splitRow. fold nnNew nnAdd.
  destruct (Z.leb_spec 0 nnNew); [|lia]. destruct (Z.ltb_spec 0 nnAdd); [|lia].
  reflexivity.
Qed.

(** C2, on the code: with no pending row name, the line is cut at the
    operator that occurs first, but the [add] flag is set the other way
    round. Where [+=] comes first the row named before it is created
    anew and the column [a] of the existing row is lost; where [::] comes
    first the columns are merged into the existing row. *)
Theorem loadRow_both_operators :
  loadRow block_with_r (bs "r += b=2; c=x::y") (bs "f") [] =
    (set_rows block_with_r
       {[ bs "r" := mkRow (bs "r") (cols_of [("b", "2"); ("c", "x::y")]) ]},
     bs "r") /\
  loadRow block_with_r (bs "r :: b=2; c=x+=y") (bs "f") [] =
    (set_rows block_with_r
       {[ bs "r" := mkRow (bs "r") (cols_of [("a", "1"); ("b", "2"); ("c", "x+=y")]) ]},
     bs "r") /\
  loadRow block_with_r (bs "r += b=2;") (bs "f") [] =
    (set_rows block_with_r
       {[ bs "r" := mkRow (bs "r") (cols_of [("a", "1"); ("b", "2")]) ]},
     bs "r").
Proof. repeat split; vm_compute; reflexivity. Qed.

(** ** Reading lines *)

Lemma ReadBytes_line (l rest : bytes) :
  NL ∉ l -> ReadBytes (l ++ NL :: rest) NL = (l ++ [NL], false, rest).
Proof.
  induction l as [|c l IH]; intros Hn; simpl.
  - reflexivity.
  - apply not_elem_of_cons in Hn as [Hc Hl].
    destruct (Ascii.eqb_spec c NL) as [->|_]; [congruence|].
    now rewrite (IH Hl).
Qed.

Lemma ReadBytes_eof (l : bytes) : NL ∉ l -> ReadBytes l NL = (l, true, []).
Proof.
  induction l as [|c l IH]; intros Hn; simpl.
  - reflexivity.
  - apply not_elem_of_cons in Hn as [Hc Hl].
    destruct (Ascii.eqb_spec c NL) as [->|_]; [congruence|].
    now rewrite (IH Hl).
Qed.

(** Every stream is a line followed by the rest, or a last line that no
    newline ends. *)
Lemma stream_cases (rdr : bytes) :
  (exists l rest, (NL ∉ l) /\ rdr = l ++ NL :: rest) \/ (NL ∉ rdr).
Proof.
  induction rdr as [|c rdr IH].
  - right. apply not_elem_of_nil.
  - destruct (decide (c = NL)) as [->|Hc].
    + left. exists [], rdr. split; [apply not_elem_of_nil | reflexivity].
    + destruct IH as [(l & rest & Hl & ->)|Hn].
      * left. exists (c :: l), rest. split; [|reflexivity].
        apply not_elem_of_cons. auto.
      * right. apply not_elem_of_cons. auto.
Qed.

Lemma len_app_NL (l : bytes) : (len (l ++ [NL]) <? 1) = false.
Proof. apply Z.ltb_ge. unfold len. rewrite length_app. simpl. lia. Qed.

Lemma len_ltb_1_nil (l : bytes) : (len l <? 1) = true -> l = [].
Proof.
  intros H. apply Z.ltb_lt in H. unfold len in H.
  destruct l; [reflexivity | simpl in H; lia].
Qed.

Lemma len_ltb_1_cons (l : bytes) : l <> [] -> (len l <? 1) = false.
Proof.
  intros H. apply Z.ltb_ge. unfold len. destruct l; [congruence | simpl; lia].
Qed.

(** ** The loops, one iteration at a time *)

Section LoaderFacts.
Variable fs : FS.

Lemma loadBlock_line fuel cfg (l rest f prev : bytes) :
  NL ∉ l ->
  loadBlock fs (S fuel) cfg (l ++ NL :: rest) f prev =
  iteration fs fuel cfg (cleanLine l) rest f prev
    (fun cfg rdr prev => loadBlock fs fuel cfg rdr f prev).
Proof.
  intros Hl. cbn [loadBlock]. rewrite (ReadBytes_line l rest Hl).
  rewrite len_app_NL, removelast_last.
  unfold iteration, classify.
  destruct (len (cleanLine l) <? 1); [reflexivity|].
  destruct (lineIsInclude (cleanLine l)); [reflexivity|].
  destruct (lineIsBlockEnd (cleanLine l)); [reflexivity|].
  destruct (lineIsBlockNew (cleanLine l)); [reflexivity|].
  destruct ((2 <? len (cleanLine l)) && has_prefix (bs "+=") (cleanLine l));
    [reflexivity|].
  destruct (has_prefix (bs "{") (cleanLine l)); reflexivity.
Qed.

Lemma loadBlock_eof fuel cfg (l f prev : bytes) :
  NL ∉ l -> l <> [] ->
  loadBlock fs (S fuel) cfg l f prev =
  iteration fs fuel cfg (cleanLine (removelast l)) [] f prev
    (fun cfg rdr prev => Ok (cfg, rdr)).
Proof.
  intros Hl Hne. cbn [loadBlock]. rewrite (ReadBytes_eof l Hl).
  rewrite (len_ltb_1_cons l Hne).
  unfold iteration, classify.
  destruct (len (cleanLine (removelast l)) <? 1); [reflexivity|].
  destruct (lineIsInclude _); [reflexivity|].
  destruct (lineIsBlockEnd _); [reflexivity|].
  destruct (lineIsBlockNew _); [reflexivity|].
  destruct ((2 <? len _) && has_prefix (bs "+=") _); [reflexivity|].
  destruct (has_prefix (bs "{") _); reflexivity.
Qed.

Lemma loadBlock_nil fuel cfg (f prev : bytes) :
  loadBlock fs (S fuel) cfg [] f prev = Ok (cfg, []).
Proof. reflexivity. Qed.

(** [loadCfgFile] is [loadBlock] that forgets what is left unread. *)
Lemma loadCfgFile_loadBlock fuel cfg (rdr f prev : bytes) :
  loadCfgFile fs fuel cfg rdr f prev =
  (r ← loadBlock fs fuel cfg rdr f prev; Ok r.1).
Proof.
  revert cfg rdr prev. induction fuel as [|fuel IH]; intros cfg rdr prev.
  { reflexivity. }
  cbn [loadCfgFile loadBlock].
  destruct (ReadBytes rdr NL) as [[buf err] rdr'].
  assert (N : forall c r p,
    (if err then Ok c else loadCfgFile fs fuel c r f p) =
    (x ← (if err then Ok (c, r) else loadBlock fs fuel c r f p); Ok x.1)).
  { intros c r p. destruct err; [reflexivity | apply IH]. }
  destruct (len buf <? 1); [apply N|].
  destruct (len (cleanLine (removelast buf)) <? 1); [apply N|].
  destruct (lineIsInclude _).
  { destruct (openInclude fs _) as [[f2 r2]| |]; try reflexivity. simpl.
    destruct (loadCfgFile fs fuel cfg r2 f2 []); try reflexivity. simpl. apply N. }
  destruct (lineIsBlockEnd _); [reflexivity|].
  destruct (lineIsBlockNew _).
  { destruct (loadBlock fs fuel (newBlock _ f) rdr' f []) as [[blk r2]| |];
      try reflexivity. simpl. apply N. }
  destruct ((2 <? len _) && has_prefix (bs "+=") _).
  { destruct (loadRow cfg _ f prev). apply N. }
  destruct (has_prefix (bs "{") _); [apply N|].
  destruct (loadRow cfg _ f []). apply N.
Qed.
End LoaderFacts.

(** ** Files that cannot be opened *)

Section OpenFailure.
Variable fs : FS.

Lemma lineIsInclude_len line : lineIsInclude line = true -> (len line <? 1) = false.
Proof.
  unfold lineIsInclude. intros H. apply andb_prop in H as [H _].
  apply Z.ltb_lt in H. apply Z.ltb_ge. lia.
Qed.

Lemma openInclude_missing line fn :
  getFilename (TrimSpace line) = Ok fn ->
  files fs !! expandUser fs fn = None ->
  openInclude fs line = Panic (bs "could not open file " ++ expandUser fs fn).
Proof. intros Hf Hm. unfold openInclude. rewrite Hf. simpl. now rewrite Hm. Qed.

Lemma include_line_read rdr buf err rest :
  ReadBytes rdr NL = (buf, err, rest) ->
  lineIsInclude (cleanLine (removelast buf)) = true ->
  (len buf <? 1) = false.
Proof.
  intros _ Hi. destruct buf; [discriminate Hi|]. now apply len_ltb_1_cons.
Qed.

End OpenFailure.

Example NewCfg_missing_include :
  NewCfg fs_missing_include 10 world0 (bs "app") (bs "/etc/app.cfg")
  = Panic (bs "could not open file /etc/missing.cfg").
Proof. vm_compute. reflexivity. Qed.

(** ** Facts about the byte helpers *)

Lemma len_cons (a : ascii) (s : bytes) : len (a :: s) = len s + 1.
Proof. unfold len. simpl length. lia. Qed.

Lemma len_app (s t : bytes) : len (s ++ t) = len s + len t.
Proof. unfold len. rewrite length_app. lia. Qed.

Lemma len_nonneg (s : bytes) : 0 <= len s.
Proof. unfold len. lia. Qed.

Lemma slice_to_app (s t : bytes) : slice_to (s ++ t) (len s) = s.
Proof. unfold slice_to, len. rewrite Nat2Z.id. apply take_app_length. Qed.

Lemma slice_from_app (s t : bytes) : slice_from (s ++ t) (len s) = t.
Proof. unfold slice_from, len. rewrite Nat2Z.id. apply drop_app_length. Qed.

Lemma Index_lower (s sep : bytes) : -1 <= Index s sep.
Proof.
  induction s as [|a s IH]; simpl.
  - destruct (has_prefix sep []); lia.
  - destruct (has_prefix sep (a :: s)); [lia|].
    destruct (Z.ltb_spec (Index s sep) 0); lia.
Qed.

Lemma Index_cons_miss (a : ascii) (s sep : bytes) :
  has_prefix sep (a :: s) = false ->
  Index (a :: s) sep = if Index s sep <? 0 then -1 else Index s sep + 1.
Proof. intros H. simpl Index. now rewrite H. Qed.

Lemma Index_byte_absent (c : ascii) (s : bytes) : c ∉ s -> Index s [c] = -1.
Proof.
  induction s as [|a s IH]; intros Hc; [reflexivity|].
  apply not_elem_of_cons in Hc as [Hca Hcs].
  rewrite Index_cons_miss.
  - now rewrite (IH Hcs).
  - simpl. destruct (Ascii.eqb_spec c a); [congruence | reflexivity].
Qed.

Lemma Index_byte_app (c : ascii) (p rest : bytes) :
  c ∉ p -> Index (p ++ c :: rest) [c] = len p.
Proof.
  induction p as [|a p IH]; intros Hc.
  - simpl. now rewrite Ascii.eqb_refl.
  - apply not_elem_of_cons in Hc as [Hca Hcp].
    change ((a :: p) ++ c :: rest) with (a :: (p ++ c :: rest)).
    rewrite Index_cons_miss.
    + rewrite (IH Hcp), len_cons. pose proof (len_nonneg p).
      destruct (Z.ltb_spec (len p) 0); [lia | reflexivity].
    + simpl. destruct (Ascii.eqb_spec c a); [congruence | reflexivity].
Qed.

(** A two-byte pattern absent from [r] stays absent up to a byte [sep]
    that is neither of its bytes. *)
Lemma Index2_cons_absent (p1 p2 a : ascii) (r : bytes) :
  Index (a :: r) [p1; p2] = -1 ->
  has_prefix [p1; p2] (a :: r) = false /\ Index r [p1; p2] = -1.
Proof.
  intros H. destruct (has_prefix [p1; p2] (a :: r)) eqn:E.
  { unfold Index in H. rewrite E in H. discriminate H. }
  split; [reflexivity|]. rewrite (Index_cons_miss _ _ _ E) in H.
  pose proof (Index_lower r [p1; p2]).
  destruct (Z.ltb_spec (Index r [p1; p2]) 0); lia.
Qed.

Lemma Index2_app (p1 p2 sep : ascii) (r x : bytes) :
  Index r [p1; p2] = -1 -> sep <> p1 -> sep <> p2 ->
  Index (r ++ sep :: x) [p1; p2] =
    if Index x [p1; p2] <? 0 then -1 else len r + 1 + Index x [p1; p2].
Proof.
  intros Hr H1 H2. induction r as [|a r IH].
  - simpl app. rewrite Index_cons_miss.
    + change (len []) with 0. destruct (Index x [p1; p2] <? 0); [reflexivity | lia].
    + simpl. destruct (Ascii.eqb_spec p1 sep); [congruence | reflexivity].
  - apply Index2_cons_absent in Hr as [Hp Hr].
    change ((a :: r) ++ sep :: x) with (a :: (r ++ sep :: x)).
    rewrite Index_cons_miss.
    + rewrite (IH Hr), len_cons. pose proof (len_nonneg r).
      pose proof (Index_lower x [p1; p2]).
      destruct (Z.ltb_spec (Index x [p1; p2]) 0).
      * reflexivity.
      * destruct (Z.ltb_spec (len r + 1 + Index x [p1; p2]) 0); lia.
    + simpl in Hp |- *. destruct (Ascii.eqb p1 a); [|reflexivity]. simpl in *.
      destruct r as [|b r']; simpl in *.
      * destruct (Ascii.eqb_spec p2 sep); [congruence | reflexivity].
      * exact Hp.
Qed.

(** Trimming. *)
Lemma TrimLeft_cons_in (c : ascii) (s cut : bytes) :
  in_cutset c cut = true -> TrimLeft (c :: s) cut = TrimLeft s cut.
Proof. intros H. simpl. now rewrite H. Qed.

Lemma TrimLeft_length (s cut : bytes) : (length (TrimLeft s cut) <= length s)%nat.
Proof.
  induction s as [|a s IH]; simpl; [lia|].
  destruct (in_cutset a cut); simpl; lia.
Qed.

Lemma TrimLeft_fixed_head (a : ascii) (s cut : bytes) :
  TrimLeft (a :: s) cut = a :: s -> in_cutset a cut = false.
Proof.
  simpl. destruct (in_cutset a cut); [|reflexivity].
  intros H. pose proof (TrimLeft_length s cut) as L. rewrite H in L. simpl in L. lia.
Qed.

Lemma TrimLeft_fixed_app (s x cut : bytes) :
  s <> [] -> TrimLeft s cut = s -> TrimLeft (s ++ x) cut = s ++ x.
Proof.
  destruct s as [|a s]; [congruence|]. intros _ H.
  apply TrimLeft_fixed_head in H. simpl. now rewrite H.
Qed.

Lemma TrimLeft_blank_app (ws s cut : bytes) :
  forallb (fun c => in_cutset c cut) ws = true ->
  TrimLeft (ws ++ s) cut = TrimLeft s cut.
Proof.
  induction ws as [|w ws IH]; [reflexivity|].
  intros H. cbn [forallb] in H. apply andb_prop in H as [Hw Hws].
  simpl app. rewrite (TrimLeft_cons_in w _ cut Hw). now apply IH.
Qed.

Lemma TrimRight_snoc_out (s : bytes) (c : ascii) (cut : bytes) :
  in_cutset c cut = false -> TrimRight (s ++ [c]) cut = s ++ [c].
Proof.
  intros H. induction s as [|a s IH]; simpl.
  - now rewrite H.
  - rewrite IH. destruct (s ++ [c]) eqn:E; [|reflexivity].
    destruct s; discriminate.
Qed.

Lemma TrimRight_snoc_in (s : bytes) (c : ascii) (cut : bytes) :
  in_cutset c cut = true -> TrimRight (s ++ [c]) cut = TrimRight s cut.
Proof.
  intros H. induction s as [|a s IH]; simpl.
  - now rewrite H.
  - now rewrite IH.
Qed.

Lemma TrimRight_length (s cut : bytes) : (length (TrimRight s cut) <= length s)%nat.
Proof.
  induction s as [|a s IH]; simpl; [lia|].
  destruct (TrimRight s cut); [destruct (in_cutset a cut)|]; simpl in *; lia.
Qed.

Lemma TrimRight_fixed_last (s : bytes) (c : ascii) (cut : bytes) :
  TrimRight (s ++ [c]) cut = s ++ [c] -> in_cutset c cut = false.
Proof.
  destruct (in_cutset c cut) eqn:E; [|reflexivity].
  rewrite (TrimRight_snoc_in s c cut E). intros H.
  pose proof (TrimRight_length s cut) as L. rewrite H, length_app in L.
  simpl in L. lia.
Qed.

Lemma TrimRight_app_out (p : bytes) (c : ascii) (x cut : bytes) :
  in_cutset c cut = false ->
  TrimRight (p ++ c :: x) cut = p ++ c :: TrimRight x cut.
Proof.
  intros H. induction p as [|a p IH]; simpl.
  - destruct (TrimRight x cut); [now rewrite H | reflexivity].
  - rewrite IH. destruct (p ++ c :: TrimRight x cut) eqn:E; [|reflexivity].
    destruct p; discriminate.
Qed.

Lemma TrimRight_fixed_app (x s cut : bytes) :
  s <> [] -> TrimRight s cut = s -> TrimRight (x ++ s) cut = x ++ s.
Proof.
  intros Hne H. destruct s as [|a s] using rev_ind; [congruence|]. clear IHs.
  pose proof (TrimRight_fixed_last s a cut H) as Ha.
  rewrite app_assoc. now apply TrimRight_snoc_out.
Qed.

(** ** Cleaning and splitting *)

Lemma blank_space : in_cutset " " blanks = true.
Proof. reflexivity. Qed.

Lemma blank_tab : in_cutset TAB blanks = true.
Proof. reflexivity. Qed.

Lemma cleanLine_no_hash (s : bytes) :
  "#"%char ∉ s -> cleanLine s = TrimRight (TrimLeft s blanks) blanks.
Proof.
  intros H. unfold cleanLine. change (bs "#") with ["#"%char].
  now rewrite (Index_byte_absent _ _ H).
Qed.

Lemma cleanLine_plain (s : bytes) : plain s -> cleanLine s = s.
Proof.
  intros (Hh & _ & Hl & Hr). rewrite (cleanLine_no_hash s Hh), Hl. exact Hr.
Qed.

Lemma plain_nil : plain [].
Proof. repeat split; apply not_elem_of_nil. Qed.

Lemma cleanLine_nil : cleanLine [] = [].
Proof. reflexivity. Qed.

Lemma split_loop_fuel (sep : bytes) (k : nat) :
  sep <> [] ->
  forall (s : bytes) (j : nat), (length s <= k)%nat -> (k <= j)%nat ->
    split_loop j s sep = split_loop k s sep.
Proof.
  intros Hsep. induction k as [|k IH]; intros s j Hs Hj.
  - destruct s; [|simpl in Hs; lia]. destruct j; [reflexivity|].
    simpl. destruct sep; [congruence | reflexivity].
  - destruct j as [|j]; [lia|]. simpl.
    destruct (Z.ltb_spec (Index s sep) 0); [reflexivity|].
    f_equal. apply IH; [|lia].
    unfold slice_from. rewrite length_drop.
    assert (0 < len sep) by (unfold len; destruct sep; [congruence | simpl; lia]).
    lia.
Qed.

Lemma bytes_Split_cons (c : ascii) (p rest : bytes) :
  c ∉ p -> bytes_Split (p ++ c :: rest) [c] = p :: bytes_Split rest [c].
Proof.
  intros Hc. unfold bytes_Split. rewrite length_app. simpl length.
  replace (length p + S (length rest))%nat with (S (length p + length rest)) by lia.
  simpl split_loop. rewrite (Index_byte_app c p rest Hc).
  pose proof (len_nonneg p). destruct (Z.ltb_spec (len p) 0); [lia|].
  rewrite slice_to_app. f_equal.
  change (len [c]) with 1.
  replace (slice_from (p ++ c :: rest) (len p + 1)) with rest.
  - apply split_loop_fuel; [discriminate | lia | lia].
  - unfold slice_from, len. replace (Z.to_nat (Z.of_nat (length p) + 1)) with
      (length (p ++ [c])) by (rewrite length_app; simpl; lia).
    rewrite (cons_middle c p rest), app_assoc. now rewrite drop_app_length.
Qed.

Lemma bytes_Split_nil (c : ascii) : bytes_Split [] [c] = [[]].
Proof. reflexivity. Qed.

(** [SplitN] with [n = 2]: one cut at the first separator, if any. *)
Lemma bytes_SplitN2_eq (s sep : bytes) :
  s <> [] ->
  bytes_SplitN s sep 2 =
    if Index s sep <? 0 then [s]
    else [slice_to s (Index s sep); slice_from s (Index s sep + len sep)].
Proof.
  intros Hs. unfold bytes_SplitN.
  change (2 =? 0) with false. change (2 <? 0) with false. cbv iota.
  change (Z.to_nat (2 - 1)) with 1%nat.
  replace (Nat.min 1 (length s)) with 1%nat
    by (destruct s; [congruence | simpl length; lia]).
  reflexivity.
Qed.

Lemma bytes_SplitN2_cut (c : ascii) (p rest : bytes) :
  c ∉ p -> bytes_SplitN (p ++ c :: rest) [c] 2 = [p; rest].
Proof.
  intros Hc. rewrite bytes_SplitN2_eq by (destruct p; discriminate).
  rewrite (Index_byte_app c p rest Hc).
  pose proof (len_nonneg p). destruct (Z.ltb_spec (len p) 0); [lia|].
  rewrite slice_to_app. f_equal. f_equal.
  change (len [c]) with 1.
  unfold slice_from, len. replace (Z.to_nat (Z.of_nat (length p) + 1)) with
    (length (p ++ [c])) by (rewrite length_app; simpl; lia).
  rewrite (cons_middle c p rest), app_assoc. now rewrite drop_app_length.
Qed.

Lemma bytes_SplitN2_head (sep : bytes) (a : ascii) (s : bytes) :
  exists p0 tl, bytes_SplitN (a :: s) sep 2 = p0 :: tl /\
    (tl = [] \/ p0 = [] \/ exists p0', p0 = a :: p0').
Proof.
  rewrite bytes_SplitN2_eq by discriminate.
  destruct (Index (a :: s) sep <? 0).
  - eexists _, _. split; [reflexivity | left; reflexivity].
  - eexists _, _. split; [reflexivity|]. right. unfold slice_to.
    destruct (Z.to_nat (Index (a :: s) sep)); simpl; eauto.
Qed.

(** ** Classifying lines *)

Lemma lower_byte_percent (c : ascii) : lower_byte c = "%"%char -> c = "%"%char.
Proof.
  destruct c as [[] [] [] [] [] [] [] []]; vm_compute; intros H;
    first [reflexivity | discriminate H].
Qed.

Lemma lineIsInclude_head (l : bytes) :
  lineIsInclude l = true -> head l = Some "%"%char.
Proof.
  unfold lineIsInclude. intros H. apply andb_prop in H as [_ H].
  apply bool_decide_eq_true in H. destruct l as [|c l]; [discriminate H|].
  unfold slice_to in H. simpl in H. now injection H as <- _.
Qed.

Lemma lineIsBlockNew_head (l : bytes) :
  lineIsBlockNew l = true -> head l = Some "%"%char.
Proof.
  unfold lineIsBlockNew. destruct l as [|c l]; [discriminate|].
  destruct (bytes_SplitN2_head (bs " ") c l) as (p0 & tl & -> & Hcase).
  destruct tl as [|p1 tl]; [discriminate|]. intros H.
  apply bool_decide_eq_true in H.
  destruct Hcase as [?|[->|[p0' ->]]]; [discriminate | discriminate H |].
  simpl in H. injection H as H _. symmetry in H.
  apply lower_byte_percent in H. now subst.
Qed.


Lemma classify_row (l : bytes) :
  l <> [] ->
  head l ∉ [Some "%"%char; Some "{"%char; Some "}"%char] ->
  has_prefix (bs "+=") l = false ->
  classify l = KRow.
Proof.
  intros Hne Hh Hp. unfold classify. rewrite (len_ltb_1_cons l Hne).
  destruct (lineIsInclude l) eqn:E1.
  { apply lineIsInclude_head in E1. rewrite E1 in Hh. exfalso. apply Hh. left. }
  destruct (lineIsBlockEnd l) eqn:E2.
  { destruct l as [|c l]; [discriminate|]. simpl in E2. apply Ascii.eqb_eq in E2.
    subst c. exfalso. apply Hh. simpl. right. right. left. }
  destruct (lineIsBlockNew l) eqn:E3.
  { apply lineIsBlockNew_head in E3. rewrite E3 in Hh. exfalso. apply Hh. left. }
  rewrite Hp, andb_false_r.
  destruct (has_prefix (bs "{") l) eqn:E4; [|reflexivity].
  destruct l as [|c l]; [discriminate|]. simpl in E4.
  apply andb_prop in E4 as [E4 _]. apply Ascii.eqb_eq in E4. subst c.
  exfalso. apply Hh. simpl. right. left.
Qed.

Lemma block_line_clean (b : bytes) :
  ok_block b -> cleanLine (block_line b) = block_line b.
Proof.
  intros (Hne & Hh & _ & Hl & Hr). unfold block_line.
  rewrite cleanLine_no_hash.
  - change (TrimLeft (bs "%block " ++ b) blanks) with (bs "%block " ++ b).
    apply (TrimRight_fixed_app _ b blanks Hne Hr).
  - apply not_elem_of_app. split; [|exact Hh].
    compute_done.
Qed.

Lemma block_line_split (b : bytes) :
  bytes_SplitN (block_line b) (bs " ") 2 = [bs "%block"; b].
Proof.
  unfold block_line. change (bs "%block " ++ b) with (bs "%block" ++ " "%char :: b).
  apply bytes_SplitN2_cut. compute_done.
Qed.

Lemma block_line_kind (b : bytes) :
  ok_block b -> classify (block_line b) = KNew /\ getBlockname (block_line b) = b.
Proof.
  intros Hb. split.
  - unfold classify.
    rewrite len_ltb_1_cons by discriminate.
    replace (lineIsInclude (block_line b)) with false.
    2:{ symmetry. unfold lineIsInclude. apply andb_false_iff. right.
        apply bool_decide_eq_false. unfold block_line, slice_to. simpl. discriminate. }
    change (lineIsBlockEnd (block_line b)) with false. cbv iota.
    unfold lineIsBlockNew. rewrite block_line_split. reflexivity.
  - unfold getBlockname. rewrite block_line_split.
    change (bytes_Equal (bs "%block") (ToLower (bs "%block"))) with true. cbv iota.
    apply cleanLine_plain, Hb.
Qed.

(** ** Parsing the columns of a row *)

Lemma blank_not_elem (c : ascii) (ws : bytes) :
  in_cutset c blanks = false ->
  forallb (fun x => in_cutset x blanks) ws = true -> c ∉ ws.
Proof.
  intros Hc. induction ws as [|w ws IH]; intros H.
  - apply not_elem_of_nil.
  - cbn [forallb] in H. apply andb_prop in H as [Hw Hws].
    apply not_elem_of_cons. split; [|auto].
    intros ->. congruence.
Qed.

Lemma cleanLine_blank_app (ws s : bytes) :
  forallb (fun x => in_cutset x blanks) ws = true -> plain s ->
  cleanLine (ws ++ s) = s.
Proof.
  intros Hws (Hh & _ & Hl & Hr). rewrite cleanLine_no_hash.
  - now rewrite (TrimLeft_blank_app ws s blanks Hws), Hl.
  - apply not_elem_of_app. split; [|exact Hh]. now apply blank_not_elem.
Qed.

Lemma parse_col_entry (row : cfgRow) (ws c v : bytes) :
  forallb (fun x => in_cutset x blanks) ws = true -> ok_col c -> ok_val v ->
  parse_col row (ws ++ c ++ "="%char :: v) =
    mkRow (row_name row) (<[c := v]> (cols row)).
Proof.
  intros Hws (Hne & Hp & _ & Heq) (Hv & _). unfold parse_col.
  change (bs "=") with ["="%char]. rewrite app_assoc.
  rewrite bytes_SplitN2_cut.
  - rewrite (cleanLine_blank_app ws c Hws Hp), (len_ltb_1_cons c Hne).
    now rewrite (cleanLine_plain v Hv).
  - apply not_elem_of_app. split; [|exact Heq]. now apply blank_not_elem.
Qed.

Lemma parse_col_nil (row : cfgRow) : parse_col row [] = row.
Proof. reflexivity. Qed.

Lemma parse_cols_pieces (l : ocols) (row : cfgRow) :
  ok_cols l ->
  parse_cols (((fun cv => " "%char :: cv.1 ++ "="%char :: cv.2) <$> l) ++ [[]]) row =
    mkRow (row_name row) (cols_from l (cols row)).
Proof.
  unfold parse_cols, cols_from. intros H. revert row.
  induction H as [|[c v] l [Hc Hv] _ IH]; intros row; simpl.
  - now destruct row.
  - pose proof (parse_col_entry row [" "%char] c v eq_refl Hc Hv) as E.
    simpl app in E. rewrite E. apply IH.
Qed.

Lemma cols_text_cons (cv : bytes * bytes) (l : ocols) :
  cols_text (cv :: l) =
    (" "%char :: cv.1 ++ "="%char :: cv.2) ++ ";"%char :: cols_text l.
Proof.
  unfold cols_text, col_text. simpl. f_equal.
  repeat (rewrite <- app_assoc; simpl). reflexivity.
Qed.

Lemma bytes_Split_cols_text (l : ocols) :
  ok_cols l ->
  bytes_Split (cols_text l) (bs ";") =
    ((fun cv => " "%char :: cv.1 ++ "="%char :: cv.2) <$> l) ++ [[]].
Proof.
  change (bs ";") with [";"%char].
  induction 1 as [|[c v] l [Hc Hv] _ IH]; [reflexivity|].
  rewrite cols_text_cons, bytes_Split_cons, IH; [reflexivity|]. simpl.
  destruct Hc as (_ & _ & Hc & _), Hv as (_ & Hv).
  apply not_elem_of_cons. split; [discriminate|].
  apply not_elem_of_app. split; [exact Hc|].
  apply not_elem_of_cons. split; [discriminate | exact Hv].
Qed.

Lemma TrimRight_cols_text (l : ocols) : TrimRight (cols_text l) blanks = cols_text l.
Proof.
  induction l as [|cv l IH]; [reflexivity|].
  rewrite cols_text_cons, TrimRight_app_out by reflexivity. now rewrite IH.
Qed.

Lemma hash_cols_text (l : ocols) : ok_cols l -> "#"%char ∉ cols_text l.
Proof.
  induction 1 as [|[c v] l [Hc Hv] _ IH]; [apply not_elem_of_nil|].
  rewrite cols_text_cons. simpl.
  destruct Hc as (_ & (Hc & _) & _), Hv as ((Hv & _) & _).
  apply not_elem_of_cons. split; [discriminate|].
  rewrite <- app_assoc. apply not_elem_of_app. split; [exact Hc|].
  apply not_elem_of_cons. split; [discriminate|].
  apply not_elem_of_app. split; [exact Hv|].
  apply not_elem_of_cons. split; [discriminate | exact IH].
Qed.

(** The data of a row, once cleaned and split, yields its columns. *)
Lemma parse_data (l : ocols) (row : cfgRow) :
  ok_cols l ->
  parse_cols (bytes_Split (cleanLine (cols_text l)) (bs ";")) row =
    mkRow (row_name row) (cols_from l (cols row)).
Proof.
  intros H. rewrite (cleanLine_no_hash _ (hash_cols_text l H)).
  destruct H as [|[c v] l [Hc Hv] H].
  { destruct row. reflexivity. }
  rewrite cols_text_cons. simpl app.
  rewrite (TrimLeft_cons_in " " _ blanks blank_space).
  destruct Hc as (Hne & Hp & Hsc & Heq).
  assert (Hl : TrimLeft c blanks = c) by apply Hp.
  rewrite <- app_assoc.
  rewrite (TrimLeft_fixed_app c _ blanks Hne Hl).
  replace (c ++ ("="%char :: v) ++ ";"%char :: cols_text l)
    with ((c ++ "="%char :: v) ++ ";"%char :: cols_text l)
    by (now rewrite <- app_assoc).
  rewrite TrimRight_app_out by reflexivity. rewrite TrimRight_cols_text.
  change (bs ";") with [";"%char]. rewrite bytes_Split_cons.
  - change [";"%char] with (bs ";"). rewrite (bytes_Split_cols_text l H).
    unfold parse_cols. simpl foldl.
    pose proof (parse_col_entry row [] c v eq_refl
                  (conj Hne (conj Hp (conj Hsc Heq))) Hv) as E.
    simpl app in E. rewrite E.
    apply (parse_cols_pieces l (mkRow (row_name row) (<[c := v]> (cols row))) H).
  - apply not_elem_of_app. split; [exact Hsc|].
    apply not_elem_of_cons. split; [discriminate | apply Hv].
Qed.

(** ** Loading a row line *)

Lemma blank_cases (sep : ascii) :
  in_cutset sep blanks = true -> sep = " "%char \/ sep = TAB.
Proof.
  unfold in_cutset, blanks. cbn [existsb]. rewrite orb_false_r.
  intros H. apply orb_prop in H as [H|H]; apply Ascii.eqb_eq in H; auto.
Qed.

Lemma Index_after_colons (d : bytes) :
  Index (bs "::" ++ d) (bs "+=") = -1 \/ 2 <= Index (bs "::" ++ d) (bs "+=").
Proof.
  change (bs "::" ++ d) with (":"%char :: ":"%char :: d).
  rewrite !Index_cons_miss by reflexivity.
  pose proof (Index_lower d (bs "+=")).
  destruct (Z.ltb_spec (Index d (bs "+=")) 0); [left; reflexivity|].
  destruct (Z.ltb_spec (Index d (bs "+=") + 1) 0); [lia | right; lia].
Qed.

Lemma Index_row_text (r : bytes) (sep : ascii) (d : bytes) :
  ok_row r -> in_cutset sep blanks = true ->
  Index (row_text r sep d) (bs "::") = len r + 1 /\
  (Index (row_text r sep d) (bs "+=") = -1 \/
   len r + 1 < Index (row_text r sep d) (bs "+=")).
Proof.
  intros (_ & _ & _ & Hc & Ha) Hs. unfold row_text.
  change (bs "::") with [":"%char; ":"%char] in Hc |- * at 2.
  change (bs "+=") with ["+"%char; "="%char] in Ha |- *.
  assert (sep <> ":"%char /\ sep <> "+"%char /\ sep <> "="%char) as (N1 & N2 & N3)
    by (destruct (blank_cases sep Hs) as [->| ->]; repeat split; discriminate).
  rewrite (Index2_app ":" ":" sep r _ Hc N1 N1).
  rewrite (Index2_app "+" "=" sep r _ Ha N2 N3).
  split.
  - change (Index (bs "::" ++ d) [":"%char; ":"%char]) with 0. simpl. lia.
  - destruct (Index_after_colons d) as [E|E];
      change (bs "+=") with ["+"%char; "="%char] in E.
    + left. now rewrite E.
    + right. destruct (Z.ltb_spec (Index (bs "::" ++ d) ["+"%char; "="%char]) 0); lia.
Qed.

Lemma splitRow_row_text (r : bytes) (sep : ascii) (d : bytes) :
  ok_row r -> in_cutset sep blanks = true ->
  exists add : bool,
    splitRow (row_text r sep d) = Some (r ++ [sep], d, add) /\
    (Index (row_text r sep d) (bs "+=") < 0 -> add = false).
Proof.
  intros Hr Hs. destruct (Index_row_text r sep d Hr Hs) as [En Ea].
  pose proof (len_nonneg r) as Hlen.
  assert (S1 : slice_to (row_text r sep d) (len r + 1) = r ++ [sep]).
  { unfold row_text. replace (len r + 1) with (len (r ++ [sep]))
      by (rewrite len_app; reflexivity).
    rewrite (cons_middle sep r), app_assoc. apply slice_to_app. }
  assert (S2 : slice_from (row_text r sep d) (len r + 1 + 2) = d).
  { unfold row_text. replace (len r + 1 + 2) with (len (r ++ sep :: bs "::"))
      by (rewrite len_app; unfold len; simpl; lia).
    replace (r ++ sep :: bs "::" ++ d) with ((r ++ sep :: bs "::") ++ d)
      by (now rewrite <- app_assoc).
    apply slice_from_app. }
  unfold splitRow. rewrite En.
  destruct (Z.leb_spec 0 (len r + 1)); [|lia]. simpl andb.
  destruct Ea as [Ea|Ea].
  - exists false. rewrite Ea. simpl. destruct (Z.ltb_spec 0 (len r + 1)); [|lia].
    rewrite S1, S2. split; [reflexivity | auto].
  - exists true. destruct (Z.ltb_spec 0 (Index (row_text r sep d) (bs "+="))); [|lia].
    destruct (Z.ltb_spec (Index (row_text r sep d) (bs "+=")) (len r + 1)); [lia|].
    rewrite S1, S2. split; [reflexivity | lia].
Qed.

Lemma row_text_clean (r : bytes) (sep : ascii) (l : ocols) :
  ok_row r -> in_cutset sep blanks = true -> ok_cols l ->
  cleanLine (row_text r sep (cols_text l)) = row_text r sep (cols_text l).
Proof.
  intros (Hne & (Hh & _ & Hl & _) & _) Hs Hc. unfold row_text.
  rewrite cleanLine_no_hash.
  - rewrite (TrimLeft_fixed_app r _ blanks Hne Hl).
    replace (r ++ sep :: bs "::" ++ cols_text l)
      with ((r ++ [sep; ":"%char]) ++ ":"%char :: cols_text l)
      by (now rewrite <- app_assoc).
    rewrite TrimRight_app_out by reflexivity. now rewrite TrimRight_cols_text.
  - apply not_elem_of_app. split; [exact Hh|].
    apply not_elem_of_cons. split.
    { destruct (blank_cases sep Hs) as [->| ->]; discriminate. }
    apply not_elem_of_app. split; [compute_done | now apply hash_cols_text].
Qed.

Lemma row_name_clean (r : bytes) (sep : ascii) :
  ok_row r -> in_cutset sep blanks = true -> cleanLine (r ++ [sep]) = r.
Proof.
  intros (Hne & (Hh & _ & Hl & Hr) & _) Hs. rewrite cleanLine_no_hash.
  - rewrite (TrimLeft_fixed_app r _ blanks Hne Hl).
    now rewrite (TrimRight_snoc_in r sep blanks Hs).
  - apply not_elem_of_app. split; [exact Hh|].
    apply not_elem_of_cons. split; [|apply not_elem_of_nil].
    destruct (blank_cases sep Hs) as [->| ->]; discriminate.
Qed.

(** A row line defines its row anew when the row is not there yet, and
    when the line holds no [+=]. *)
Lemma loadRow_row_text cfg (r : bytes) (sep : ascii) (l : ocols) (f : bytes) :
  ok_row r -> in_cutset sep blanks = true -> ok_cols l ->
  rows cfg !! r = None \/ Index (row_text r sep (cols_text l)) (bs "+=") < 0 ->
  loadRow cfg (row_text r sep (cols_text l)) f [] =
    (set_rows cfg (<[r := mkRow r (cols_from l ∅)]> (rows cfg)), r).
Proof.
  intros Hr Hs Hc Hcase. unfold loadRow.
  rewrite (row_text_clean r sep l Hr Hs Hc).
  change (len [] <? 1) with true. cbv iota.
  destruct (splitRow_row_text r sep (cols_text l) Hr Hs) as (add & -> & Hadd).
  rewrite (row_name_clean r sep Hr Hs).
  assert (E : match rows cfg !! r with
              | Some row => if add then row else mkRow r ∅
              | None => mkRow r ∅
              end = mkRow r ∅).
  { destruct Hcase as [->|Hi]; [reflexivity|]. rewrite (Hadd Hi).
    now destruct (rows cfg !! r). }
  rewrite E, (parse_data l _ Hc). reflexivity.
Qed.

(** A row line whose data hold a [+=] is cut at its [::] with the [add]
    flag set: its columns go into the row of that name that is there. *)
Lemma splitRow_row_text_add (r : bytes) (sep : ascii) (d : bytes) :
  ok_row r -> in_cutset sep blanks = true ->
  0 <= Index (row_text r sep d) (bs "+=") ->
  splitRow (row_text r sep d) = Some (r ++ [sep], d, true).
Proof.
  intros Hr Hs Hi. destruct (splitRow_row_text r sep d Hr Hs) as (add & E & _).
  rewrite E. destruct add; [reflexivity|]. exfalso.
  destruct (Index_row_text r sep d Hr Hs) as [En [Ea|Ea]]; [lia|].
  pose proof (len_nonneg r) as Hlen. unfold splitRow in E. rewrite En in E.
  destruct (Z.leb_spec 0 (len r + 1)); [|lia]. simpl andb in E.
  destruct (Z.ltb_spec 0 (Index (row_text r sep d) (bs "+="))); [|lia].
  destruct (Z.ltb_spec (Index (row_text r sep d) (bs "+=")) (len r + 1)); [lia|].
  discriminate E.
Qed.

Lemma loadRow_row_text_add cfg (r : bytes) (sep : ascii) (l : ocols) (f : bytes) old :
  ok_row r -> in_cutset sep blanks = true -> ok_cols l ->
  0 <= Index (row_text r sep (cols_text l)) (bs "+=") ->
  rows cfg !! r = Some old ->
  loadRow cfg (row_text r sep (cols_text l)) f [] =
    (set_rows cfg (<[r := mkRow (row_name old) (cols_from l (cols old))]> (rows cfg)), r).
Proof.
  intros Hr Hs Hc Hi Hold. unfold loadRow.
  rewrite (row_text_clean r sep l Hr Hs Hc).
  change (len [] <? 1) with true. cbv iota.
  rewrite (splitRow_row_text_add r sep (cols_text l) Hr Hs Hi).
  rewrite (row_name_clean r sep Hr Hs), Hold.
  now rewrite (parse_data l _ Hc).
Qed.

(** A continuation merges its columns into the pending row. *)
Lemma loadRow_continuation cfg (l : ocols) (f prev : bytes) :
  prev <> [] -> ok_cols l ->
  loadRow cfg (cols_text l) f prev =
    (let row := default (mkRow prev ∅) (rows cfg !! prev) in
     set_rows cfg (<[prev := mkRow (row_name row) (cols_from l (cols row))]> (rows cfg)),
     prev).
Proof.
  intros Hp Hc. unfold loadRow. rewrite (len_ltb_1_cons prev Hp).
  assert (E : match rows cfg !! prev with
              | Some row => if true then row else mkRow prev ∅
              | None => mkRow prev ∅
              end = default (mkRow prev ∅) (rows cfg !! prev))
    by (now destruct (rows cfg !! prev)).
  rewrite E, (parse_data l _ Hc). reflexivity.
Qed.

(** ** Loading what [CfgWrite] wrote *)

Lemma written_cols_cons (cv : bytes * bytes) (l : ocols) :
  " "%char :: concat (write_col <$> cv :: l) =
  (" "%char :: cv.1 ++ "="%char :: cv.2) ++
  ";"%char :: " "%char :: concat (write_col <$> l).
Proof.
  rewrite fmap_cons. simpl concat. unfold write_col at 1.
  change (bs "=") with ["="%char]. change (bs "; ") with [";"%char; " "%char].
  simpl. f_equal. repeat (rewrite <- app_assoc; simpl). reflexivity.
Qed.

Lemma TrimRight_written_cols (l : ocols) :
  TrimRight (" "%char :: concat (write_col <$> l)) blanks = cols_text l.
Proof.
  induction l as [|cv l IH]; [reflexivity|].
  rewrite written_cols_cons, cols_text_cons, <- IH.
  now rewrite TrimRight_app_out by reflexivity.
Qed.

Lemma written_cols_free (c : ascii) (l : ocols) :
  c <> "="%char -> c <> ";"%char -> c <> " "%char ->
  Forall (fun cv => (c ∉ cv.1) /\ (c ∉ cv.2)) l ->
  c ∉ concat (write_col <$> l).
Proof.
  intros N1 N2 N3. induction 1 as [|cv l [H1 H2] _ IH]; [apply not_elem_of_nil|].
  simpl. unfold write_col at 1.
  rewrite !not_elem_of_app. repeat split; auto.
  - change (bs "=") with ["="%char]. apply not_elem_of_cons. split; [auto|].
    apply not_elem_of_nil.
  - change (bs "; ") with [";"%char; " "%char]. rewrite !not_elem_of_cons.
    repeat split; auto. apply not_elem_of_nil.
Qed.

Lemma write_row_raw (ro : bytes * ocols) : write_row ro = row_raw ro ++ [NL].
Proof.
  unfold write_row, row_raw. simpl. f_equal.
  repeat (rewrite <- app_assoc; simpl). reflexivity.
Qed.

Lemma row_raw_free (c : ascii) (ro : bytes * ocols) :
  c <> "="%char -> c <> ";"%char -> c <> " "%char -> c <> TAB -> c <> ":"%char ->
  c ∉ ro.1 -> Forall (fun cv => (c ∉ cv.1) /\ (c ∉ cv.2)) ro.2 ->
  c ∉ row_raw ro.
Proof.
  intros N1 N2 N3 N4 N5 Hr Hc. unfold row_raw.
  apply not_elem_of_cons. split; [auto|].
  apply not_elem_of_app. split; [exact Hr|].
  apply not_elem_of_cons. split; [auto|].
  apply not_elem_of_app. split; [|now apply written_cols_free].
  change (bs ":: ") with [":"%char; ":"%char; " "%char].
  rewrite !not_elem_of_cons. repeat split; auto. apply not_elem_of_nil.
Qed.

Lemma ok_cols_free_hash (l : ocols) :
  ok_cols l -> Forall (fun cv => ("#"%char ∉ cv.1) /\ ("#"%char ∉ cv.2)) l.
Proof.
  intros H. eapply Forall_impl; [exact H|].
  intros cv ((_ & (H1 & _) & _) & ((H2 & _) & _)). auto.
Qed.

Lemma ok_cols_free_NL (l : ocols) :
  ok_cols l -> Forall (fun cv => (NL ∉ cv.1) /\ (NL ∉ cv.2)) l.
Proof.
  intros H. eapply Forall_impl; [exact H|].
  intros cv ((_ & (_ & H1 & _) & _) & ((_ & H2 & _) & _)). auto.
Qed.

Lemma row_raw_NL (ro : bytes * ocols) :
  ok_row ro.1 -> ok_cols ro.2 -> NL ∉ row_raw ro.
Proof.
  intros (_ & (_ & Hn & _) & _) Hc.
  apply row_raw_free; try discriminate; [exact Hn | now apply ok_cols_free_NL].
Qed.

Lemma row_raw_clean (ro : bytes * ocols) :
  ok_row ro.1 -> ok_cols ro.2 ->
  cleanLine (row_raw ro) = row_text ro.1 TAB (cols_text ro.2).
Proof.
  intros Hr Hc. pose proof Hr as (Hne & (Hh & _ & Hl & _) & _).
  rewrite cleanLine_no_hash.
  - unfold row_raw, row_text.
    rewrite (TrimLeft_cons_in TAB _ blanks blank_tab).
    rewrite (TrimLeft_fixed_app ro.1 _ blanks Hne Hl).
    replace (ro.1 ++ TAB :: bs ":: " ++ concat (write_col <$> ro.2))
      with ((ro.1 ++ [TAB; ":"%char]) ++
            ":"%char :: " "%char :: concat (write_col <$> ro.2))
      by (now rewrite <- app_assoc).
    rewrite TrimRight_app_out by reflexivity.
    rewrite TrimRight_written_cols. now rewrite <- app_assoc.
  - apply row_raw_free; try discriminate; [exact Hh | now apply ok_cols_free_hash].
Qed.

Lemma row_text_not_add (r : bytes) (sep : ascii) (d : bytes) :
  ok_row r -> in_cutset sep blanks = true ->
  has_prefix (bs "+=") (row_text r sep d) = false.
Proof.
  intros (Hne & _ & _ & _ & Ha) Hs. unfold row_text.
  change (bs "+=") with ["+"%char; "="%char] in *.
  destruct r as [|a r]; [congruence|].
  apply Index2_cons_absent in Ha as [Hp _].
  simpl in Hp |- *. destruct (Ascii.eqb "+" a); [|reflexivity]. simpl in *.
  destruct r as [|b r]; simpl in *; [|exact Hp].
  destruct (blank_cases sep Hs) as [->| ->]; reflexivity.
Qed.

Lemma row_text_kind (r : bytes) (sep : ascii) (d : bytes) :
  ok_row r -> in_cutset sep blanks = true -> classify (row_text r sep d) = KRow.
Proof.
  intros Hr Hs. pose proof Hr as (Hne & _ & Hh & _). apply classify_row.
  - unfold row_text. destruct r; [congruence | discriminate].
  - unfold row_text. destruct r; [congruence | exact Hh].
  - now apply row_text_not_add.
Qed.

Lemma set_rows_set_rows cfg m1 m2 : set_rows (set_rows cfg m1) m2 = set_rows cfg m2.
Proof. reflexivity. Qed.

Lemma rows_set_rows cfg m : rows (set_rows cfg m) = m.
Proof. reflexivity. Qed.

Lemma set_rows_id cfg : set_rows cfg (rows cfg) = cfg.
Proof. now destruct cfg. Qed.

Section LoadWritten.
Variable fs : FS.

Lemma loadBlock_rows (l : orows) :
  forall fuel cfg (rest f prev : bytes),
  Forall (fun ro => ok_row ro.1 /\ ok_cols ro.2) l -> NoDup l.*1 ->
  (forall r, r ∈ l.*1 -> rows cfg !! r = None) ->
  exists prev',
    loadBlock fs (length l + fuel) cfg (concat (write_row <$> l) ++ rest) f prev =
    loadBlock fs fuel (set_rows cfg (rows_from l (rows cfg))) rest f prev'.
Proof.
  induction l as [|ro l IH]; intros fuel cfg rest f prev Hok Hnd Hfresh.
  { exists prev. simpl. now rewrite set_rows_id. }
  apply Forall_cons in Hok as [[Hr Hc] Hok].
  rewrite fmap_cons in Hnd. apply NoDup_cons in Hnd as [Hnotin Hnd].
  rewrite (fmap_cons write_row). cbn [concat length].
  rewrite write_row_raw, <- !app_assoc. cbn [app].
  change (S (length l) + fuel)%nat with (S (length l + fuel)).
  rewrite (loadBlock_line fs _ cfg _ _ f prev (row_raw_NL ro Hr Hc)).
  rewrite (row_raw_clean ro Hr Hc). unfold iteration.
  rewrite (row_text_kind ro.1 TAB _ Hr blank_tab).
  rewrite (loadRow_row_text cfg ro.1 TAB ro.2 f Hr blank_tab Hc).
  2:{ left. apply Hfresh. rewrite fmap_cons. left. }
  destruct (IH fuel (set_rows cfg (<[ro.1 := mkRow ro.1 (cols_from ro.2 ∅)]> (rows cfg)))
              rest f ro.1 Hok Hnd) as [prev' E].
  { intros r Hin. rewrite rows_set_rows, lookup_insert_ne.
    - apply Hfresh. rewrite fmap_cons. now right.
    - intros Er. apply Hnotin. rewrite Er. exact Hin. }
  exists prev'. rewrite E. reflexivity.
Qed.

Lemma loadBlock_body (b : bytes) (l : orows) (k : nat) (rest f : bytes) :
  ok_rows l ->
  loadBlock fs (length l + 3 + k) (newBlock b f)
    ("{"%char :: NL :: concat (write_row <$> l) ++ [NL; "}"%char; NL] ++ rest) f [] =
  Ok (mkBlock b f (rows_from l ∅) ∅, rest).
Proof.
  intros [Hok Hnd].
  replace (length l + 3 + k)%nat with (S (length l + (2 + k))) by lia.
  change ("{"%char :: NL :: ?x) with (["{"%char] ++ NL :: x).
  rewrite loadBlock_line by compute_done.
  unfold iteration at 1.
  replace (classify (cleanLine ["{"%char])) with KBrace by reflexivity.
  destruct (loadBlock_rows l (2 + k) (newBlock b f) ([NL; "}"%char; NL] ++ rest) f []
              Hok Hnd) as [prev' E].
  { intros r _. apply lookup_empty. }
  rewrite E. simpl plus.
  change ([NL; "}"%char; NL] ++ rest) with ([] ++ NL :: ["}"%char] ++ NL :: rest).
  rewrite loadBlock_line by apply not_elem_of_nil.
  unfold iteration at 1. replace (classify (cleanLine [])) with KSkip by reflexivity.
  rewrite loadBlock_line by compute_done.
  unfold iteration. replace (classify (cleanLine ["}"%char])) with KEnd by reflexivity.
  reflexivity.
Qed.
End LoadWritten.

Lemma set_tbls_id cfg : set_tbls cfg (tbls cfg) = cfg.
Proof. now destruct cfg. Qed.

Lemma set_tbls_set_tbls cfg m1 m2 : set_tbls (set_tbls cfg m1) m2 = set_tbls cfg m2.
Proof. reflexivity. Qed.

Lemma write_tbl_lines (ob : bytes * orows) (rest : bytes) :
  write_tbl ob ++ rest =
  [] ++ NL :: block_line ob.1 ++ NL ::
    ("{"%char :: NL :: concat (write_row <$> ob.2) ++ [NL; "}"%char; NL] ++ rest).
Proof.
  unfold write_tbl, block_line. simpl. f_equal.
  repeat (rewrite <- app_assoc; simpl). reflexivity.
Qed.

Lemma block_line_NL (b : bytes) : ok_block b -> NL ∉ block_line b.
Proof.
  intros (_ & _ & Hn & _). unfold block_line.
  apply not_elem_of_app. split; [compute_done | exact Hn].
Qed.

Section LoadWrittenTbls.
Variable fs : FS.

Lemma loadBlock_tbls (l : otbls) :
  forall (F : nat) root (f prev : bytes),
  ok_tbls l -> (fuel_for l <= F)%nat ->
  loadBlock fs F root (write_tbls l) f prev =
    Ok (set_tbls root (tbls_from l f (tbls root)), []).
Proof.
  induction l as [|ob l IH]; intros F root f prev Hok HF.
  { destruct F as [|F]; [unfold fuel_for in HF; simpl in HF; lia|].
    simpl. now rewrite set_tbls_id. }
  apply Forall_cons in Hok as [[Hb Hrows] Hok].
  unfold fuel_for in HF. cbn [foldr] in HF.
  destruct F as [|[|F]]; [lia | lia |].
  unfold write_tbls. rewrite fmap_cons. cbn [concat]. fold (write_tbls l).
  rewrite write_tbl_lines.
  rewrite loadBlock_line by apply not_elem_of_nil.
  unfold iteration at 1. replace (classify (cleanLine [])) with KSkip by reflexivity.
  rewrite (loadBlock_line fs F root _ _ f prev (block_line_NL _ Hb)).
  rewrite (block_line_clean _ Hb). unfold iteration.
  destruct (block_line_kind _ Hb) as [-> ->].
  replace F with (length ob.2 + 3 + (F - (length ob.2 + 3)))%nat at 1 by lia.
  rewrite (loadBlock_body fs ob.1 ob.2 _ (write_tbls l) f Hrows).
  cbn [mbind result_bind].
  rewrite (IH F _ f prev Hok) by (unfold fuel_for; lia).
  rewrite set_tbls_set_tbls. reflexivity.
Qed.
End LoadWrittenTbls.

Lemma fuel_for_length (l : otbls) : (fuel_for l <= S (length (write_tbls l)))%nat.
Proof.
  unfold fuel_for. apply le_n_S.
  induction l as [|ob l IH]; [simpl; lia|].
  unfold write_tbls in *. rewrite fmap_cons. cbn [concat foldr].
  rewrite length_app.
  assert (length ob.2 + 5 <= length (write_tbl ob))%nat; [|lia].
  unfold write_tbl. repeat first [rewrite length_app | progress cbn [length]].
  assert (length ob.2 <= length (concat (write_row <$> ob.2)))%nat; [|lia].
  clear. induction ob.2 as [|ro rs IHr]; [simpl; lia|].
  rewrite fmap_cons. cbn [concat length]. rewrite length_app.
  assert (1 <= length (write_row ro))%nat; [|lia].
  unfold write_row. rewrite length_app. simpl. lia.
Qed.

(** ** From insertion loops to maps *)

Lemma foldl_insert_NoDup {V} (l : list (bytes * V)) (m : gmap bytes V) :
  NoDup l.*1 ->
  foldl (fun m kv => <[kv.1 := kv.2]> m) m l = list_to_map l ∪ m.
Proof.
  revert m. induction l as [|[k v] l IH]; intros m Hnd.
  - simpl. now rewrite (left_id_L ∅ (∪)).
  - rewrite fmap_cons in Hnd. apply NoDup_cons in Hnd as [Hk Hnd].
    simpl. rewrite (IH _ Hnd).
    rewrite <- insert_union_r by (now apply not_elem_of_list_to_map_1).
    now rewrite insert_union_l.
Qed.

Lemma ranges_NoDup {V} (m : gmap bytes V) (l : list (bytes * V)) :
  ranges m l -> NoDup l.*1.
Proof.
  intros H. unfold ranges in H. rewrite H. apply NoDup_fst_map_to_list.
Qed.

Lemma ranges_list_to_map {V} (m : gmap bytes V) (l : list (bytes * V)) :
  ranges m l -> list_to_map l = m.
Proof.
  intros H. rewrite <- (list_to_map_to_list m).
  apply list_to_map_proper; [now apply (ranges_NoDup m) | exact H].
Qed.

Lemma cols_from_ranges (m : gmap bytes bytes) (l : ocols) :
  ranges m l -> cols_from l ∅ = m.
Proof.
  intros H. unfold cols_from.
  rewrite (foldl_insert_NoDup l ∅ (ranges_NoDup m l H)).
  rewrite (right_id_L ∅ (∪)). now apply ranges_list_to_map.
Qed.

Lemma built_map_content {X Y Z W} (build : bytes * X -> Z) (proj : Z -> W)
      (proj' : Y -> W) (m : gmap bytes Y) (lr : list (bytes * Y))
      (l : list (bytes * X)) :
  ranges m lr ->
  Forall2 (fun kr ko => kr.1 = ko.1 /\ proj (build ko) = proj' kr.2) lr l ->
  proj <$> foldl (fun acc ko => <[ko.1 := build ko]> acc) ∅ l = proj' <$> m.
Proof.
  intros Hr HF.
  assert (E : prod_map id proj <$> ((fun ko => (ko.1, build ko)) <$> l) =
              prod_map id proj' <$> lr).
  { clear Hr. induction HF as [|[k y] [k' x] lr l [Hk Hp] _ IH]; [reflexivity|].
    rewrite !fmap_cons, IH. simpl in *. unfold prod_map. simpl. now rewrite Hk, Hp. }
  assert (K : ((fun ko => (ko.1, build ko)) <$> l).*1 = lr.*1).
  { clear E Hr. induction HF as [|[k y] [k' x] lr l [Hk Hp] _ IH]; [reflexivity|].
    rewrite !fmap_cons, IH. simpl in *. now rewrite Hk. }
  transitivity (proj <$> foldl (fun (acc : gmap bytes Z) kv => <[kv.1 := kv.2]> acc) ∅
                          ((fun ko => (ko.1, build ko)) <$> l)).
  { now rewrite foldl_fmap. }
  rewrite foldl_insert_NoDup by (rewrite K; now apply (ranges_NoDup m)).
  rewrite (right_id_L ∅ (∪)), <- list_to_map_fmap, E, list_to_map_fmap.
  now rewrite (ranges_list_to_map m lr Hr).
Qed.

Lemma visits_rows_content (m : gmap bytes cfgRow) (l : orows) :
  visits_rows m l -> cols <$> rows_from l ∅ = cols <$> m.
Proof.
  intros (lr & Hr & HF). unfold rows_from.
  apply (built_map_content (fun ro => mkRow ro.1 (cols_from ro.2 ∅)) cols cols m lr l Hr).
  eapply Forall2_impl; [exact HF|]. intros kr ko [Hk Hc]. split; [exact Hk|].
  simpl. now apply cols_from_ranges.
Qed.

Lemma visits_tbls_content (m : gmap bytes CfgBlock) (l : otbls) (f : bytes) :
  visits_tbls m l -> block_content <$> tbls_from l f ∅ = block_content <$> m.
Proof.
  intros (lb & Hr & HF). unfold tbls_from.
  apply (built_map_content (fun ob => mkBlock ob.1 f (rows_from ob.2 ∅) ∅)
           block_content block_content m lb l Hr).
  eapply Forall2_impl; [exact HF|]. intros kb ko [Hk Hv]. split; [exact Hk|].
  unfold block_content. simpl. now apply visits_rows_content.
Qed.

Lemma content_same cfg cfg' : content cfg = content cfg' -> same_content cfg cfg'.
Proof.
  unfold content. intros H. split.
  - rewrite <- (dom_fmap_L block_content (tbls cfg)), H. apply dom_fmap_L.
  - intros b B B' HB HB'.
    assert (E : block_content B = block_content B').
    { apply (f_equal (fun m => m !! b)) in H. rewrite !lookup_fmap, HB, HB' in H.
      now injection H. }
    unfold block_content in E. split.
    + rewrite <- (dom_fmap_L cols (rows B)), E. apply dom_fmap_L.
    + intros r R R' HR HR'.
      apply (f_equal (fun m => m !! r)) in E. rewrite !lookup_fmap, HR, HR' in E.
      now injection E.
Qed.

(** The written form of a clean tree is made of names and values the
    format can hold. *)
Lemma ranges_elem {V} (m : gmap bytes V) (l : list (bytes * V)) k v :
  ranges m l -> (k, v) ∈ l -> m !! k = Some v.
Proof. unfold ranges. intros H Hin. rewrite H in Hin. now apply elem_of_map_to_list. Qed.

Lemma visits_ok_tbls cfg (l : otbls) :
  clean_tree cfg -> visits_tbls (tbls cfg) l -> ok_tbls l.
Proof.
  intros Hc (lb & Hr & HF). unfold ok_tbls.
  apply (Forall2_Forall_r _ _ lb l HF). apply Forall_forall. intros [b B] Hin.
  intros [b' orows] [Hk (lr & Hrr & HFr)]. simpl in *. subst b'.
  destruct (Hc b B (ranges_elem _ _ _ _ Hr Hin)) as [Hb Hrows].
  split; [exact Hb|]. split.
  - apply (Forall2_Forall_r _ _ lr orows HFr). apply Forall_forall. intros [r R] Hinr.
    intros [r' oc] [Hk Hcr]. simpl in *. subst r'.
    destruct (Hrows r R (ranges_elem _ _ _ _ Hrr Hinr)) as [Hrow Hcols].
    split; [exact Hrow|]. apply Forall_forall. intros [c v] Hinc. simpl.
    apply (Hcols c v). now apply (ranges_elem _ _ _ _ Hcr).
  - replace orows.*1 with lr.*1; [now apply (ranges_NoDup (rows B))|].
    clear -HFr. induction HFr as [|[? ?] [? ?] ? ? [Hk _] _ IH]; [reflexivity|].
    rewrite !fmap_cons, IH. simpl in *. now rewrite Hk.
Qed.

(** ** Trees built by edits *)

Lemma newBlock_clean n f : clean_tree (newBlock n f).
Proof. intros b B H. simpl in H. rewrite lookup_empty in H. discriminate. Qed.

Lemma EditEntry_clean cfg (t r c v : bytes) :
  clean_tree cfg -> ok_block t -> ok_row r -> ok_col c -> ok_val v ->
  clean_tree (EditEntry cfg t r c v).
Proof.
  intros Hc Ht Hr Hcol Hv b B HB. unfold EditEntry in HB. simpl in HB.
  destruct (decide (t = b)) as [<-|Hne].
  2:{ rewrite lookup_insert_ne in HB by exact Hne. exact (Hc b B HB). }
  rewrite lookup_insert_eq in HB. injection HB as <-. split; [exact Ht|].
  intros r' R HR. simpl in HR.
  assert (Hold : forall r0 R0,
            rows (match tbls cfg !! t with
                  | Some tbl => tbl
                  | None => mkBlock (name cfg) [] ∅ ∅
                  end) !! r0 = Some R0 ->
            ok_row r0 /\ forall c0 v0, cols R0 !! c0 = Some v0 -> ok_col c0 /\ ok_val v0).
  { intros r0 R0 H0. destruct (tbls cfg !! t) as [tbl|] eqn:E.
    - exact (proj2 (Hc t tbl E) r0 R0 H0).
    - simpl in H0. rewrite lookup_empty in H0. discriminate. }
  destruct (decide (r = r')) as [<-|Hner].
  2:{ rewrite lookup_insert_ne in HR by exact Hner. exact (Hold r' R HR). }
  rewrite lookup_insert_eq in HR. injection HR as <-. split; [exact Hr|].
  intros c' v' Hcv. simpl in Hcv.
  destruct (decide (c = c')) as [<-|Hnec].
  { rewrite lookup_insert_eq in Hcv. injection Hcv as <-. auto. }
  rewrite lookup_insert_ne in Hcv by exact Hnec.
  destruct (rows _ !! r) as [row|] eqn:E.
  - exact (proj2 (Hold r row E) c' v' Hcv).
  - simpl in Hcv. rewrite lookup_empty in Hcv. discriminate.
Qed.

Lemma EditEntries_clean (es : list (bytes * bytes * bytes * bytes)) :
  forall w p w' cfg cfg',
  Forall ok_edit es -> EditEntries w p es = Ok w' ->
  heap w !! p = Some cfg -> clean_tree cfg ->
  heap w' !! p = Some cfg' ->
  clean_tree cfg' /\ cfgs w' = cfgs w.
Proof.
  induction es as [|[[[t r] c] v] es IH]; intros w p w' cfg cfg' Hok He Hp Hc Hp'.
  - injection He as <-. rewrite Hp in Hp'. injection Hp' as <-. auto.
  - apply Forall_cons in Hok as [(Ht & Hr & Hcol & Hv) Hok].
    simpl in He. rewrite Hp in He. simpl in He.
    destruct (IH _ p w' (EditEntry cfg t r c v) cfg' Hok He) as [H1 H2]; auto.
    + simpl. apply lookup_insert_eq.
    + now apply EditEntry_clean.
Qed.

Lemma NewCfgMem_fresh w _name p w' :
  NewCfgMem w _name = Ok (p, w') -> heap w' !! p = Some (newBlock _name []).
Proof.
  unfold NewCfgMem. destruct (cfgs w !! _name); [discriminate|]. simpl.
  rewrite lookup_insert_eq, lookup_insert_eq. intros [= <- <-]. simpl.
  apply lookup_insert_eq.
Qed.

Lemma visits_order_tbls (m : gmap bytes CfgBlock) : visits_tbls m (order_tbls m).
Proof.
  exists (map_to_list m). split; [unfold ranges; reflexivity|]. unfold order_tbls.
  apply Forall2_fmap_r, Forall_Forall2_diag, Forall_forall. intros [b B] _.
  split; [reflexivity|]. simpl. exists (map_to_list (rows B)).
  split; [unfold ranges; reflexivity|]. unfold order_rows.
  apply Forall2_fmap_r, Forall_Forall2_diag, Forall_forall. intros [r R] _.
  split; [reflexivity | unfold ranges; reflexivity].
Qed.

(** [CfgWrite] has an outcome for every tree. *)
Lemma CfgWrite_total fs cfg _filename : exists r, CfgWrite fs cfg _filename r.
Proof.
  destruct (creatable fs (expandUser fs _filename)) eqn:E.
  - eexists. apply (CfgWrite_ok fs cfg _filename _ E (visits_order_tbls _)).
  - eexists. now apply CfgWrite_panic.
Qed.

(** Loading the text written for a clean tree, whatever the order of the
    write, gives a root with the content of that tree. *)
Lemma load_written fs (F : nat) root (cfg : CfgBlock) (l : otbls) (f : bytes) :
  clean_tree cfg -> visits_tbls (tbls cfg) l ->
  tbls root = ∅ -> (length (write_tbls l) < F)%nat ->
  exists cfg', loadCfgFile fs F root (write_tbls l) f [] = Ok cfg' /\
               content cfg' = content cfg.
Proof.
  intros Hc Hv Hroot HF. rewrite loadCfgFile_loadBlock.
  rewrite (loadBlock_tbls fs l F root f [] (visits_ok_tbls cfg l Hc Hv)).
  2:{ pose proof (fuel_for_length l). lia. }
  eexists. split; [reflexivity|]. unfold content. simpl.
  rewrite Hroot. now apply visits_tbls_content.
Qed.

(** C1, as amended: for a tree built by [NewCfgMem] and [EditEntry] calls
    whose block names, row names, column names and values the format can
    hold ([ok_edit]: no [#], no newline, no blank at either end; names
    non-empty; a row name with no [::] and no [+=] that does not start with
    [%], a brace; no [;] in column names and values, no [=] in column
    names), every text that [CfgWrite] may write loads back, under a fresh
    name and with fuel above the length of the text, into a tree with the
    same block names, the same row names in each block and the same
    columns in each row. *)
Theorem write_then_load_same_content
    fs w (_name : bytes) p w1 es w2 cfg (_filename : bytes) fs' (name2 : bytes) fuel :
  NewCfgMem w _name = Ok (p, w1) ->
  Forall ok_edit es ->
  EditEntries w1 p es = Ok w2 ->
  heap w2 !! p = Some cfg ->
  CfgWrite fs cfg _filename (Ok fs') ->
  cfgs w2 !! name2 = None ->
  (forall text, files fs' !! expandUser fs' _filename = Some text ->
                (length text < fuel)%nat) ->
  exists q w3 cfg',
    NewCfg fs' fuel w2 name2 _filename = Ok (q, w3) /\
    heap w3 !! q = Some cfg' /\
    same_content cfg cfg'.
Proof.
  intros Hmem Hok Hedit Hp Hwrite Hfresh Hfuel.
  destruct (EditEntries_clean es w1 p w2 (newBlock _name []) cfg Hok Hedit
              (NewCfgMem_fresh _ _ _ _ Hmem) (newBlock_clean _ _) Hp) as [Hclean _].
  inversion Hwrite as [|l Hcreat Hvisit Hfs]. subst fs'.
  assert (Hfile : files (mkFS (<[expandUser fs _filename := write_tbls l]> (files fs))
                              (HomeDir fs) (creatable fs))
                  !! expandUser fs _filename = Some (write_tbls l))
    by apply lookup_insert_eq.
  set (fs' := mkFS _ _ _) in *.
  assert (Hpath : expandUser fs' _filename = expandUser fs _filename) by reflexivity.
  rewrite Hpath in Hfuel. specialize (Hfuel _ Hfile).
  destruct (load_written fs' fuel (newBlock name2 (expandUser fs _filename)) cfg l
              (expandUser fs _filename) Hclean Hvisit eq_refl Hfuel)
    as (cfg' & Hload & Hcontent).
  unfold NewCfg. rewrite Hpath, Hfresh. cbn [cfgs heap].
  rewrite lookup_insert_eq, lookup_insert_eq, Hfile, Hload. cbn [mbind result_bind].
  eexists _, _, cfg'. split; [reflexivity|]. split.
  - cbn [heap]. apply lookup_insert_eq.
  - apply content_same. now symmetry.
Qed.

Ltac solve_ok :=
  unfold ok_edit, ok_block, ok_row, ok_cols, ok_col, ok_val, plain;
  repeat split; compute_done.

Lemma write_then_load_same_content_witness :
  exists q w3 cfg',
    NewCfg fs_sample 1000 world_sample (bs "copy") (bs "/tmp/out.cfg") = Ok (q, w3) /\
    heap w3 !! q = Some cfg' /\
    same_content tree_sample cfg'.
Proof.
  apply (write_then_load_same_content fs_empty world0 (bs "mem") 0%nat world_mem
           edits_sample world_sample tree_sample (bs "/tmp/out.cfg") fs_sample
           (bs "copy") 1000%nat).
  - vm_compute. reflexivity.
  - unfold edits_sample. repeat apply Forall_cons_2; try apply Forall_nil_2; solve_ok.
  - vm_compute. reflexivity.
  - vm_compute. reflexivity.
  - apply (CfgWrite_ok fs_empty tree_sample (bs "/tmp/out.cfg")
             (order_tbls (tbls tree_sample)) eq_refl (visits_order_tbls _)).
  - vm_compute. reflexivity.
  - intros text H. vm_compute in H. injection H as <-.
    apply Nat.ltb_lt. vm_compute. reflexivity.
Defined.

Example loaded_sample_lookup :
  Str loaded_sample (bs "thirdblock") (bs "some-row") (bs "path") (bs "BLANK")
    = bs "/usr/local:/opt a=b" /\
  Str loaded_sample (bs "block 4") (bs "another:row") (bs "millis") (bs "BLANK")
    = bs "123456789" /\
  Str loaded_sample (bs "thirdblock") (bs "other") (bs "note") (bs "BLANK") = [].
Proof. repeat split; vm_compute; reflexivity. Qed.

(** C1 as stated fails: the tree built by the one edit
    [EditEntry("b", "r", "c", "x;y")] is written and loaded back under a
    fresh name, and the column [c] then holds [x], not [x;y]. *)
Lemma write_then_load_semicolon_counterexample :
  NewCfgMem world0 (bs "mem") = Ok (0%nat, world_mem) /\
  EditEntries world_mem 0%nat [edit_semicolon] = Ok world_semicolon /\
  heap world_semicolon !! 0%nat = Some tree_semicolon /\
  CfgWrite fs_empty tree_semicolon (bs "/tmp/out.cfg") (Ok fs_semicolon) /\
  cfgs world_semicolon !! bs "copy" = None /\
  (exists w3, NewCfg fs_semicolon 100 world_semicolon (bs "copy") (bs "/tmp/out.cfg")
              = Ok (1%nat, w3) /\ heap w3 !! 1%nat = Some loaded_semicolon) /\
  Str tree_semicolon (bs "b") (bs "r") (bs "c") [] = bs "x;y" /\
  Str loaded_semicolon (bs "b") (bs "r") (bs "c") [] = bs "x" /\
  ~ same_content tree_semicolon loaded_semicolon.
Proof.
  split; [vm_compute; reflexivity|].
  split; [vm_compute; reflexivity|].
  split; [vm_compute; reflexivity|].
  split.
  { apply (CfgWrite_ok fs_empty tree_semicolon (bs "/tmp/out.cfg")
             (order_tbls (tbls tree_semicolon)) eq_refl (visits_order_tbls _)). }
  split; [vm_compute; reflexivity|].
  split.
  { eexists. split; vm_compute; reflexivity. }
  split; [vm_compute; reflexivity|].
  split; [vm_compute; reflexivity|].
  intros [_ H].
  destruct (tbls tree_semicolon !! bs "b") as [B|] eqn:EB; [|vm_compute in EB; discriminate].
  destruct (tbls loaded_semicolon !! bs "b") as [B'|] eqn:EB';
    [|vm_compute in EB'; discriminate].
  destruct (H _ _ _ EB EB') as [_ H'].
  destruct (rows B !! bs "r") as [R|] eqn:ER.
  2:{ vm_compute in EB. injection EB as <-. vm_compute in ER. discriminate. }
  destruct (rows B' !! bs "r") as [R'|] eqn:ER'.
  2:{ vm_compute in EB'. injection EB' as <-. vm_compute in ER'. discriminate. }
  specialize (H' _ _ _ ER ER').
  vm_compute in EB. injection EB as <-. vm_compute in ER. injection ER as <-.
  vm_compute in EB'. injection EB' as <-. vm_compute in ER'. injection ER' as <-.
  apply (f_equal (fun m => m !! bs "c")) in H'. vm_compute in H'. discriminate.
Qed.

(** ** Rows and their continuations in a block *)

Lemma cols_text_free (c : ascii) (l : ocols) :
  c <> " "%char -> c <> "="%char -> c <> ";"%char ->
  Forall (fun cv => (c ∉ cv.1) /\ (c ∉ cv.2)) l -> c ∉ cols_text l.
Proof.
  intros N1 N2 N3. induction 1 as [|cv l [H1 H2] _ IH]; [apply not_elem_of_nil|].
  rewrite cols_text_cons. simpl.
  rewrite !not_elem_of_cons, !not_elem_of_app, !not_elem_of_cons. auto 10.
Qed.

Lemma row_text_NL (r : bytes) (sep : ascii) (l : ocols) :
  ok_row r -> in_cutset sep blanks = true -> ok_cols l ->
  NL ∉ row_text r sep (cols_text l).
Proof.
  intros (_ & (_ & Hn & _) & _) Hs Hc. unfold row_text.
  apply not_elem_of_app. split; [exact Hn|].
  apply not_elem_of_cons. split.
  { destruct (blank_cases sep Hs) as [->| ->]; discriminate. }
  apply not_elem_of_app. split; [compute_done|].
  apply cols_text_free; try discriminate. now apply ok_cols_free_NL.
Qed.

Lemma continuation_NL (l : ocols) : ok_cols l -> NL ∉ continuation_text (cols_text l).
Proof.
  intros Hc. unfold continuation_text. apply not_elem_of_app. split; [compute_done|].
  apply cols_text_free; try discriminate. now apply ok_cols_free_NL.
Qed.

Lemma continuation_clean (l : ocols) :
  ok_cols l ->
  cleanLine (continuation_text (cols_text l)) = continuation_text (cols_text l).
Proof.
  intros Hc. unfold continuation_text. rewrite cleanLine_no_hash.
  - change (TrimLeft (bs "+=" ++ cols_text l) blanks) with (bs "+=" ++ cols_text l).
    change (bs "+=" ++ cols_text l) with (["+"%char] ++ "="%char :: cols_text l).
    rewrite TrimRight_app_out by reflexivity. now rewrite TrimRight_cols_text.
  - apply not_elem_of_app. split; [compute_done | now apply hash_cols_text].
Qed.

Lemma continuation_kind (l : ocols) :
  l <> [] -> classify (continuation_text (cols_text l)) = KAdd.
Proof.
  intros Hl. destruct l as [|cv l]; [congruence|].
  unfold classify. rewrite len_ltb_1_cons by discriminate.
  destruct (lineIsInclude _) eqn:E1.
  { apply lineIsInclude_head in E1. discriminate E1. }
  change (lineIsBlockEnd (continuation_text (cols_text (cv :: l)))) with false. cbv iota.
  destruct (lineIsBlockNew _) eqn:E2.
  { apply lineIsBlockNew_head in E2. discriminate E2. }
  replace (2 <? len (continuation_text (cols_text (cv :: l)))) with true; [reflexivity|].
  symmetry. apply Z.ltb_lt. unfold continuation_text. rewrite cols_text_cons.
  rewrite !len_app, !len_cons. change (len (bs "+=")) with 2.
  pose proof (len_nonneg (cv.1 ++ "="%char :: cv.2)). pose proof (len_nonneg (cols_text l)).
  lia.
Qed.

Lemma cols_from_app (l1 l2 : ocols) m : cols_from (l1 ++ l2) m = cols_from l2 (cols_from l1 m).
Proof. unfold cols_from. apply foldl_app. Qed.

Section RowsInBlock.
Variable fs : FS.

(** A row line is loaded as a new row; the row it may replace is
    forgotten when the line holds no [+=]. *)
Lemma loadBlock_row_line fuel cfg (r : bytes) (l : ocols) (rest f prev : bytes) :
  ok_row r -> ok_cols l ->
  rows cfg !! r = None \/ Index (row_text r " " (cols_text l)) (bs "+=") < 0 ->
  loadBlock fs (S fuel) cfg (row_text r " " (cols_text l) ++ NL :: rest) f prev =
  loadBlock fs fuel (set_rows cfg (<[r := mkRow r (cols_from l ∅)]> (rows cfg)))
            rest f r.
Proof.
  intros Hr Hc Hcase.
  rewrite (loadBlock_line fs _ cfg _ _ f prev (row_text_NL r " " l Hr blank_space Hc)).
  rewrite (row_text_clean r " " l Hr blank_space Hc). unfold iteration.
  rewrite (row_text_kind r " " _ Hr blank_space).
  now rewrite (loadRow_row_text cfg r " " l f Hr blank_space Hc Hcase).
Qed.

(** A continuation line merges its columns into the pending row. *)
Lemma loadBlock_continuation_line fuel cfg (l : ocols) (rest f prev : bytes) :
  prev <> [] -> l <> [] -> ok_cols l ->
  loadBlock fs (S fuel) cfg (continuation_text (cols_text l) ++ NL :: rest) f prev =
  loadBlock fs fuel
    (let row := default (mkRow prev ∅) (rows cfg !! prev) in
     set_rows cfg (<[prev := mkRow (row_name row) (cols_from l (cols row))]> (rows cfg)))
    rest f prev.
Proof.
  intros Hp Hl Hc.
  rewrite (loadBlock_line fs _ cfg _ _ f prev (continuation_NL l Hc)).
  rewrite (continuation_clean l Hc). unfold iteration.
  rewrite (continuation_kind l Hl).
  replace (slice_from (continuation_text (cols_text l)) 2) with (cols_text l)
    by reflexivity.
  now rewrite (loadRow_continuation cfg l f prev Hp Hc).
Qed.

(** C6, on the code: in one block scope, a row line [name :: ...]
    followed by a continuation [+= ...] yields one row of that name
    holding the columns of both lines (the instance of the claim is
    [name :: a=1;] then [+= b=2;]), and a later row line of the same name
    that holds no [+=] replaces the whole column set of the row. A later
    row line of the same name whose data hold a [+=], as [name :: c=x+=y;]
    does, replaces nothing: its columns are merged into the row that is
    there, and the old columns stay. *)
Theorem continuation_merges_redefinition_replaces
    fuel cfg (r : bytes) (l1 l2 : ocols) (rest f prev : bytes) :
  ok_row r -> ok_cols l1 -> ok_cols l2 -> l2 <> [] ->
  (rows cfg !! r = None \/ Index (row_text r " " (cols_text l1)) (bs "+=") < 0 ->
   loadBlock fs (S (S fuel)) cfg
     (row_text r " " (cols_text l1) ++ NL ::
      continuation_text (cols_text l2) ++ NL :: rest) f prev =
   loadBlock fs fuel
     (set_rows cfg (<[r := mkRow r (cols_from (l1 ++ l2) ∅)]> (rows cfg))) rest f r) /\
  (Index (row_text r " " (cols_text l2)) (bs "+=") < 0 ->
   forall old, rows cfg !! r = Some old ->
   loadBlock fs (S fuel) cfg (row_text r " " (cols_text l2) ++ NL :: rest) f prev =
   loadBlock fs fuel
     (set_rows cfg (<[r := mkRow r (cols_from l2 ∅)]> (rows cfg))) rest f r) /\
  (0 <= Index (row_text r " " (cols_text l2)) (bs "+=") ->
   forall old, rows cfg !! r = Some old ->
   loadBlock fs (S fuel) cfg (row_text r " " (cols_text l2) ++ NL :: rest) f prev =
   loadBlock fs fuel
     (set_rows cfg (<[r := mkRow (row_name old) (cols_from l2 (cols old))]> (rows cfg)))
     rest f r).
Proof.
  intros Hr H1 H2 Hne. split; [|split].
  - intros Hcase. rewrite (loadBlock_row_line _ cfg r l1 _ f prev Hr H1 Hcase).
    rewrite loadBlock_continuation_line; try assumption.
    2:{ destruct Hr as [Hr _]. exact Hr. }
    cbv zeta. rewrite rows_set_rows, lookup_insert_eq. simpl.
    rewrite set_rows_set_rows, insert_insert_eq. now rewrite cols_from_app.
  - intros Hi old _. apply loadBlock_row_line; auto.
  - intros Hi old Hold.
    rewrite (loadBlock_line fs _ cfg _ _ f prev (row_text_NL r " " l2 Hr blank_space H2)).
    rewrite (row_text_clean r " " l2 Hr blank_space H2). unfold iteration.
    rewrite (row_text_kind r " " _ Hr blank_space).
    now rewrite (loadRow_row_text_add cfg r " " l2 f old Hr blank_space H2 Hi Hold).
Qed.
End RowsInBlock.

Lemma continuation_merges_redefinition_replaces_witness :
  loadBlock fs_empty 3 (newBlock (bs "blk") (bs "f"))
    (row_text (bs "name") " " (cols_text cols_a1) ++ NL ::
     continuation_text (cols_text cols_b2) ++ NL :: bs "}") (bs "f") [] =
  loadBlock fs_empty 1
    (set_rows (newBlock (bs "blk") (bs "f"))
       (<[bs "name" := mkRow (bs "name") (cols_from (cols_a1 ++ cols_b2) ∅)]> ∅))
    (bs "}") (bs "f") (bs "name") /\
  loadBlock fs_empty 2 block_with_name
    (row_text (bs "name") " " (cols_text cols_c3) ++ NL :: bs "}") (bs "f") [] =
  loadBlock fs_empty 1
    (set_rows block_with_name
       (<[bs "name" := mkRow (bs "name") (cols_from cols_c3 ∅)]> (rows block_with_name)))
    (bs "}") (bs "f") (bs "name") /\
  loadBlock fs_empty 2 block_with_name
    (row_text (bs "name") " " (cols_text cols_plus) ++ NL :: bs "}") (bs "f") [] =
  loadBlock fs_empty 1
    (set_rows block_with_name
       (<[bs "name" := mkRow (bs "name")
                         (cols_of [("a", "1"); ("z", "26"); ("c", "x+=y")])]>
          (rows block_with_name)))
    (bs "}") (bs "f") (bs "name").
Proof.
  split; [|split].
  - apply (proj1 (continuation_merges_redefinition_replaces fs_empty 1
             (newBlock (bs "blk") (bs "f")) (bs "name") cols_a1 cols_b2 (bs "}")
             (bs "f") [] ltac:(solve_ok)
             ltac:(repeat apply Forall_cons_2; try apply Forall_nil_2; solve_ok)
             ltac:(repeat apply Forall_cons_2; try apply Forall_nil_2; solve_ok)
             ltac:(discriminate))).
    left. vm_compute. reflexivity.
  - apply (proj1 (proj2 (continuation_merges_redefinition_replaces fs_empty 1
             block_with_name (bs "name") cols_a1 cols_c3 (bs "}")
             (bs "f") [] ltac:(solve_ok)
             ltac:(repeat apply Forall_cons_2; try apply Forall_nil_2; solve_ok)
             ltac:(repeat apply Forall_cons_2; try apply Forall_nil_2; solve_ok)
             ltac:(discriminate)))
           ltac:(vm_compute; reflexivity)
           (mkRow (bs "name") (cols_of [("a", "1"); ("z", "26")]))).
    vm_compute. reflexivity.
  - rewrite (proj2 (proj2 (continuation_merges_redefinition_replaces fs_empty 1
             block_with_name (bs "name") cols_a1 cols_plus (bs "}")
             (bs "f") [] ltac:(solve_ok)
             ltac:(repeat apply Forall_cons_2; try apply Forall_nil_2; solve_ok)
             ltac:(repeat apply Forall_cons_2; try apply Forall_nil_2; solve_ok)
             ltac:(discriminate)))
           ltac:(vm_compute; discriminate)
           (mkRow (bs "name") (cols_of [("a", "1"); ("z", "26")]))
           ltac:(vm_compute; reflexivity)).
    vm_compute. reflexivity.
Defined.

Example continuation_example :
  loadBlock fs_empty 10 (newBlock (bs "blk") (bs "f")) (bs "name :: a=1;
+= b=2;
}
") (bs "f") [] =
  Ok (mkBlock (bs "blk") (bs "f")
        {[ bs "name" := mkRow (bs "name") (cols_of [("a", "1"); ("b", "2")]) ]} ∅, []).
Proof. vm_compute. reflexivity. Qed.

Example redefinition_example :
  loadBlock fs_empty 10 (newBlock (bs "blk") (bs "f")) (bs "name :: a=1;
+= b=2;
name :: c=3;
}
") (bs "f") [] =
  Ok (mkBlock (bs "blk") (bs "f")
        {[ bs "name" := mkRow (bs "name") (cols_of [("c", "3")]) ]} ∅, []).
Proof. vm_compute. reflexivity. Qed.

Example redefinition_with_add_example :
  loadBlock fs_empty 10 (newBlock (bs "blk") (bs "f")) (bs "name :: a=1;
name :: c=x+=y;
}
") (bs "f") [] =
  Ok (mkBlock (bs "blk") (bs "f")
        {[ bs "name" := mkRow (bs "name") (cols_of [("a", "1"); ("c", "x+=y")]) ]} ∅, []).
Proof. vm_compute. reflexivity. Qed.

(** ** Opening a block *)

Section BlockOpen.
Variable fs : FS.

Lemma loadCfgFile_line fuel cfg (l rest f prev : bytes) :
  NL ∉ l ->
  loadCfgFile fs (S fuel) cfg (l ++ NL :: rest) f prev =
  (r ← iteration fs fuel cfg (cleanLine l) rest f prev
         (fun cfg rdr prev => loadBlock fs fuel cfg rdr f prev); Ok r.1).
Proof. intros Hl. now rewrite loadCfgFile_loadBlock, loadBlock_line. Qed.

End BlockOpen.


(** ** The last line of a file *)

Lemma agree_weaken (R R' : bytes -> bytes -> Prop) r r' :
  (forall s s', R s s' -> R' s s') -> agree R r r' -> agree R' r r'.
Proof.
  intros H. destruct r as [[c s]| |], r' as [[c' s']| |]; simpl; try tauto.
  intros [? ?]. auto.
Qed.

Section LastLine.
Variable fs : FS.

Lemma iteration_agree (k : nat) cfg (buf rdr rdr' f prev : bytes) next next'
      (R : bytes -> bytes -> Prop) r :
  (forall cfg rdr f prev r,
     loadCfgFile fs k cfg rdr f prev = r -> r <> OutOfFuel ->
     loadCfgFile fs (S k) cfg rdr f prev = r) ->
  (forall cfg f prev r,
     loadBlock fs k cfg rdr f prev = r -> r <> OutOfFuel ->
     agree R r (loadBlock fs (S k) cfg rdr' f prev)) ->
  (forall cfg s s' prev r,
     R s s' -> next cfg s prev = r -> r <> OutOfFuel ->
     agree R r (next' cfg s' prev)) ->
  R rdr rdr' ->
  iteration fs k cfg buf rdr f prev next = r -> r <> OutOfFuel ->
  agree R r (iteration fs (S k) cfg buf rdr' f prev next').
Proof.
  intros IHf IHb Hnext HR Hr Hne. unfold iteration in *.
  destruct (classify buf).
  - exact (Hnext _ _ _ _ _ HR Hr Hne).
  - destruct (openInclude fs buf) as [[f2 r2]|m|]; cbn [mbind result_bind] in *.
    + destruct (loadCfgFile fs k cfg r2 f2 []) as [c|m|] eqn:E;
        cbn [mbind result_bind] in Hr.
      * rewrite (IHf _ _ _ _ _ E) by discriminate. cbn [mbind result_bind].
        exact (Hnext _ _ _ _ _ HR Hr Hne).
      * rewrite (IHf _ _ _ _ _ E) by discriminate. subst r. reflexivity.
      * subst r. congruence.
    + subst r. reflexivity.
    + subst r. congruence.
  - subst r. split; [reflexivity | exact HR].
  - destruct (loadBlock fs k (newBlock (getBlockname buf) f) rdr f []) as [[blk s]|m|] eqn:E;
      cbn [mbind result_bind] in Hr.
    + pose proof (IHb _ _ _ _ E ltac:(discriminate)) as A.
      destruct (loadBlock fs (S k) (newBlock (getBlockname buf) f) rdr' f [])
        as [[blk' s']|m'|]; simpl in A; try contradiction.
      destruct A as [<- Hs]. cbn [mbind result_bind].
      exact (Hnext _ _ _ _ _ Hs Hr Hne).
    + pose proof (IHb _ _ _ _ E ltac:(discriminate)) as A.
      destruct (loadBlock fs (S k) (newBlock (getBlockname buf) f) rdr' f [])
        as [[blk' s']|m'|]; simpl in A; try contradiction.
      subst. reflexivity.
    + subst r. congruence.
  - destruct (loadRow cfg (slice_from buf 2) f prev) as [cfg1 prev1].
    exact (Hnext _ _ _ _ _ HR Hr Hne).
  - exact (Hnext _ _ _ _ _ HR Hr Hne).
  - destruct (loadRow cfg buf f []) as [cfg1 prev1].
    exact (Hnext _ _ _ _ _ HR Hr Hne).
Qed.

Lemma unterminated_no_NL (s : bytes) : NL ∉ s -> s <> [] -> unterminated s.
Proof.
  intros Hn Hne. split; [exact Hne|]. intros Hl.
  apply last_Some_elem_of in Hl. contradiction.
Qed.

Lemma unterminated_line (l rest : bytes) :
  unterminated (l ++ NL :: rest) ->
  unterminated rest /\
  newline_for_last (l ++ NL :: rest) = l ++ NL :: newline_for_last rest.
Proof.
  intros [_ Hl]. assert (Hrest : rest <> []).
  { intros ->. apply Hl. rewrite (cons_middle NL l []), app_nil_r. apply last_snoc. }
  split.
  - split; [exact Hrest|]. intros E. apply Hl.
    rewrite (cons_middle NL l rest), !last_app, E. reflexivity.
  - unfold newline_for_last. rewrite removelast_app by discriminate.
    simpl removelast. destruct rest; [congruence|]. now rewrite <- app_assoc.
Qed.

(** More fuel, and a newline in place of the last byte of an unterminated
    stream, change neither the tree loaded nor the panic raised. *)
Lemma loadBlock_agree (k : nat) :
  forall cfg (rdr rdr' f prev : bytes) r,
  same_or_cut rdr rdr' ->
  loadBlock fs k cfg rdr f prev = r -> r <> OutOfFuel ->
  agree same_or_cut r (loadBlock fs (S k) cfg rdr' f prev).
Proof.
  induction k as [|k IH]; intros cfg rdr rdr' f prev r Hrel Hr Hne.
  { simpl in Hr. congruence. }
  assert (IHf : forall cfg rdr f prev r,
     loadCfgFile fs k cfg rdr f prev = r -> r <> OutOfFuel ->
     loadCfgFile fs (S k) cfg rdr f prev = r).
  { intros c s f0 p0 r0 H0 Hn0. rewrite loadCfgFile_loadBlock in H0 |- *.
    destruct (loadBlock fs k c s f0 p0) as [[c1 s1]|m|] eqn:E.
    - pose proof (IH c s s f0 p0 _ (or_introl eq_refl) E ltac:(discriminate)) as A.
      destruct (loadBlock fs (S k) c s f0 p0) as [[c2 s2]|m2|]; simpl in A;
        try contradiction.
      destruct A as [<- _]. exact H0.
    - pose proof (IH c s s f0 p0 _ (or_introl eq_refl) E ltac:(discriminate)) as A.
      destruct (loadBlock fs (S k) c s f0 p0) as [[c2 s2]|m2|]; simpl in A;
        try contradiction.
      subst m2. exact H0.
    - subst r0. simpl in Hn0. congruence. }
  assert (Hnil : forall c f0 p0 r0,
     loadBlock fs k c [] f0 p0 = r0 -> r0 <> OutOfFuel ->
     agree both_empty r0 (loadBlock fs (S k) c [] f0 p0)).
  { intros c f0 p0 r0 H0 Hn0. destruct k; [simpl in H0; congruence|].
    simpl in H0. subst r0. simpl. repeat split. }
  destruct Hrel as [->|[Hun ->]].
  - destruct (stream_cases rdr) as [(l & rest & Hl & ->)|Hn].
    + rewrite (loadBlock_line fs _ cfg l rest f prev Hl) in Hr.
      rewrite (loadBlock_line fs _ cfg l rest f prev Hl).
      eapply (iteration_agree k) with (R := same_or_cut);
        [exact IHf | | | | exact Hr | exact Hne].
      * intros c f0 p0 r0. apply IH. now left.
      * intros c s s' p0 r0 Hs. apply IH. exact Hs.
      * now left.
    + destruct rdr as [|a rdr'] eqn:Es.
      { simpl in Hr. subst r. simpl. split; [reflexivity | now left]. }
      rewrite <- Es in *. assert (Hne' : rdr <> []) by (subst; discriminate).
      rewrite (loadBlock_eof fs _ cfg rdr f prev Hn Hne') in Hr.
      rewrite (loadBlock_eof fs _ cfg rdr f prev Hn Hne').
      apply (agree_weaken both_empty); [intros s s' [-> ->]; now left|].
      eapply (iteration_agree k) with (R := both_empty);
        [exact IHf | | | | exact Hr | exact Hne].
      * exact Hnil.
      * intros c s s' p0 r0 [-> ->] <- _. simpl. repeat split.
      * split; reflexivity.
  - destruct (stream_cases rdr) as [(l & rest & Hl & ->)|Hn].
    + destruct (unterminated_line l rest Hun) as [Hrest ->].
      rewrite (loadBlock_line fs _ cfg l rest f prev Hl) in Hr.
      rewrite (loadBlock_line fs _ cfg l _ f prev Hl).
      eapply (iteration_agree k) with (R := same_or_cut);
        [exact IHf | | | | exact Hr | exact Hne].
      * intros c f0 p0 r0. apply IH. right. auto.
      * intros c s s' p0 r0 Hs. apply IH. exact Hs.
      * right. auto.
    + destruct Hun as [Hne' _]. unfold newline_for_last.
      rewrite (loadBlock_eof fs _ cfg rdr f prev Hn Hne') in Hr.
      assert (Hn' : NL ∉ removelast rdr).
      { intros Hin. apply Hn. destruct rdr as [|a s] using rev_ind; [congruence|].
        rewrite removelast_last in Hin. apply elem_of_app. now left. }
      rewrite (loadBlock_line fs _ cfg (removelast rdr) [] f prev Hn').
      apply (agree_weaken both_empty); [intros s s' [-> ->]; now left|].
      eapply (iteration_agree k) with (R := both_empty);
        [exact IHf | | | | exact Hr | exact Hne].
      * exact Hnil.
      * intros c s s' p0 r0 [-> ->] <- _.
        destruct k; [simpl in Hr|]; simpl; repeat split.
      * split; reflexivity.
Qed.
End LastLine.

Section LastLineTheorem.
Variable fs : FS.

(** C8: when the last line of a stream ends without a newline, the loader
    still drops the last byte of what it read: the line that is cleaned
    and classified is the last line less its final byte, and the load
    ends as the load of the stream whose final byte is replaced by a
    newline (the same tree, or the same panic). *)
Theorem last_line_loses_last_byte :
  (forall fuel cfg (l f prev : bytes), NL ∉ l -> l <> [] ->
     loadBlock fs (S fuel) cfg l f prev =
       iteration fs fuel cfg (cleanLine (removelast l)) [] f prev
         (fun cfg rdr prev => Ok (cfg, rdr)) /\
     loadCfgFile fs (S fuel) cfg l f prev =
       (r ← iteration fs fuel cfg (cleanLine (removelast l)) [] f prev
              (fun cfg rdr prev => Ok (cfg, rdr)); Ok r.1)) /\
  (forall fuel cfg (rdr f prev : bytes) r, unterminated rdr ->
     loadCfgFile fs fuel cfg rdr f prev = r -> r <> OutOfFuel ->
     loadCfgFile fs (S fuel) cfg (newline_for_last rdr) f prev = r) /\
  (forall fuel cfg (rdr f prev : bytes) r, unterminated rdr ->
     loadBlock fs fuel cfg rdr f prev = r -> r <> OutOfFuel ->
     agree same_or_cut r (loadBlock fs (S fuel) cfg (newline_for_last rdr) f prev)).
Proof.
  split; [|split].
  - intros fuel cfg l f prev Hn Hne.
    pose proof (loadBlock_eof fs fuel cfg l f prev Hn Hne) as E.
    split; [exact E|]. now rewrite loadCfgFile_loadBlock, E.
  - intros fuel cfg rdr f prev r Hun Hr Hne.
    rewrite loadCfgFile_loadBlock in Hr |- *.
    destruct (loadBlock fs fuel cfg rdr f prev) as [[c s]|m|] eqn:E.
    + pose proof (loadBlock_agree fs fuel cfg rdr _ f prev _
                    (or_intror (conj Hun eq_refl)) E ltac:(discriminate)) as A.
      destruct (loadBlock fs (S fuel) cfg (newline_for_last rdr) f prev)
        as [[c' s']|m'|]; simpl in A; try contradiction.
      destruct A as [<- _]. exact Hr.
    + pose proof (loadBlock_agree fs fuel cfg rdr _ f prev _
                    (or_intror (conj Hun eq_refl)) E ltac:(discriminate)) as A.
      destruct (loadBlock fs (S fuel) cfg (newline_for_last rdr) f prev)
        as [[c' s']|m'|]; simpl in A; try contradiction.
      subst m'. exact Hr.
    + subst r. simpl in Hne. congruence.
  - intros fuel cfg rdr f prev r Hun Hr Hne.
    apply (loadBlock_agree fs fuel cfg rdr _ f prev r); auto.
    right. auto.
Qed.
End LastLineTheorem.

Lemma last_line_loses_last_byte_witness :
  loadCfgFile fs_empty 3 (newBlock (bs "app") (bs "f"))
              (newline_for_last (bs "a :: k=v")) (bs "f") [] =
  loadCfgFile fs_empty 2 (newBlock (bs "app") (bs "f")) (bs "a :: k=v") (bs "f") [].
Proof.
  apply (proj1 (proj2 (last_line_loses_last_byte fs_empty))).
  - split; [discriminate | vm_compute; discriminate].
  - reflexivity.
  - vm_compute. discriminate.
Defined.

Example last_line_example :
  SelfStr (load_text (bs "a :: k=v")) (bs "a") (bs "k") (bs "BLANK") = [] /\
  load_text (bs "a :: k=v") = load_text (bs "a :: k=
") /\
  SelfStr (load_text (bs "a :: k=v
")) (bs "a") (bs "k") (bs "BLANK") = bs "v".
Proof. repeat split; vm_compute; reflexivity. Qed.


(** ** A panic reaches the caller *)

Lemma agree_eq (r r' : result (CfgBlock * bytes)) : agree eq r r' -> r = r'.
Proof.
  destruct r as [[c s]|m|], r' as [[c' s']|m'|]; simpl; try tauto.
  - now intros [-> ->].
  - now intros ->.
Qed.

Lemma agree_eq_refl (r : result (CfgBlock * bytes)) : r <> OutOfFuel -> agree eq r r.
Proof. destruct r as [[c s]|m|]; simpl; [auto | auto | congruence]. Qed.

Section PanicReaches.
Variable fs : FS.

(** More fuel changes no result. *)
Lemma loadBlock_more_fuel (k : nat) :
  forall cfg (rdr f prev : bytes) r,
  loadBlock fs k cfg rdr f prev = r -> r <> OutOfFuel ->
  loadBlock fs (S k) cfg rdr f prev = r.
Proof.
  induction k as [|k IH]; intros cfg rdr f prev r Hr Hne.
  { simpl in Hr. congruence. }
  assert (IHf : forall cfg rdr f prev r,
     loadCfgFile fs k cfg rdr f prev = r -> r <> OutOfFuel ->
     loadCfgFile fs (S k) cfg rdr f prev = r).
  { intros c s f0 p0 r0 H0 Hn0. rewrite loadCfgFile_loadBlock in H0 |- *.
    destruct (loadBlock fs k c s f0 p0) as [[c1 s1]|m|] eqn:E.
    - now rewrite (IH _ _ _ _ _ E) by discriminate.
    - now rewrite (IH _ _ _ _ _ E) by discriminate.
    - subst r0. simpl in Hn0. congruence. }
  destruct (stream_cases rdr) as [(l & rest & Hl & ->)|Hn].
  - rewrite (loadBlock_line fs _ cfg l rest f prev Hl) in Hr.
    rewrite (loadBlock_line fs _ cfg l rest f prev Hl).
    symmetry. apply agree_eq.
    eapply (iteration_agree fs k) with (R := eq); [exact IHf | | | reflexivity | exact Hr | exact Hne].
    + intros c f0 p0 r0 H0 Hn0. rewrite (IH _ _ _ _ _ H0 Hn0). now apply agree_eq_refl.
    + intros c s s' p0 r0 <- H0 Hn0. rewrite (IH _ _ _ _ _ H0 Hn0). now apply agree_eq_refl.
  - destruct rdr as [|a rdr'] eqn:Es.
    { simpl in Hr. subst r. reflexivity. }
    rewrite <- Es in *. assert (Hnil : rdr <> []) by (subst; discriminate).
    rewrite (loadBlock_eof fs _ cfg rdr f prev Hn Hnil) in Hr.
    rewrite (loadBlock_eof fs _ cfg rdr f prev Hn Hnil).
    symmetry. apply agree_eq.
    eapply (iteration_agree fs k) with (R := eq); [exact IHf | | | reflexivity | exact Hr | exact Hne].
    + intros c f0 p0 r0 H0 Hn0. rewrite (IH _ _ _ _ _ H0 Hn0). now apply agree_eq_refl.
    + intros c s s' p0 r0 <- H0 Hn0. subst r0. simpl. auto.
Qed.

Lemma loadBlock_fuel_le (k k' : nat) cfg (rdr f prev : bytes) r :
  (k <= k')%nat -> loadBlock fs k cfg rdr f prev = r -> r <> OutOfFuel ->
  loadBlock fs k' cfg rdr f prev = r.
Proof.
  intros Hle Hr Hne. induction Hle as [|k' _ IH]; [exact Hr|].
  now apply loadBlock_more_fuel.
Qed.

Lemma loadCfgFile_fuel_le (k k' : nat) cfg (rdr f prev : bytes) r :
  (k <= k')%nat -> loadCfgFile fs k cfg rdr f prev = r -> r <> OutOfFuel ->
  loadCfgFile fs k' cfg rdr f prev = r.
Proof.
  intros Hle Hr Hne. rewrite loadCfgFile_loadBlock in Hr |- *.
  destruct (loadBlock fs k cfg rdr f prev) as [[c s]|m|] eqn:E.
  - now rewrite (loadBlock_fuel_le k k' _ _ _ _ _ Hle E) by discriminate.
  - now rewrite (loadBlock_fuel_le k k' _ _ _ _ _ Hle E) by discriminate.
  - subst r. simpl in Hne. congruence.
Qed.

Lemma handled_fuel_le (k k' : nat) cfg (buf rdr f prev : bytes) x :
  (k <= k')%nat -> handled fs k cfg buf rdr f prev = Ok x ->
  handled fs k' cfg buf rdr f prev = Ok x.
Proof.
  intros Hle. unfold handled. destruct (classify buf); try (intros H; exact H).
  - destruct (openInclude fs buf) as [[f2 r2]|m|]; cbn [mbind result_bind];
      try discriminate.
    destruct (loadCfgFile fs k cfg r2 f2 []) as [c|m|] eqn:E; cbn [mbind result_bind];
      try discriminate.
    now rewrite (loadCfgFile_fuel_le k k' _ _ _ _ _ Hle E) by discriminate.
  - destruct (loadBlock fs k (newBlock (getBlockname buf) f) rdr f []) as [[b s]|m|] eqn:E;
      cbn [mbind result_bind]; try discriminate.
    now rewrite (loadBlock_fuel_le k k' _ _ _ _ _ Hle E) by discriminate.
Qed.

(** One iteration is what the line does, then the rest of the loop. *)
Lemma iteration_handled (fuel : nat) cfg (buf rdr f prev : bytes) next :
  iteration fs fuel cfg buf rdr f prev next =
  (x ← handled fs fuel cfg buf rdr f prev;
   match x with
   | None => Ok (cfg, rdr)
   | Some (c, r, p) => next c r p
   end).
Proof.
  unfold iteration, handled. destruct (classify buf); try reflexivity.
  - destruct (openInclude fs buf) as [[f2 r2]|m|]; cbn [mbind result_bind];
      try reflexivity.
    destruct (loadCfgFile fs fuel cfg r2 f2 []); reflexivity.
  - destruct (loadBlock fs fuel (newBlock (getBlockname buf) f) rdr f []) as [[b s]|m|];
      reflexivity.
  - destruct (loadRow cfg (slice_from buf 2) f prev). reflexivity.
  - destruct (loadRow cfg buf f []). reflexivity.
Qed.

Lemma loadBlock_panic_rest (fuel : nat) cfg (l rest f prev : bytes) c1 (r1 p1 : bytes) msg :
  NL ∉ l ->
  handled fs fuel cfg (cleanLine l) rest f prev = Ok (Some (c1, r1, p1)) ->
  loadBlock fs fuel c1 r1 f p1 = Panic msg ->
  loadBlock fs (S fuel) cfg (l ++ NL :: rest) f prev = Panic msg.
Proof.
  intros Hl Hh Hp. rewrite (loadBlock_line fs _ cfg l rest f prev Hl).
  rewrite iteration_handled, Hh. exact Hp.
Qed.

Lemma reaches_panic (f : bytes) (F : nat) cfg (rdr prev : bytes) c2 (r2 p2 : bytes) :
  reaches fs f F cfg rdr prev c2 r2 p2 ->
  forall k msg, loadBlock fs k c2 r2 f p2 = Panic msg ->
  exists K, forall fuel, (K <= fuel)%nat -> loadBlock fs fuel cfg rdr f prev = Panic msg.
Proof.
  induction 1 as [cfg rdr prev|cfg l rest prev c1 r1 p1 c2 r2 p2 Hl Hh _ IH];
    intros k msg Hp.
  - exists k. intros fuel Hf.
    now apply (loadBlock_fuel_le k fuel _ _ _ _ _ Hf Hp).
  - destruct (IH k msg Hp) as [K1 HK1]. exists (S (Nat.max F K1)).
    intros fuel Hf. destruct fuel as [|m]; [lia|].
    apply (loadBlock_panic_rest m cfg l rest f prev c1 r1 p1 msg Hl).
    + apply (handled_fuel_le F m); [lia | exact Hh].
    + apply HK1. lia.
Qed.

(** C5: when [NewCfg] cannot open the top-level file, and when either
    loop reads an [%include] line whose file cannot be opened, the call
    panics: nothing is returned, whatever was loaded so far and whatever
    is left to read. A panic of a nested load (an included file, a child
    block, the top-level file) is the panic of its caller, and so is a
    panic of the rest of the loop after a line that was handled: wherever
    in the text the loop gets to a point from which the load panics, the
    load of the whole text panics, and so does [NewCfg] for the top-level
    file, with any fuel that is enough to get there. *)
Theorem open_failure_panics :
  (forall fuel w _name _fname,
     cfgs w !! _name = None ->
     files fs !! expandUser fs _fname = None ->
     NewCfg fs fuel w _name _fname =
       Panic (bs "could not open file " ++ expandUser fs _fname)) /\
  (forall fuel cfg rdr f prev buf err rest fn,
     ReadBytes rdr NL = (buf, err, rest) ->
     lineIsInclude (cleanLine (removelast buf)) = true ->
     getFilename (TrimSpace (cleanLine (removelast buf))) = Ok fn ->
     files fs !! expandUser fs fn = None ->
     loadCfgFile fs (S fuel) cfg rdr f prev =
       Panic (bs "could not open file " ++ expandUser fs fn) /\
     loadBlock fs (S fuel) cfg rdr f prev =
       Panic (bs "could not open file " ++ expandUser fs fn)) /\
  (forall fuel cfg rdr f prev buf err rest f2 r2 msg,
     ReadBytes rdr NL = (buf, err, rest) ->
     lineIsInclude (cleanLine (removelast buf)) = true ->
     openInclude fs (cleanLine (removelast buf)) = Ok (f2, r2) ->
     loadCfgFile fs fuel cfg r2 f2 [] = Panic msg ->
     loadCfgFile fs (S fuel) cfg rdr f prev = Panic msg /\
     loadBlock fs (S fuel) cfg rdr f prev = Panic msg) /\
  (forall fuel cfg rdr f prev buf err rest msg,
     ReadBytes rdr NL = (buf, err, rest) ->
     classify (cleanLine (removelast buf)) = KNew ->
     loadBlock fs fuel (newBlock (getBlockname (cleanLine (removelast buf))) f)
               rest f [] = Panic msg ->
     loadCfgFile fs (S fuel) cfg rdr f prev = Panic msg /\
     loadBlock fs (S fuel) cfg rdr f prev = Panic msg) /\
  (forall fuel w _name _fname rdr msg,
     cfgs w !! _name = None ->
     files fs !! expandUser fs _fname = Some rdr ->
     loadCfgFile fs fuel (newBlock _name (expandUser fs _fname)) rdr
                 (expandUser fs _fname) [] = Panic msg ->
     NewCfg fs fuel w _name _fname = Panic msg) /\
  (forall fuel cfg (l rest f prev : bytes) c1 (r1 p1 : bytes) msg,
     NL ∉ l ->
     handled fs fuel cfg (cleanLine l) rest f prev = Ok (Some (c1, r1, p1)) ->
     (loadBlock fs fuel c1 r1 f p1 = Panic msg ->
      loadBlock fs (S fuel) cfg (l ++ NL :: rest) f prev = Panic msg) /\
     (loadCfgFile fs fuel c1 r1 f p1 = Panic msg ->
      loadCfgFile fs (S fuel) cfg (l ++ NL :: rest) f prev = Panic msg)) /\
  (forall F cfg (rdr f prev : bytes) c2 (r2 p2 : bytes) k msg,
     reaches fs f F cfg rdr prev c2 r2 p2 ->
     loadBlock fs k c2 r2 f p2 = Panic msg ->
     exists K, forall fuel, (K <= fuel)%nat ->
       loadBlock fs fuel cfg rdr f prev = Panic msg /\
       loadCfgFile fs fuel cfg rdr f prev = Panic msg) /\
  (forall F w (_name _fname rdr : bytes) c2 (r2 p2 : bytes) k msg,
     cfgs w !! _name = None ->
     files fs !! expandUser fs _fname = Some rdr ->
     reaches fs (expandUser fs _fname) F (newBlock _name (expandUser fs _fname)) rdr []
             c2 r2 p2 ->
     loadBlock fs k c2 r2 (expandUser fs _fname) p2 = Panic msg ->
     exists K, forall fuel, (K <= fuel)%nat ->
       NewCfg fs fuel w _name _fname = Panic msg).
Proof.
  split; [|split; [|split; [|split; [|split; [|split; [|split]]]]]].
  - intros fuel w n f Hn Hf. unfold NewCfg. rewrite Hn. simpl.
    rewrite lookup_insert_eq, lookup_insert_eq. now rewrite Hf.
  - intros fuel cfg rdr f prev buf err rest fn Hr Hi Hg Hm.
    assert (B : loadBlock fs (S fuel) cfg rdr f prev =
                Panic (bs "could not open file " ++ expandUser fs fn)).
    { cbn [loadBlock]. rewrite Hr, (include_line_read _ _ _ _ Hr Hi).
      rewrite (lineIsInclude_len _ Hi), Hi.
      now rewrite (openInclude_missing fs _ _ Hg Hm). }
    split; [|exact B]. rewrite loadCfgFile_loadBlock, B. reflexivity.
  - intros fuel cfg rdr f prev buf err rest f2 r2 msg Hr Hi Ho Hl.
    assert (B : loadBlock fs (S fuel) cfg rdr f prev = Panic msg).
    { cbn [loadBlock]. rewrite Hr, (include_line_read _ _ _ _ Hr Hi).
      rewrite (lineIsInclude_len _ Hi), Hi, Ho. simpl. now rewrite Hl. }
    split; [|exact B]. rewrite loadCfgFile_loadBlock, B. reflexivity.
  - intros fuel cfg rdr f prev buf err rest msg Hr Hk Hl.
    assert (B : loadBlock fs (S fuel) cfg rdr f prev = Panic msg).
    { cbn [loadBlock]. rewrite Hr. unfold classify in Hk.
      destruct buf as [|c buf'].
      { simpl in Hk. discriminate Hk. }
      rewrite (len_ltb_1_cons (c :: buf')) by discriminate.
      destruct (len (cleanLine (removelast (c :: buf'))) <? 1); [discriminate|].
      destruct (lineIsInclude _); [discriminate|].
      destruct (lineIsBlockEnd _); [discriminate|].
      destruct (lineIsBlockNew _).
      - now rewrite Hl.
      - destruct ((2 <? len _) && has_prefix (bs "+=") _); [discriminate|].
        destruct (has_prefix (bs "{") _); discriminate. }
    split; [|exact B]. rewrite loadCfgFile_loadBlock, B. reflexivity.
  - intros fuel w n f rdr msg Hn Hf Hl. unfold NewCfg. rewrite Hn. simpl.
    rewrite lookup_insert_eq, lookup_insert_eq, Hf. now rewrite Hl.
  - intros fuel cfg l rest f prev c1 r1 p1 msg Hl Hh. split; intros Hp.
    + now apply (loadBlock_panic_rest fuel cfg l rest f prev c1 r1 p1 msg).
    + rewrite loadCfgFile_loadBlock in Hp |- *.
      destruct (loadBlock fs fuel c1 r1 f p1) as [[c s]|m|] eqn:E; try discriminate Hp.
      injection Hp as ->.
      now rewrite (loadBlock_panic_rest fuel cfg l rest f prev c1 r1 p1 msg Hl Hh E).
  - intros F cfg rdr f prev c2 r2 p2 k msg Hr Hp.
    destruct (reaches_panic f F _ _ _ _ _ _ Hr k msg Hp) as [K HK].
    exists K. intros fuel Hf. split; [now apply HK|].
    now rewrite loadCfgFile_loadBlock, (HK fuel Hf).
  - intros F w n f rdr c2 r2 p2 k msg Hn Hf Hr Hp.
    destruct (reaches_panic _ F _ _ _ _ _ _ Hr k msg Hp) as [K HK].
    exists K. intros fuel Hfuel. unfold NewCfg. rewrite Hn. simpl.
    rewrite lookup_insert_eq, lookup_insert_eq, Hf.
    now rewrite loadCfgFile_loadBlock, (HK fuel Hfuel).
Qed.
End PanicReaches.

Lemma open_failure_panics_witness :
  NewCfg fs_nested 10 world0 (bs "app") (bs "~/app.cfg") =
    Panic (bs "could not open file /home/u/app.cfg") /\
  loadBlock fs_nested 3 (newBlock (bs "b") (bs "f")) text_include_missing (bs "f") [] =
    Panic (bs "could not open file /etc/missing.cfg") /\
  loadCfgFile fs_nested 6 (newBlock (bs "app") (bs "f")) text_include_inc (bs "f") [] =
    Panic (bs "could not open file /etc/missing.cfg") /\
  loadCfgFile fs_nested 5 (newBlock (bs "app") (bs "f")) text_inner (bs "f") [] =
    Panic (bs "could not open file /etc/missing.cfg") /\
  NewCfg fs_nested 10 world0 (bs "app") (bs "/etc/app.cfg") =
    Panic (bs "could not open file /etc/missing.cfg") /\
  (exists K, forall fuel, (K <= fuel)%nat ->
     NewCfg fs_late_include fuel world0 (bs "app") (bs "/etc/app.cfg") =
       Panic (bs "could not open file /etc/missing.cfg")).
Proof.
  destruct (open_failure_panics fs_nested) as (A & B & C & D & E & _).
  split; [|split; [|split; [|split; [|split]]]].
  - apply (A 10%nat world0 (bs "app") (bs "~/app.cfg")); vm_compute; reflexivity.
  - apply (proj2 (B 2%nat (newBlock (bs "b") (bs "f")) text_include_missing (bs "f") []
                    (bs "%include /etc/missing.cfg" ++ [NL]) false (bs "}" ++ [NL])
                    (bs "/etc/missing.cfg")
                    ltac:(vm_compute; reflexivity) ltac:(vm_compute; reflexivity)
                    ltac:(vm_compute; reflexivity) ltac:(vm_compute; reflexivity))).
  - apply (proj1 (C 5%nat (newBlock (bs "app") (bs "f")) text_include_inc (bs "f") []
                    (bs "%include /etc/inc.cfg" ++ [NL]) false []
                    (bs "/etc/inc.cfg") text_inner
                    (bs "could not open file /etc/missing.cfg")
                    ltac:(vm_compute; reflexivity) ltac:(vm_compute; reflexivity)
                    ltac:(vm_compute; reflexivity) ltac:(vm_compute; reflexivity))).
  - apply (proj1 (D 4%nat (newBlock (bs "app") (bs "f")) text_inner (bs "f") []
                    (bs "%block b" ++ [NL]) false
                    (bs "{" ++ NL :: bs "%include /etc/missing.cfg" ++ NL :: bs "}" ++ [NL])
                    (bs "could not open file /etc/missing.cfg")
                    ltac:(vm_compute; reflexivity) ltac:(vm_compute; reflexivity)
                    ltac:(vm_compute; reflexivity))).
  - apply (E 10%nat world0 (bs "app") (bs "/etc/app.cfg") text_include_inc
             (bs "could not open file /etc/missing.cfg")); vm_compute; reflexivity.
  - destruct (open_failure_panics fs_late_include) as (_ & _ & _ & _ & _ & _ & _ & R).
    apply (R 1%nat world0 (bs "app") (bs "/etc/app.cfg")
             (bs "a :: k=v;" ++ NL :: bs "%include /etc/missing.cfg" ++ [NL])
             (mkBlock (bs "app") (bs "/etc/app.cfg")
                {[ bs "a" := mkRow (bs "a") {[ bs "k" := bs "v" ]} ]} ∅)
             (bs "%include /etc/missing.cfg" ++ [NL]) (bs "a") 1%nat
             (bs "could not open file /etc/missing.cfg")).
    + vm_compute. reflexivity.
    + vm_compute. reflexivity.
    + apply (reaches_line fs_late_include (bs "/etc/app.cfg") 1
               (newBlock (bs "app") (bs "/etc/app.cfg")) (bs "a :: k=v;")
               (bs "%include /etc/missing.cfg" ++ [NL]) []
               (mkBlock (bs "app") (bs "/etc/app.cfg")
                  {[ bs "a" := mkRow (bs "a") {[ bs "k" := bs "v" ]} ]} ∅)
               (bs "%include /etc/missing.cfg" ++ [NL]) (bs "a")).
      * compute_done.
      * vm_compute. reflexivity.
      * apply reaches_here.
    + vm_compute. reflexivity.
Defined.

Example NewCfg_late_include :
  NewCfg fs_late_include 10 world0 (bs "app") (bs "/etc/app.cfg")
  = Panic (bs "could not open file /etc/missing.cfg").
Proof. vm_compute. reflexivity. Qed.

(** * Further properties of the code *)

(** ** Editing and looking up *)

Lemma EditEntry_tbls cfg (t r c v : bytes) :
  tbls (EditEntry cfg t r c v) =
  <[t := set_rows (default (mkBlock (name cfg) [] ∅ ∅) (tbls cfg !! t))
           (<[r := mkRow (row_name (default (mkRow r ∅)
                            (rows (default (mkBlock (name cfg) [] ∅ ∅) (tbls cfg !! t)) !! r)))
                         (<[c := v]> (cols (default (mkRow r ∅)
                            (rows (default (mkBlock (name cfg) [] ∅ ∅) (tbls cfg !! t)) !! r))))]>
              (rows (default (mkBlock (name cfg) [] ∅ ∅) (tbls cfg !! t))))]>
    (tbls cfg).
Proof.
  unfold EditEntry. simpl. destruct (tbls cfg !! t) as [tbl|]; simpl.
  - destruct (rows tbl !! r); reflexivity.
  - rewrite lookup_empty. reflexivity.
Qed.

Lemma EditEntry_other cfg (t r c v t' r' c' : bytes) :
  (t', r', c') <> (t, r, c) ->
  entry (EditEntry cfg t r c v) t' r' c' = entry cfg t' r' c'.
Proof.
  intros Hne. unfold entry. rewrite EditEntry_tbls.
  destruct (decide (t = t')) as [<-|Ht].
  2:{ now rewrite lookup_insert_ne. }
  rewrite lookup_insert_eq. cbn [mbind option_bind]. unfold self_entry at 1.
  rewrite rows_set_rows.
  destruct (decide (r = r')) as [<-|Hr].
  2:{ rewrite lookup_insert_ne by exact Hr.
      destruct (tbls cfg !! t) as [tbl|]; simpl; [reflexivity|].
      now rewrite lookup_empty. }
  rewrite lookup_insert_eq. cbn [mbind option_bind cols].
  assert (Hc : c <> c') by (intros ->; now apply Hne).
  rewrite lookup_insert_ne by exact Hc.
  destruct (tbls cfg !! t) as [tbl|]; simpl.
  - unfold self_entry. destruct (rows tbl !! r); simpl; [reflexivity|].
    apply lookup_empty.
  - rewrite lookup_empty. simpl. apply lookup_empty.
Qed.

(** X1: an edit is seen by the lookup of the entry it sets, leaves every
    other entry of the tree as it was, and touches neither the root's own
    rows nor its name. *)
Theorem EditEntry_lookup cfg (t r c v : bytes) :
  (forall d, Str (EditEntry cfg t r c v) t r c d = v) /\
  RowExists (EditEntry cfg t r c v) t r = true /\
  (forall t' r' c' d, (t', r', c') <> (t, r, c) ->
     Str (EditEntry cfg t r c v) t' r' c' d = Str cfg t' r' c' d) /\
  rows (EditEntry cfg t r c v) = rows cfg /\
  name (EditEntry cfg t r c v) = name cfg.
Proof.
  split; [|split; [|split; [|split]]]; try reflexivity.
  - intros d. unfold Str. rewrite EditEntry_tbls, lookup_insert_eq, rows_set_rows.
    rewrite lookup_insert_eq. cbn [cols]. now rewrite lookup_insert_eq.
  - unfold RowExists. rewrite EditEntry_tbls, lookup_insert_eq, rows_set_rows.
    now rewrite lookup_insert_eq.
  - intros t' r' c' d Hne. rewrite !Str_entry. now rewrite EditEntry_other.
Qed.

Lemma EditEntry_lookup_witness :
  Str (EditEntry sample_tree (bs "thirdblock") (bs "some-row") (bs "numProcs") (bs "16"))
      (bs "thirdblock") (bs "some-row") (bs "user") (bs "BLANK") = bs "abc".
Proof.
  rewrite (proj1 (proj2 (proj2 (EditEntry_lookup sample_tree (bs "thirdblock")
             (bs "some-row") (bs "numProcs") (bs "16"))))
             (bs "thirdblock") (bs "some-row") (bs "user") (bs "BLANK"))
    by (intros H; discriminate H).
  vm_compute. reflexivity.
Defined.

Lemma default_some {A} (d x : A) : default d (Some x) = x.
Proof. reflexivity. Qed.

Lemma set_tbls_eq cfg m m' : m = m' -> set_tbls cfg m = set_tbls cfg m'.
Proof. now intros ->. Qed.

Lemma EditEntry_set_tbls cfg (t r c v : bytes) :
  EditEntry cfg t r c v = set_tbls cfg (tbls (EditEntry cfg t r c v)).
Proof. reflexivity. Qed.

(** X2: writing the same entry twice keeps the last value only, and two
    edits of different entries give the same tree in either order. *)
Theorem EditEntry_overwrite_commute cfg (t r c v : bytes) :
  (forall v', EditEntry (EditEntry cfg t r c v) t r c v' = EditEntry cfg t r c v') /\
  (forall t' r' c' v', (t', r', c') <> (t, r, c) ->
     EditEntry (EditEntry cfg t r c v) t' r' c' v' =
     EditEntry (EditEntry cfg t' r' c' v') t r c v).
Proof.
  split.
  - intros v'. rewrite (EditEntry_set_tbls (EditEntry cfg t r c v)).
    rewrite (EditEntry_set_tbls cfg t r c v').
    rewrite (EditEntry_set_tbls cfg t r c v) at 1. rewrite set_tbls_set_tbls.
    apply set_tbls_eq. rewrite (EditEntry_tbls (EditEntry cfg t r c v)).
    rewrite !EditEntry_tbls, lookup_insert_eq, !default_some.
    rewrite rows_set_rows, set_rows_set_rows, lookup_insert_eq, !default_some.
    cbn [row_name cols]. now rewrite !insert_insert_eq.
  - intros t' r' c' v' Hne.
    rewrite (EditEntry_set_tbls (EditEntry cfg t r c v)).
    rewrite (EditEntry_set_tbls (EditEntry cfg t' r' c' v')).
    rewrite (EditEntry_set_tbls cfg t r c v) at 1.
    rewrite (EditEntry_set_tbls cfg t' r' c' v') at 1.
    rewrite !set_tbls_set_tbls. apply set_tbls_eq.
    rewrite (EditEntry_tbls (EditEntry cfg t r c v)).
    rewrite (EditEntry_tbls (EditEntry cfg t' r' c' v')).
    change (name (EditEntry cfg t r c v)) with (name cfg).
    change (name (EditEntry cfg t' r' c' v')) with (name cfg).
    rewrite !EditEntry_tbls.
    destruct (decide (t = t')) as [<-|Ht].
    2:{ rewrite (lookup_insert_ne _ t t') by exact Ht.
        rewrite (lookup_insert_ne _ t' t) by (intros E; now apply Ht).
        now apply insert_insert_ne. }
    rewrite !lookup_insert_eq, !default_some.
    rewrite !rows_set_rows, !set_rows_set_rows, !insert_insert_eq. f_equal. f_equal.
    destruct (decide (r = r')) as [<-|Hr].
    2:{ rewrite (lookup_insert_ne _ r r') by exact Hr.
        rewrite (lookup_insert_ne _ r' r) by (intros E; now apply Hr).
        now apply insert_insert_ne. }
    rewrite !lookup_insert_eq, !default_some. cbn [row_name cols].
    rewrite !insert_insert_eq. f_equal. f_equal.
    apply insert_insert_ne. intros ->. now apply Hne.
Qed.

Lemma EditEntry_overwrite_commute_witness :
  EditEntry (EditEntry sample_tree (bs "b") (bs "r") (bs "c") (bs "1"))
            (bs "b") (bs "r") (bs "d") (bs "2") =
  EditEntry (EditEntry sample_tree (bs "b") (bs "r") (bs "d") (bs "2"))
            (bs "b") (bs "r") (bs "c") (bs "1").
Proof.
  apply (proj2 (EditEntry_overwrite_commute sample_tree (bs "b") (bs "r") (bs "c") (bs "1"))).
  intros H. discriminate H.
Defined.

(** ** Nested lookups *)

Lemma GetBlock_app cfg (p q : list bytes) :
  GetBlock cfg (p ++ q) = (b ← GetBlock cfg p; GetBlock b q).
Proof.
  revert cfg. induction p as [|x p IH]; intros cfg; simpl; [reflexivity|].
  destruct (tbls cfg !! x); [apply IH | reflexivity].
Qed.

Lemma nested_of_resolve {A} (self : CfgBlock -> A) (plain : CfgBlock -> bytes -> A)
      (d : A) cfg (p : list bytes) :
  (forall b t, plain b t = match tbls b !! t with Some tb => self tb | None => d end) ->
  nested_of self plain d cfg p =
    match GetBlock cfg p with Some b => self b | None => d end.
Proof.
  intros Hlink. unfold nested_of. destruct p as [|a p'] eqn:Ep; [reflexivity|].
  rewrite <- Ep. assert (Hne : p <> []) by (subst; discriminate).
  destruct (Nat.eqb_spec (length p) 0) as [E0|_].
  { destruct p; [congruence | discriminate]. }
  assert (E : GetBlock cfg p =
              (b ← GetBlock cfg (take (length p - 1) p);
               tbls b !! nth (length p - 1) p [])).
  { rewrite (path_split p Hne) at 1. apply GetBlock_snoc. }
  rewrite E.
  destruct (Nat.eqb_spec (length p - 1) 0) as [E1|E1].
  - rewrite E1. simpl. apply Hlink.
  - destruct (GetBlock cfg (take (length p - 1) p)) as [cfg1|]; [|reflexivity].
    simpl. apply Hlink.
Qed.

Lemma nested_of_app {A} (self : CfgBlock -> A) (plain : CfgBlock -> bytes -> A)
      (d : A) cfg (p q : list bytes) :
  (forall b t, plain b t = match tbls b !! t with Some tb => self tb | None => d end) ->
  nested_of self plain d cfg (p ++ q) =
    match GetBlock cfg p with
    | Some b => nested_of self plain d b q
    | None => d
    end.
Proof.
  intros Hlink. rewrite (nested_of_resolve self plain d cfg (p ++ q) Hlink), GetBlock_app.
  destruct (GetBlock cfg p) as [b|]; simpl; [|reflexivity].
  now rewrite (nested_of_resolve self plain d b q Hlink).
Qed.

Section NestedFacts.
Variable int_bits : Z.
Variable Sscanf_d : bytes -> option Z.
Variable float64 : Type.
Variable Sscanf_g : bytes -> option float64.

(** X3: a nested lookup over the path [p ++ q] is the nested lookup over
    [q] from the block that [GetBlock] resolves [p] to, and the default
    when [GetBlock] fails; so looking up from the parent with the plain
    form, from the block itself with the self form, or from the root with
    the nested form gives the same value. This holds for the string, int,
    int64 and float64 forms. *)
Theorem nested_lookup_by_GetBlock cfg (p q : list bytes) (r c : bytes) :
  (forall d, NestedStr cfg (p ++ q) r c d =
     match GetBlock cfg p with Some b => NestedStr b q r c d | None => d end) /\
  (forall d, NestedInt int_bits Sscanf_d cfg (p ++ q) r c d =
     match GetBlock cfg p with Some b => NestedInt int_bits Sscanf_d b q r c d | None => d end) /\
  (forall d, NestedInt64 int_bits Sscanf_d cfg (p ++ q) r c d =
     match GetBlock cfg p with Some b => NestedInt64 int_bits Sscanf_d b q r c d | None => d end) /\
  (forall d, NestedFloat64 float64 Sscanf_g cfg (p ++ q) r c d =
     match GetBlock cfg p with
     | Some b => NestedFloat64 float64 Sscanf_g b q r c d
     | None => d
     end) /\
  (forall b t d, NestedStr b [t] r c d = Str b t r c d) /\
  (forall b d, NestedStr b [] r c d = SelfStr b r c d).
Proof.
  repeat split; try reflexivity; intros d.
  - apply (nested_of_app (fun b => SelfStr b r c d) (fun b t => Str b t r c d) d).
    intros b t. unfold Str, SelfStr. destruct (tbls b !! t); reflexivity.
  - apply (nested_of_app (fun b => SelfInt int_bits Sscanf_d b r c d)
             (fun b t => Int int_bits Sscanf_d b t r c d) d).
    intros b t. unfold Int, SelfInt. destruct (tbls b !! t); reflexivity.
  - apply (nested_of_app (fun b => SelfInt64 int_bits Sscanf_d b r c d)
             (fun b t => Int64 int_bits Sscanf_d b t r c d) d).
    intros b t. unfold Int64, SelfInt64. destruct (tbls b !! t); reflexivity.
  - apply (nested_of_app (fun b => SelfFloat64 float64 Sscanf_g b r c d)
             (fun b t => Float64 float64 Sscanf_g b t r c d) d).
    intros b t. unfold Float64, SelfFloat64. destruct (tbls b !! t); reflexivity.
Qed.
End NestedFacts.

(** ** Listing names *)

Lemma fill_by_index_from (keys pre : list bytes) (x : bytes) :
  foldl (fun st kk => (<[st.2 := kk]> st.1, S st.2))
        (pre ++ replicate (length keys) x, length pre) keys =
  (pre ++ keys, length (pre ++ keys)).
Proof.
  revert pre. induction keys as [|k keys IH]; intros pre.
  - simpl. now rewrite !app_nil_r.
  - simpl. replace (<[length pre := k]> (pre ++ x :: replicate (length keys) x))
      with ((pre ++ [k]) ++ replicate (length keys) x).
    + replace (S (length pre)) with (length (pre ++ [k]))
        by (rewrite length_app; simpl; lia).
      rewrite IH, <- !app_assoc. reflexivity.
    + pose proof (insert_app_r pre (x :: replicate (length keys) x) 0 k) as E.
      rewrite Nat.add_0_r in E. rewrite E. simpl. now rewrite <- app_assoc.
Qed.

Lemma fill_by_index_keys (keys : list bytes) :
  fill_by_index keys (replicate (length keys) []) = keys.
Proof.
  unfold fill_by_index.
  pose proof (fill_by_index_from keys [] []) as E. simpl in E. now rewrite E.
Qed.

Lemma append_all_keys (keys acc : list bytes) : append_all keys acc = acc ++ keys.
Proof.
  unfold append_all. revert acc. induction keys as [|k keys IH]; intros acc; simpl.
  - now rewrite app_nil_r.
  - now rewrite IH, <- app_assoc.
Qed.

Lemma ranges_keys {V} (m : gmap bytes V) (l : list (bytes * V)) :
  ranges m l ->
  NoDup l.*1 /\ length l.*1 = size m /\ forall k, k ∈ l.*1 <-> is_Some (m !! k).
Proof.
  intros H. split; [now apply (ranges_NoDup m)|]. split.
  - rewrite length_fmap. unfold ranges in H. rewrite H. apply length_map_to_list.
  - intros k. rewrite list_elem_of_fmap. split.
    + intros ([k' v] & -> & Hin). exists v. now apply (ranges_elem m l).
    + intros [v Hv]. exists (k, v). split; [reflexivity|].
      unfold ranges in H. rewrite H. now apply elem_of_map_to_list.
Qed.

(** X4: whatever the order of the map iteration, [GetBlocks], [GetRows]
    and [GetCols] return each name once and only the names present: the
    child blocks of the tree, the rows that [RowExists] reports, the
    columns that hold a value. For a block or a row that is absent the
    list is empty, and each call has a result. *)
Theorem names_listed cfg :
  (forall l, GetBlocks cfg l ->
     NoDup l /\ length l = size (tbls cfg) /\
     forall k, k ∈ l <-> is_Some (tbls cfg !! k)) /\
  (forall t l, GetRows cfg t l ->
     NoDup l /\ forall k, k ∈ l <-> RowExists cfg t k = true) /\
  (forall t r l, GetCols cfg t r l ->
     NoDup l /\ forall k, k ∈ l <-> is_Some (entry cfg t r k)) /\
  (exists l, GetBlocks cfg l) /\
  (forall t, exists l, GetRows cfg t l) /\
  (forall t r, exists l, GetCols cfg t r l).
Proof.
  split; [|split; [|split; [|split; [|split]]]].
  - intros l H. destruct H as [l Hr].
    destruct (ranges_keys _ _ Hr) as (Hnd & Hlen & Hin).
    rewrite <- Hlen, fill_by_index_keys. auto.
  - intros t l H. unfold RowExists. destruct H as [tbl l Ht Hr|Ht].
    + destruct (ranges_keys _ _ Hr) as (Hnd & _ & Hin).
      rewrite append_all_keys, Ht. simpl. split; [exact Hnd|].
      intros k. rewrite Hin. destruct (rows tbl !! k); split; intros H;
        try reflexivity; try discriminate; eauto. now destruct H.
    + rewrite Ht. split; [constructor|]. intros k. split; [|discriminate].
      intros H. inversion H.
  - intros t r l H. unfold entry, self_entry.
    destruct H as [tbl row l Ht Hrow Hr|tbl Ht Hrow|Ht].
    + destruct (ranges_keys _ _ Hr) as (Hnd & _ & Hin).
      rewrite append_all_keys, Ht. simpl. rewrite Hrow. simpl.
      split; [exact Hnd | exact Hin].
    + rewrite Ht. simpl. rewrite Hrow. simpl. split; [constructor|].
      intros k. split; [intros H; inversion H | intros [? H]; discriminate].
    + rewrite Ht. simpl. split; [constructor|].
      intros k. split; [intros H; inversion H | intros [? H]; discriminate].
  - eexists. apply (GetBlocks_range cfg (map_to_list (tbls cfg))).
    unfold ranges. reflexivity.
  - intros t. destruct (tbls cfg !! t) as [tbl|] eqn:Ht.
    + eexists. apply (GetRows_found cfg t tbl (map_to_list (rows tbl)) Ht).
      unfold ranges. reflexivity.
    + eexists. now apply GetRows_missing.
  - intros t r. destruct (tbls cfg !! t) as [tbl|] eqn:Ht.
    + destruct (rows tbl !! r) as [row|] eqn:Hrow.
      * eexists. apply (GetCols_found cfg t r tbl row (map_to_list (cols row)) Ht Hrow).
        unfold ranges. reflexivity.
      * eexists. now apply (GetCols_no_row cfg t r tbl).
    + eexists. now apply GetCols_no_tbl.
Qed.

Lemma names_listed_witness :
  NoDup (fill_by_index (map_to_list (tbls sample_tree)).*1
           (replicate (size (tbls sample_tree)) [])) /\
  (forall k, k ∈ append_all
                (map_to_list (rows (default (newBlock [] [])
                   (tbls sample_tree !! bs "thirdblock")))).*1 [] <->
             RowExists sample_tree (bs "thirdblock") k = true) /\
  (forall k, k ∈ append_all
                (map_to_list (cols (default (mkRow [] ∅)
                   (rows (default (newBlock [] [])
                      (tbls sample_tree !! bs "thirdblock")) !! bs "some-row")))).*1 [] <->
             is_Some (entry sample_tree (bs "thirdblock") (bs "some-row") k)).
Proof.
  destruct (names_listed sample_tree) as (A & B & C & _).
  split; [|split].
  - apply (A _ (GetBlocks_range sample_tree (map_to_list (tbls sample_tree))
                  ltac:(unfold ranges; reflexivity))).
  - apply (B (bs "thirdblock") _
             (GetRows_found sample_tree (bs "thirdblock") _ (map_to_list _)
                ltac:(vm_compute; reflexivity) ltac:(unfold ranges; reflexivity))).
  - apply (C (bs "thirdblock") (bs "some-row") _
             (GetCols_found sample_tree (bs "thirdblock") (bs "some-row") _ _
                (map_to_list _)
                ltac:(vm_compute; reflexivity) ltac:(vm_compute; reflexivity)
                ltac:(unfold ranges; reflexivity))).
Defined.

(** ** Cleaning a line *)

Lemma Index_cons_hit (a : ascii) (s sep : bytes) :
  has_prefix sep (a :: s) = true -> Index (a :: s) sep = 0.
Proof. intros H. unfold Index. now rewrite H. Qed.

Lemma Index_byte_found (c : ascii) (s : bytes) :
  0 <= Index s [c] ->
  (c ∉ slice_to s (Index s [c])) /\
  s = slice_to s (Index s [c]) ++ c :: slice_from s (Index s [c] + 1).
Proof.
  induction s as [|a s IH]; intros H.
  { simpl in H. lia. }
  destruct (has_prefix [c] (a :: s)) eqn:E.
  - rewrite (Index_cons_hit a s [c] E).
    simpl in E. apply andb_prop in E as [E _]. apply Ascii.eqb_eq in E. subst a.
    split; [apply not_elem_of_nil | reflexivity].
  - rewrite (Index_cons_miss a s [c] E) in H |- *.
    pose proof (Index_lower s [c]).
    destruct (Z.ltb_spec (Index s [c]) 0); [lia|].
    destruct (IH ltac:(lia)) as [Hn Hs].
    unfold slice_to, slice_from in *.
    replace (Z.to_nat (Index s [c] + 1)) with (S (Z.to_nat (Index s [c]))) by lia.
    replace (Z.to_nat (Index s [c] + 1 + 1)) with (S (Z.to_nat (Index s [c] + 1))) by lia.
    simpl. split.
    + apply not_elem_of_cons. split; [|exact Hn].
      simpl in E. intros ->. now rewrite Ascii.eqb_refl in E.
    + f_equal. exact Hs.
Qed.

Lemma Index_byte_none (c : ascii) (s : bytes) : Index s [c] < 0 -> c ∉ s.
Proof.
  induction s as [|a s IH]; intros H; [apply not_elem_of_nil|].
  destruct (has_prefix [c] (a :: s)) eqn:E.
  { rewrite (Index_cons_hit a s [c] E) in H. lia. }
  rewrite (Index_cons_miss a s [c] E) in H. pose proof (Index_lower s [c]).
  destruct (Z.ltb_spec (Index s [c]) 0); [|lia].
  apply not_elem_of_cons. split; [|now apply IH].
  simpl in E. intros ->. now rewrite Ascii.eqb_refl in E.
Qed.

Lemma TrimLeft_suffix (s cut : bytes) : exists a, s = a ++ TrimLeft s cut.
Proof.
  induction s as [|c s [a IH]]; simpl.
  - now exists [].
  - destruct (in_cutset c cut); [|now exists []].
    exists (c :: a). simpl. now f_equal.
Qed.

Lemma TrimRight_prefix (s cut : bytes) : exists b, s = TrimRight s cut ++ b.
Proof.
  induction s as [|c s [b IH]]; simpl.
  - now exists [].
  - destruct (TrimRight s cut) as [|x t] eqn:E.
    + destruct (in_cutset c cut).
      * exists (c :: s). reflexivity.
      * exists b. simpl in *. now f_equal.
    + exists b. simpl. f_equal. exact IH.
Qed.

Lemma TrimLeft_head_out (s cut : bytes) a t :
  TrimLeft s cut = a :: t -> in_cutset a cut = false.
Proof.
  induction s as [|c s IH]; simpl; [discriminate|].
  destruct (in_cutset c cut) eqn:E; [exact IH|]. intros [= <- _]. exact E.
Qed.

Lemma TrimLeft_idem (s cut : bytes) : TrimLeft (TrimLeft s cut) cut = TrimLeft s cut.
Proof.
  destruct (TrimLeft s cut) as [|a t] eqn:E; [reflexivity|].
  simpl. now rewrite (TrimLeft_head_out s cut a t E).
Qed.

Lemma TrimRight_idem (s cut : bytes) : TrimRight (TrimRight s cut) cut = TrimRight s cut.
Proof.
  induction s as [|c s IH]; [reflexivity|]. simpl.
  destruct (TrimRight s cut) as [|x t] eqn:E.
  - destruct (in_cutset c cut) eqn:Ec; simpl; [reflexivity | now rewrite Ec].
  - simpl in IH |- *. now rewrite IH.
Qed.

Lemma TrimLeft_TrimRight (y cut : bytes) :
  TrimLeft y cut = y -> TrimLeft (TrimRight y cut) cut = TrimRight y cut.
Proof.
  destruct y as [|a y]; [reflexivity|]. intros H.
  pose proof (TrimLeft_fixed_head a y cut H) as Ha. cbn [TrimRight].
  destruct (TrimRight y cut); rewrite ?Ha; cbn [TrimLeft]; now rewrite Ha.
Qed.

Lemma cleanLine_facts (s : bytes) :
  ("#"%char ∉ cleanLine s) /\
  TrimLeft (cleanLine s) blanks = cleanLine s /\
  TrimRight (cleanLine s) blanks = cleanLine s /\
  (exists a b, s = a ++ cleanLine s ++ b).
Proof.
  assert (Hcut : exists s0 b0, s = s0 ++ b0 /\ ("#"%char ∉ s0) /\
                   cleanLine s = TrimRight (TrimLeft s0 blanks) blanks).
  { unfold cleanLine. change (bs "#") with ["#"%char].
    destruct (Z.leb_spec 0 (Index s ["#"%char])) as [H|H].
    - destruct (Index_byte_found "#" s H) as [Hn Hs].
      exists (slice_to s (Index s ["#"%char])), ("#"%char :: slice_from s (Index s ["#"%char] + 1)).
      auto.
    - exists s, []. rewrite app_nil_r. split; [reflexivity|]. split; [|reflexivity].
      now apply Index_byte_none. }
  destruct Hcut as (s0 & b0 & Hs & Hh & Hc).
  destruct (TrimLeft_suffix s0 blanks) as [a Ha].
  destruct (TrimRight_prefix (TrimLeft s0 blanks) blanks) as [b Hb].
  split; [|split; [|split]].
  - rewrite Hc. intros Hin. apply Hh. rewrite Ha, Hb.
    apply elem_of_app. right. apply elem_of_app. now left.
  - rewrite Hc. apply TrimLeft_TrimRight, TrimLeft_idem.
  - rewrite Hc. apply TrimRight_idem.
  - exists a, (b ++ b0). rewrite Hc. rewrite Hs, Ha at 1. rewrite Hb at 1.
    now rewrite <- !app_assoc.
Qed.

Lemma cleanLine_idem (s : bytes) : cleanLine (cleanLine s) = cleanLine s.
Proof.
  destruct (cleanLine_facts s) as (H1 & H2 & H3 & _).
  rewrite (cleanLine_no_hash _ H1), H2. exact H3.
Qed.

(** X5: a cleaned line holds no [#] and has no blank at either end,
    cleaning it again changes nothing, and it is a piece of the line it
    comes from. *)
Theorem cleanLine_cleaned (s : bytes) :
  ("#"%char ∉ cleanLine s) /\
  TrimLeft (cleanLine s) blanks = cleanLine s /\
  TrimRight (cleanLine s) blanks = cleanLine s /\
  cleanLine (cleanLine s) = cleanLine s /\
  (exists a b, s = a ++ cleanLine s ++ b).
Proof.
  destruct (cleanLine_facts s) as (H1 & H2 & H3 & H4).
  split; [exact H1|]. split; [exact H2|]. split; [exact H3|].
  split; [apply cleanLine_idem | exact H4].
Qed.

(** ** Expanding the home directory *)

(** X6: [expandUser] leaves a path that does not start with [~/] as it
    is, and replaces that leading [~/], and no later one, by the home
    directory and a slash. *)
Theorem expandUser_cases fs :
  (forall f : bytes, has_prefix (bs "~/") f = false -> expandUser fs f = f) /\
  (forall p : bytes, expandUser fs (bs "~/" ++ p) = HomeDir fs ++ bs "/" ++ p).
Proof.
  split.
  - intros f H. unfold expandUser. destruct (len f <? 2); [reflexivity|].
    replace (bytes_Equal (slice_to f 2) (bs "~/")) with false; [reflexivity|].
    symmetry. apply bool_decide_eq_false. intros E.
    destruct f as [|a [|b f]]; try discriminate E.
    unfold slice_to in E. simpl in E. injection E as -> ->.
    simpl in H. discriminate H.
  - intros p. unfold expandUser.
    replace (len (bs "~/" ++ p) <? 2) with false.
    2:{ symmetry. apply Z.ltb_ge. rewrite len_app. change (len (bs "~/")) with 2.
        pose proof (len_nonneg p). lia. }
    change (slice_to (bs "~/" ++ p) 2) with (bs "~/").
    change (bytes_Equal (bs "~/") (bs "~/")) with true. cbv iota. simpl negb. cbv iota.
    unfold Replace1. change (Index (bs "~/" ++ p) (bs "~/")) with 0.
    change (0 <? 0) with false. cbv iota.
    change (slice_to (bs "~/" ++ p) 0) with (@nil ascii).
    change (slice_from (bs "~/" ++ p) (0 + len (bs "~/"))) with p.
    simpl. now rewrite <- app_assoc.
Qed.

Lemma expandUser_cases_witness :
  expandUser fs_empty (bs "/etc/~/app.cfg") = bs "/etc/~/app.cfg".
Proof.
  apply (proj1 (expandUser_cases fs_empty)). vm_compute. reflexivity.
Defined.

(** ** Splitting a value *)

Lemma Join_cons (x : bytes) (l : list bytes) (sep : bytes) :
  l <> [] -> Join (x :: l) sep = x ++ sep ++ Join l sep.
Proof.
  destruct l as [|y l]; [congruence|]. intros _. unfold Join.
  rewrite fmap_cons. simpl concat. now rewrite <- app_assoc.
Qed.

Lemma split_loop_nonempty k s sep : split_loop k s sep <> [].
Proof.
  pose proof (split_loop_length k s sep) as H. destruct (split_loop k s sep);
    [simpl in H; lia | discriminate].
Qed.

Lemma split_loop_Join (c : ascii) (k : nat) :
  forall s : bytes, (length s <= k)%nat ->
    Join (split_loop k s [c]) [c] = s /\ Forall (fun p => c ∉ p) (split_loop k s [c]).
Proof.
  induction k as [|k IH]; intros s Hs.
  - destruct s; [|simpl in Hs; lia]. simpl. split; [reflexivity|].
    constructor; [apply not_elem_of_nil | constructor].
  - cbn [split_loop]. destruct (Z.ltb_spec (Index s [c]) 0) as [Hm|Hm].
    + split; [unfold Join; simpl; apply app_nil_r|].
      constructor; [now apply Index_byte_none | constructor].
    + destruct (Index_byte_found c s Hm) as [Hn Hsplit].
      change (len [c]) with 1.
      assert (Hlen : (length (slice_from s (Index s [c] + 1)) <= k)%nat).
      { apply (f_equal (@length ascii)) in Hsplit. rewrite length_app in Hsplit.
        simpl in Hsplit. lia. }
      destruct (IH _ Hlen) as [HJ HF]. split.
      * rewrite Join_cons by apply split_loop_nonempty. rewrite HJ.
        symmetry. exact Hsplit.
      * constructor; assumption.
Qed.

(** X7: the pieces that [Split] returns hold no comma, and joined with
    commas they give back the value that [Str] returns: nothing of the
    value is lost and empty pieces are kept. *)
Theorem Split_Join cfg (t r c d : bytes) :
  Join (Split cfg t r c d) (bs ",") = Str cfg t r c d /\
  Forall (fun p => ","%char ∉ p) (Split cfg t r c d).
Proof.
  unfold Split, bytes_Split. change (bs ",") with [","%char].
  apply split_loop_Join. lia.
Qed.

(** X8: [Expandlist] returns no string twice; when its four arguments are
    non-empty, a string is in the result exactly when it is a piece of the
    value that the target row holds under one of the listed keys. *)
Theorem Expandlist_set cfg (b r c r2 : bytes) :
  NoDup (Expandlist cfg b r c r2) /\
  (b <> [] -> r <> [] -> c <> [] -> r2 <> [] ->
   forall k, k ∈ Expandlist cfg b r c r2 <->
     exists boxtype, boxtype ∈ Split cfg b r c [] /\ k ∈ Split cfg b r2 boxtype []).
Proof.
  split.
  - unfold Expandlist.
    repeat (match goal with |- context [len ?s <=? 0] => destruct (len s <=? 0) end;
            [constructor|]).
    apply NoDup_fst_map_to_list.
  - intros Hb Hr Hc Hr2 k. now apply Expandlist_elem.
Qed.

Lemma Expandlist_set_witness :
  bs "c" ∈ Expandlist tree_lists (bs "block") (bs "row") (bs "col") (bs "row2").
Proof.
  apply (proj2 (Expandlist_set tree_lists (bs "block") (bs "row") (bs "col") (bs "row2")));
    try discriminate.
  exists (bs "y"). split.
  - replace (Split tree_lists (bs "block") (bs "row") (bs "col") [])
      with [bs "x"; bs "y"] by (vm_compute; reflexivity).
    right. left.
  - replace (Split tree_lists (bs "block") (bs "row2") (bs "y") [])
      with [bs "b"; bs "c"] by (vm_compute; reflexivity).
    right. left.
Defined.

Example Expandlist_example :
  forall k, k ∈ Expandlist tree_lists (bs "block") (bs "row") (bs "col") (bs "row2") <->
            k ∈ [bs "a"; bs "b"; bs "c"].
Proof.
  intros k.
  assert (E : exists l, Expandlist tree_lists (bs "block") (bs "row") (bs "col") (bs "row2") = l
                        /\ l ≡ₚ [bs "a"; bs "b"; bs "c"]).
  { eexists. split; [vm_compute; reflexivity|].
    first [reflexivity
          | apply Permutation_swap
          | symmetry; apply Permutation_cons_append
          | apply perm_skip, Permutation_swap
          | etransitivity; [apply Permutation_swap | apply perm_skip, Permutation_swap]
          | etransitivity; [apply perm_skip, Permutation_swap | apply Permutation_swap]
          | apply Permutation_rev ]. }
  destruct E as (l & -> & Hp). now rewrite Hp.
Qed.

(** ** What the loader keeps, and when it returns *)

Lemma grows_refl cfg : grows cfg cfg.
Proof. repeat split; reflexivity. Qed.

Lemma grows_trans c1 c2 c3 : grows c1 c2 -> grows c2 c3 -> grows c1 c3.
Proof.
  intros (A1 & A2 & A3 & A4) (B1 & B2 & B3 & B4). repeat split.
  - now rewrite B1. - now rewrite B2.
  - now transitivity (dom (rows c2)). - now transitivity (dom (tbls c2)).
Qed.

Lemma grows_set_rows cfg k row : grows cfg (set_rows cfg (<[k := row]> (rows cfg))).
Proof. repeat split; try reflexivity. simpl. apply dom_insert_subseteq. Qed.

Lemma grows_set_tbls cfg k blk : grows cfg (set_tbls cfg (<[k := blk]> (tbls cfg))).
Proof. repeat split; try reflexivity. simpl. apply dom_insert_subseteq. Qed.

Lemma loadRow_grows cfg (l f p : bytes) : grows cfg (loadRow cfg l f p).1.
Proof.
  unfold loadRow.
  destruct (if len p <? 1 then _ else _) as [[[n d] add]|]; simpl;
    [apply grows_set_rows | apply grows_refl].
Qed.

Section LoaderKeeps.
Variable fs : FS.

Lemma iteration_grows (k : nat) cfg (buf rdr f prev : bytes) next c rest :
  (forall cfg r f p c, loadCfgFile fs k cfg r f p = Ok c -> grows cfg c) ->
  (forall cfg r f p c rest,
     loadBlock fs k cfg r f p = Ok (c, rest) -> grows cfg c /\ rest `suffix_of` r) ->
  (forall cfg1 r1 p1 c rest,
     next cfg1 r1 p1 = Ok (c, rest) -> grows cfg1 c /\ rest `suffix_of` r1) ->
  iteration fs k cfg buf rdr f prev next = Ok (c, rest) ->
  grows cfg c /\ rest `suffix_of` rdr.
Proof.
  intros IHf IHb Hnext H. unfold iteration in H. destruct (classify buf).
  - exact (Hnext _ _ _ _ _ H).
  - destruct (openInclude fs buf) as [[f2 r2]|m|]; cbn [mbind result_bind] in H;
      try discriminate.
    destruct (loadCfgFile fs k cfg r2 f2 []) as [c1|m|] eqn:E;
      cbn [mbind result_bind] in H; try discriminate.
    destruct (Hnext _ _ _ _ _ H) as [G S]. split; [|exact S].
    exact (grows_trans _ _ _ (IHf _ _ _ _ _ E) G).
  - injection H as <- <-. split; [apply grows_refl | reflexivity].
  - destruct (loadBlock fs k (newBlock (getBlockname buf) f) rdr f []) as [[blk r1]|m|] eqn:E;
      cbn [mbind result_bind] in H; try discriminate.
    destruct (IHb _ _ _ _ _ _ E) as [_ S1]. destruct (Hnext _ _ _ _ _ H) as [G S].
    split; [|now transitivity r1].
    exact (grows_trans _ _ _ (grows_set_tbls cfg _ blk) G).
  - pose proof (loadRow_grows cfg (slice_from buf 2) f prev) as G1.
    destruct (loadRow cfg (slice_from buf 2) f prev) as [cfg1 prev1].
    destruct (Hnext _ _ _ _ _ H) as [G S]. split; [|exact S].
    exact (grows_trans _ _ _ G1 G).
  - exact (Hnext _ _ _ _ _ H).
  - pose proof (loadRow_grows cfg buf f []) as G1.
    destruct (loadRow cfg buf f []) as [cfg1 prev1].
    destruct (Hnext _ _ _ _ _ H) as [G S]. split; [|exact S].
    exact (grows_trans _ _ _ G1 G).
Qed.

Lemma loadBlock_grows (k : nat) :
  forall cfg (rdr f prev : bytes) c rest,
  loadBlock fs k cfg rdr f prev = Ok (c, rest) ->
  grows cfg c /\ rest `suffix_of` rdr.
Proof.
  induction k as [|k IH]; intros cfg rdr f prev c rest H; [discriminate H|].
  assert (IHf : forall cfg r f p c, loadCfgFile fs k cfg r f p = Ok c -> grows cfg c).
  { intros c0 r0 f0 p0 c1 H0. rewrite loadCfgFile_loadBlock in H0.
    destruct (loadBlock fs k c0 r0 f0 p0) as [[c2 s2]|m|] eqn:E; try discriminate H0.
    injection H0 as <-. exact (proj1 (IH _ _ _ _ _ _ E)). }
  destruct (stream_cases rdr) as [(l & rest0 & Hl & ->)|Hn].
  - rewrite (loadBlock_line fs _ cfg l rest0 f prev Hl) in H.
    assert (Hnext : forall cfg1 (r1 p1 : bytes) c rest,
              (fun cfg rdr prev => loadBlock fs k cfg rdr f prev) cfg1 r1 p1 = Ok (c, rest) ->
              grows cfg1 c /\ rest `suffix_of` r1).
    { intros c1 r1 p1 c2 rest2. apply IH. }
    destruct (iteration_grows k cfg _ rest0 f prev _ c rest IHf IH Hnext H) as [G S].
    split; [exact G|]. transitivity rest0; [exact S|].
    exists (l ++ [NL]). now rewrite <- app_assoc.
  - destruct rdr as [|a rdr'] eqn:Es.
    { injection H as <- <-. split; [apply grows_refl | reflexivity]. }
    rewrite <- Es in *. assert (Hne : rdr <> []) by (subst; discriminate).
    rewrite (loadBlock_eof fs _ cfg rdr f prev Hn Hne) in H.
    assert (Hnext : forall cfg1 (r1 p1 : bytes) c rest,
              (fun (cfg : CfgBlock) (rdr _ : bytes) => @Ok (CfgBlock * bytes) (cfg, rdr))
                cfg1 r1 p1 = Ok (c, rest) ->
              grows cfg1 c /\ rest `suffix_of` r1).
    { intros c1 r1 p1 c2 rest2 E0. injection E0 as <- <-.
      split; [apply grows_refl | reflexivity]. }
    destruct (iteration_grows k cfg _ [] f prev _ c rest IHf IH Hnext H) as [G S].
    split; [exact G|]. transitivity (@nil ascii); [exact S | apply suffix_nil].
Qed.

(** X9: loading never takes a name away. The block returned by
    [loadBlock], [loadCfgFile] or [loadRow] has the name and the file of
    the block it was called on and at least its row names and child block
    names, and what [loadBlock] leaves unread is an end piece of what it
    was given. *)
Theorem loading_keeps_names :
  (forall cfg (l f p : bytes), grows cfg (loadRow cfg l f p).1) /\
  (forall fuel cfg (rdr f prev : bytes) c rest,
     loadBlock fs fuel cfg rdr f prev = Ok (c, rest) ->
     grows cfg c /\ rest `suffix_of` rdr) /\
  (forall fuel cfg (rdr f prev : bytes) c,
     loadCfgFile fs fuel cfg rdr f prev = Ok c -> grows cfg c).
Proof.
  split; [exact loadRow_grows|]. split; [exact loadBlock_grows|].
  intros fuel cfg rdr f prev c H. rewrite loadCfgFile_loadBlock in H.
  destruct (loadBlock fs fuel cfg rdr f prev) as [[c2 s2]|m|] eqn:E; try discriminate H.
  injection H as <-. exact (proj1 (loadBlock_grows _ _ _ _ _ _ _ E)).
Qed.
End LoaderKeeps.

Lemma loading_keeps_names_witness :
  grows block_with_name
    (match loadCfgFile fs_empty 20 block_with_name text_no_include (bs "f") [] with
     | Ok c => c
     | _ => newBlock [] []
     end).
Proof.
  apply (proj2 (proj2 (loading_keeps_names fs_empty)) 20%nat block_with_name
           text_no_include (bs "f") []).
  vm_compute. reflexivity.
Defined.

(** *** Texts without an include *)

Lemma has_prefix_app (p b : bytes) : has_prefix p (p ++ b) = true.
Proof.
  induction p as [|c p IH]; [reflexivity|]. simpl.
  now rewrite Ascii.eqb_refl, IH.
Qed.

Lemma Index_absent_occurs (s pat : bytes) : Index s pat = -1 -> ~ occurs pat s.
Proof.
  intros H (a & b & ->). revert H. induction a as [|x a IH]; intros H.
  - simpl app in H. destruct (pat ++ b) as [|y t] eqn:E.
    + destruct pat; [|discriminate E]. simpl in H. discriminate H.
    + rewrite Index_cons_hit in H; [discriminate H|].
      rewrite <- E. apply has_prefix_app.
  - simpl app in H. destruct (has_prefix pat (x :: a ++ pat ++ b)) eqn:E.
    + rewrite (Index_cons_hit _ _ _ E) in H. discriminate H.
    + rewrite (Index_cons_miss _ _ _ E) in H.
      pose proof (Index_lower (a ++ pat ++ b) pat).
      destruct (Z.ltb_spec (Index (a ++ pat ++ b) pat) 0); [|lia].
      apply IH. lia.
Qed.

Lemma occurs_suffix (pat r s : bytes) : r `suffix_of` s -> occurs pat r -> occurs pat s.
Proof.
  intros [k ->] (a & b & ->). exists (k ++ a), b. now rewrite <- app_assoc.
Qed.

Lemma occurs_cleanLine (pat l : bytes) : occurs pat (cleanLine l) -> occurs pat l.
Proof.
  intros (a & b & E). destruct (cleanLine_facts l) as (_ & _ & _ & a0 & b0 & Hl).
  exists (a0 ++ a), (b ++ b0). rewrite Hl at 1. rewrite E.
  now rewrite <- !app_assoc.
Qed.

Lemma lineIsInclude_occurs (buf : bytes) :
  lineIsInclude buf = true -> occurs (bs "%include") buf.
Proof.
  unfold lineIsInclude. intros H. apply andb_prop in H as [_ H].
  apply bool_decide_eq_true in H. exists [], (slice_from buf 8).
  rewrite app_nil_l. unfold slice_to, slice_from in *.
  transitivity (take (Z.to_nat 8) buf ++ drop (Z.to_nat 8) buf);
    [symmetry; apply take_drop | now rewrite <- H].
Qed.

Lemma classify_include (buf : bytes) :
  classify buf = KInclude -> lineIsInclude buf = true.
Proof.
  unfold classify. destruct (len buf <? 1); [discriminate|].
  destruct (lineIsInclude buf); [reflexivity|].
  destruct (lineIsBlockEnd buf); [discriminate|].
  destruct (lineIsBlockNew buf); [discriminate|].
  destruct ((2 <? len buf) && has_prefix (bs "+=") buf); [discriminate|].
  destruct (has_prefix (bs "{") buf); discriminate.
Qed.

Section NoInclude.
Variable fs : FS.

Lemma iteration_returns (k : nat) cfg (buf rdr f prev : bytes) next :
  classify buf <> KInclude ->
  (forall cfg f p, exists c rest, loadBlock fs k cfg rdr f p = Ok (c, rest)) ->
  (forall cfg1 r1 p1, r1 `suffix_of` rdr -> exists c rest, next cfg1 r1 p1 = Ok (c, rest)) ->
  exists c rest, iteration fs k cfg buf rdr f prev next = Ok (c, rest).
Proof.
  intros Hk Hb Hnext. unfold iteration. destruct (classify buf); try congruence.
  - now apply Hnext.
  - eauto.
  - destruct (Hb (newBlock (getBlockname buf) f) f []) as (blk & r1 & E).
    rewrite E. cbn [mbind result_bind]. apply Hnext.
    exact (proj2 (loadBlock_grows fs _ _ _ _ _ _ _ E)).
  - destruct (loadRow cfg (slice_from buf 2) f prev). now apply Hnext.
  - now apply Hnext.
  - destruct (loadRow cfg buf f []). now apply Hnext.
Qed.

Lemma loadBlock_returns (k : nat) :
  forall cfg (rdr f prev : bytes),
  ~ occurs (bs "%include") rdr -> (length rdr < k)%nat ->
  exists c rest, loadBlock fs k cfg rdr f prev = Ok (c, rest).
Proof.
  induction k as [|k IH]; intros cfg rdr f prev Hno Hlen; [lia|].
  destruct (stream_cases rdr) as [(l & rest0 & Hl & ->)|Hn].
  - rewrite (loadBlock_line fs _ cfg l rest0 f prev Hl).
    assert (Hsuf : rest0 `suffix_of` l ++ NL :: rest0).
    { exists (l ++ [NL]). now rewrite <- app_assoc. }
    assert (Hlen0 : (length rest0 < k)%nat).
    { rewrite length_app in Hlen. simpl in Hlen. lia. }
    apply iteration_returns.
    + intros Hc. apply Hno. apply classify_include, lineIsInclude_occurs in Hc.
      apply occurs_cleanLine in Hc. destruct Hc as (a & b & ->).
      exists a, (b ++ NL :: rest0). now rewrite <- !app_assoc.
    + intros c0 f0 p0. apply IH; [|exact Hlen0].
      intros Ho. apply Hno. exact (occurs_suffix _ _ _ Hsuf Ho).
    + intros c1 r1 p1 Hs. apply IH.
      * intros Ho. apply Hno. apply (occurs_suffix _ r1); [|exact Ho].
        now transitivity rest0.
      * apply suffix_length in Hs. lia.
  - destruct rdr as [|a rdr'] eqn:Es; [simpl; eauto|].
    rewrite <- Es in *. assert (Hne : rdr <> []) by (subst; discriminate).
    rewrite (loadBlock_eof fs _ cfg rdr f prev Hn Hne).
    assert (Hk : (1 <= k)%nat) by (destruct rdr; [congruence | simpl in Hlen; lia]).
    apply iteration_returns.
    + intros Hc. apply Hno. apply classify_include, lineIsInclude_occurs in Hc.
      apply occurs_cleanLine in Hc. destruct Hc as (x & y & E).
      destruct rdr as [|z s] using rev_ind; [congruence|].
      rewrite removelast_last in E. exists x, (y ++ [z]). rewrite E.
      now rewrite <- !app_assoc.
    + intros c0 f0 p0. destruct k; [lia|]. simpl. eauto.
    + intros c1 r1 p1 _. eauto.
Qed.

(** X10: a text in which [%include] does not occur always loads: with
    fuel above its length, [loadBlock] and [loadCfgFile] return a tree,
    whatever the lines hold, and so does [NewCfg] on a file that can be
    opened. Lines that are not understood are skipped; nothing but a file
    that cannot be opened makes the loader panic. *)
Theorem no_include_always_loads :
  (forall fuel cfg (rdr f prev : bytes),
     Index rdr (bs "%include") = -1 -> (length rdr < fuel)%nat ->
     (exists c rest, loadBlock fs fuel cfg rdr f prev = Ok (c, rest)) /\
     (exists c, loadCfgFile fs fuel cfg rdr f prev = Ok c)) /\
  (forall fuel w (_name _fname rdr : bytes),
     cfgs w !! _name = None ->
     files fs !! expandUser fs _fname = Some rdr ->
     Index rdr (bs "%include") = -1 -> (length rdr < fuel)%nat ->
     exists p w', NewCfg fs fuel w _name _fname = Ok (p, w')).
Proof.
  assert (A : forall fuel cfg (rdr f prev : bytes),
     Index rdr (bs "%include") = -1 -> (length rdr < fuel)%nat ->
     (exists c rest, loadBlock fs fuel cfg rdr f prev = Ok (c, rest)) /\
     (exists c, loadCfgFile fs fuel cfg rdr f prev = Ok c)).
  { intros fuel cfg rdr f prev Hi Hlen.
    destruct (loadBlock_returns fuel cfg rdr f prev (Index_absent_occurs _ _ Hi) Hlen)
      as (c & rest & E).
    split; [eauto|]. exists c. now rewrite loadCfgFile_loadBlock, E. }
  split; [exact A|].
  intros fuel w n f rdr Hn Hf Hi Hlen. unfold NewCfg. rewrite Hn. cbn [cfgs heap].
  rewrite lookup_insert_eq, lookup_insert_eq, Hf.
  destruct (proj2 (A fuel (newBlock n (expandUser fs f)) rdr (expandUser fs f) [] Hi Hlen))
    as [c ->].
  cbn [mbind result_bind]. eauto.
Qed.
End NoInclude.

Lemma no_include_always_loads_witness :
  exists c, loadCfgFile fs_empty 200 (newBlock (bs "app") (bs "f")) text_no_include
              (bs "f") [] = Ok c.
Proof.
  apply (proj1 (no_include_always_loads fs_empty) 200%nat (newBlock (bs "app") (bs "f"))
           text_no_include (bs "f") []).
  - vm_compute. reflexivity.
  - apply Nat.ltb_lt. vm_compute. reflexivity.
Defined.

(** ** The registry *)

Lemma EditEntry_name cfg (t r c v : bytes) : name (EditEntry cfg t r c v) = name cfg.
Proof. reflexivity. Qed.

Lemma fresh_heap (w : World) : heap w !! fresh (dom (heap w)) = None.
Proof. apply not_elem_of_dom, is_fresh. Qed.

Lemma registry_ok_new (w : World) (n : bytes) (blk0 blk : CfgBlock) :
  registry_ok w -> cfgs w !! n = None -> name blk = n ->
  let p := fresh (dom (heap w)) in
  let w' := mkWorld (<[n := p]> (cfgs w)) (<[p := blk]> (<[p := blk0]> (heap w))) in
  registry_ok w' /\ cfgs w ⊆ cfgs w' /\ heap w ⊆ heap w' /\ heap w !! p = None.
Proof.
  intros Hok Hn Hb p w'. pose proof (fresh_heap w) as Hp. fold p in Hp.
  assert (Hh : heap w' = <[p := blk]> (heap w)) by apply insert_insert_eq.
  split; [|split; [|split]].
  - intros m q Hm. rewrite Hh. simpl in Hm.
    destruct (decide (m = n)) as [->|Hne].
    + rewrite lookup_insert_eq in Hm. injection Hm as <-.
      exists blk. split; [apply lookup_insert_eq | exact Hb].
    + rewrite lookup_insert_ne in Hm by congruence.
      destruct (Hok m q Hm) as (b & Hq & Hname). exists b. split; [|exact Hname].
      rewrite lookup_insert_ne; [exact Hq|]. intros <-. congruence.
  - simpl. now apply insert_subseteq.
  - rewrite Hh. now apply insert_subseteq.
  - exact Hp.
Qed.

(** X11: the registry invariant. In the empty registry, and after any
    calls of [NewCfgMem], [NewCfg] and [EditEntry] that return, every
    registered name points to a live root block that carries this name.
    A new configuration gets a pointer that was not in use, and creating
    it leaves every registered name and every existing block as it was;
    [EditEntry] changes the block it is called on and no other, and no
    name. Two names never share a root block. *)
Theorem registry_invariant (fs : FS) :
  registry_ok world0 /\
  (forall w (n : bytes) p w',
     registry_ok w -> NewCfgMem w n = Ok (p, w') ->
     registry_ok w' /\ cfgs w ⊆ cfgs w' /\ heap w ⊆ heap w' /\ heap w !! p = None) /\
  (forall fuel w (n f : bytes) p w',
     registry_ok w -> NewCfg fs fuel w n f = Ok (p, w') ->
     registry_ok w' /\ cfgs w ⊆ cfgs w' /\ heap w ⊆ heap w') /\
  (forall w p e w',
     registry_ok w -> EditEntryAt w p e = Ok w' ->
     registry_ok w' /\ cfgs w' = cfgs w /\
     forall q, q <> p -> heap w' !! q = heap w !! q) /\
  (forall w (n1 n2 : bytes) p,
     registry_ok w -> cfgs w !! n1 = Some p -> cfgs w !! n2 = Some p -> n1 = n2).
Proof.
  split; [|split; [|split; [|split]]].
  - intros n p H. unfold world0 in H. simpl in H. rewrite lookup_empty in H. discriminate H.
  - intros w n p w' Hok H. unfold NewCfgMem in H.
    destruct (cfgs w !! n) eqn:Hn; [discriminate H|]. cbn [cfgs heap] in H.
    rewrite lookup_insert_eq, lookup_insert_eq in H. injection H as <- <-.
    rewrite <- (insert_insert_eq (heap w) (fresh (dom (heap w)))
                  (newBlock n []) (newBlock n [])).
    now apply registry_ok_new.
  - intros fuel w n f p w' Hok H. unfold NewCfg in H.
    destruct (cfgs w !! n) eqn:Hn.
    { injection H as <- <-. repeat split; [exact Hok | reflexivity | reflexivity]. }
    cbn [cfgs heap] in H. rewrite lookup_insert_eq, lookup_insert_eq in H.
    destruct (files fs !! expandUser fs f) as [rdr|]; [|discriminate H].
    destruct (loadCfgFile fs fuel (newBlock n (expandUser fs f)) rdr (expandUser fs f) [])
      as [blk| |] eqn:L; cbn [mbind result_bind] in H; try discriminate H.
    injection H as <- <-.
    destruct (registry_ok_new w n (newBlock n (expandUser fs f)) blk Hok Hn) as (A & B & C & _).
    { rewrite loadCfgFile_loadBlock in L.
      destruct (loadBlock fs fuel _ rdr _ []) as [[c s]| |] eqn:E; try discriminate L.
      injection L as <-.
      now destruct (proj1 (loadBlock_grows fs _ _ _ _ _ _ _ E)) as (-> & _). }
    auto.
  - intros w p [[[t r] c] v] w' Hok H. unfold EditEntryAt in H.
    destruct (heap w !! p) as [cfg|] eqn:Hp; [|discriminate H]. injection H as <-.
    split; [|split; [reflexivity|]].
    + intros n q Hn. cbn [cfgs heap] in *. destruct (Hok n q Hn) as (b & Hq & Hname).
      destruct (decide (q = p)) as [->|Hne].
      * rewrite lookup_insert_eq. eexists. split; [reflexivity|].
        rewrite EditEntry_name. congruence.
      * rewrite lookup_insert_ne by congruence. eauto.
    + intros q Hq. cbn [heap]. now rewrite lookup_insert_ne by congruence.
  - intros w n1 n2 p Hok H1 H2.
    destruct (Hok n1 p H1) as (b1 & Hb1 & <-). destruct (Hok n2 p H2) as (b2 & Hb2 & <-).
    congruence.
Qed.

Lemma registry_invariant_witness :
  registry_ok world_mem /\ world0.(cfgs) ⊆ world_mem.(cfgs) /\
  world0.(heap) ⊆ world_mem.(heap) /\ heap world0 !! 0%nat = None.
Proof.
  apply (proj1 (proj2 (registry_invariant fs_empty)) world0 (bs "mem") 0%nat world_mem).
  - intros n p H. unfold world0 in H. simpl in H. rewrite lookup_empty in H. discriminate H.
  - vm_compute. reflexivity.
Defined.

(** ** What [CfgWrite] writes *)









(** ** Include lines *)

Lemma has_prefix_inv (p s : bytes) :
  has_prefix p s = true -> exists r, s = p ++ r.
Proof.
  revert s. induction p as [|a p IH]; intros s H; [now exists s|].
  destruct s as [|b s]; [discriminate H|]. simpl in H.
  apply andb_prop in H as [Ha Hp]. apply Ascii.eqb_eq in Ha as ->.
  destruct (IH s Hp) as [r ->]. now exists r.
Qed.

Lemma trailing_space_some (s e : bytes) :
  trailing_space s = Some e -> e ∈ space_runes /\ exists k, s = k ++ e.
Proof.
  unfold trailing_space. intros H. apply find_some in H as [Hin Hp].
  split; [now apply list_elem_of_In|].
  apply has_prefix_inv in Hp as [r Hr]. exists (rev r).
  rewrite <- (rev_involutive s), Hr, rev_app_distr. now rewrite rev_involutive.
Qed.

Lemma trailing_space_none (s e k : bytes) :
  trailing_space s = None -> e ∈ space_runes -> s <> k ++ e.
Proof.
  unfold trailing_space. intros H Hin ->.
  apply list_elem_of_In in Hin. pose proof (find_none _ _ H e Hin) as F.
  cbv beta in F. rewrite rev_app_distr, has_prefix_app in F. discriminate F.
Qed.

Lemma TrimLeftSpace_none (n : nat) (s : bytes) :
  leading_space s = None -> TrimLeftSpace n s = s.
Proof. intros H. destruct n; simpl; [reflexivity | now rewrite H]. Qed.

Lemma TrimRightSpace_none (n : nat) (s : bytes) :
  trailing_space s = None -> TrimRightSpace n s = s.
Proof. intros H. destruct n; simpl; [reflexivity | now rewrite H]. Qed.

(** A byte that is in no white space rune stops the trimming from the
    right: what is before it, and the byte, are kept. *)
Lemma TrimRightSpace_keeps (n : nat) (x : bytes) (c : ascii) :
  (forall e, e ∈ space_runes -> c ∉ e) ->
  forall t, exists t', TrimRightSpace n (x ++ c :: t) = x ++ c :: t' /\ t' `prefix_of` t.
Proof.
  intros Hc. induction n as [|n IH]; intros t; [now exists t|].
  simpl. destruct (trailing_space (x ++ c :: t)) as [e|] eqn:E; [|now exists t].
  apply trailing_space_some in E as [Hin [k Hk]].
  assert (Ht : exists t0, t = t0 ++ e).
  { rewrite (cons_middle c x t), app_assoc in Hk.
    apply app_eq_inv in Hk as [(k0 & Hx & He)|(k0 & _ & Ht)]; [|now exists k0].
    destruct k0 as [|a k0 _] using rev_ind.
    - exists []. now rewrite He.
    - exfalso. rewrite app_assoc in Hx. apply app_inj_tail in Hx as [_ ->].
      apply (Hc e Hin). rewrite He. apply elem_of_app. left.
      apply elem_of_app. right. now apply list_elem_of_singleton. }
  destruct Ht as [t0 ->].
  replace (take (length (x ++ c :: t0 ++ e) - length e) (x ++ c :: t0 ++ e))
    with (x ++ c :: t0).
  - destruct (IH t0) as (t' & Et & Hp). exists t'. split; [exact Et|].
    now apply prefix_app_r.
  - rewrite (cons_middle c x (t0 ++ e)), !app_assoc, length_app, Nat.add_sub.
    rewrite take_app_length. now rewrite <- app_assoc.
Qed.

(** After a blank, a text that does not end in white space is the end of
    a text that does not end in white space. *)
Lemma trailing_space_after_blank (x p : bytes) :
  p <> [] -> trailing_space p = None -> trailing_space (x ++ " "%char :: p) = None.
Proof.
  intros Hne Hp. destruct (trailing_space (x ++ " "%char :: p)) as [e|] eqn:E;
    [|reflexivity].
  exfalso. apply trailing_space_some in E as [Hin [k Hk]].
  rewrite (cons_middle " "%char x p), app_assoc in Hk.
  apply app_eq_inv in Hk as [(k0 & Hx & He)|(k0 & _ & Ht)].
  - destruct k0 as [|a k0 _] using rev_ind.
    + apply (trailing_space_none p e [] Hp Hin). now rewrite He.
    + rewrite app_assoc in Hx. apply app_inj_tail in Hx as [_ <-].
      assert (F : Forall (fun e : bytes => " "%char ∈ e -> length e = 1%nat) space_runes)
        by compute_done.
      rewrite Forall_forall in F. specialize (F e Hin).
      rewrite He in F. rewrite !length_app in F. simpl in F.
      destruct p as [|b p]; [congruence|]. simpl in F.
      assert (Hb : " "%char ∈ (k0 ++ [" "%char]) ++ b :: p).
      { apply elem_of_app. left. apply elem_of_app. right.
        now apply list_elem_of_singleton. }
      specialize (F Hb). lia.
  - exact (trailing_space_none p e k0 Hp Hin Ht).
Qed.

Lemma space_runes_free (c : ascii) :
  forallb (fun e => negb (existsb (Ascii.eqb c) e)) space_runes = true ->
  forall e, e ∈ space_runes -> c ∉ e.
Proof.
  intros H e Hin Hc. rewrite forallb_forall in H.
  apply list_elem_of_In in Hin. specialize (H e Hin).
  apply negb_true_iff in H.
  assert (existsb (Ascii.eqb c) e = true); [|congruence].
  apply existsb_exists. exists c. split; [now apply list_elem_of_In|].
  apply Ascii.eqb_refl.
Qed.

Lemma lineIsInclude_include_line (p : bytes) :
  p <> [] -> lineIsInclude (include_line p) = true.
Proof.
  intros Hne. unfold lineIsInclude. apply andb_true_intro. split.
  - apply Z.ltb_lt. unfold include_line. rewrite len_app.
    change (len (bs "%include ")) with 9. pose proof (len_nonneg p). lia.
  - apply bool_decide_eq_true. reflexivity.
Qed.

Lemma classify_include_line (buf : bytes) :
  lineIsInclude buf = true -> classify buf = KInclude.
Proof.
  intros H. unfold classify. rewrite H.
  rewrite len_ltb_1_cons; [reflexivity|]. intros ->. discriminate H.
Qed.

Lemma include_line_split (p : bytes) :
  bytes_SplitN (include_line p) (bs " ") 2 = [bs "%include"; p].
Proof.
  unfold include_line. change (bs "%include " ++ p) with (bs "%include" ++ " "%char :: p).
  apply bytes_SplitN2_cut. compute_done.
Qed.

Lemma include_line_bare (p : bytes) :
  ok_path p ->
  (NL ∉ include_line p) /\ cleanLine (include_line p) = include_line p /\
  getFilename (TrimSpace (include_line p)) = Ok p.
Proof.
  intros (Hne & (Hh & Hn & Hl & Hr) & Hsp & Hq). split; [|split].
  - unfold include_line. apply not_elem_of_app. split; [compute_done | exact Hn].
  - unfold include_line. rewrite cleanLine_no_hash.
    + change (TrimLeft (bs "%include " ++ p) blanks) with (bs "%include " ++ p).
      apply (TrimRight_fixed_app _ p blanks Hne Hr).
    + apply not_elem_of_app. split; [compute_done | exact Hh].
  - unfold TrimSpace.
    rewrite (TrimLeftSpace_none _ (include_line p)) by reflexivity.
    rewrite TrimRightSpace_none.
    2:{ unfold include_line.
        change (bs "%include " ++ p) with (bs "%include" ++ " "%char :: p).
        now apply trailing_space_after_blank. }
    unfold getFilename. rewrite include_line_split.
    change (bytes_Equal (bs "%include") (ToLower (bs "%include"))) with true. cbv iota.
    rewrite (cleanLine_plain p) by (repeat split; assumption).
    destruct p as [|c p]; [congruence|].
    destruct (Ascii.eqb_spec c DQ) as [->|_]; [now destruct Hq | reflexivity].
Qed.

Lemma quoted_clean (p : bytes) : "#"%char ∉ p -> cleanLine (quoted p) = quoted p.
Proof.
  intros Hh. rewrite cleanLine_no_hash.
  - change (TrimLeft (quoted p) blanks) with (quoted p).
    unfold quoted. rewrite app_comm_cons. now apply TrimRight_snoc_out.
  - unfold quoted. apply not_elem_of_cons. split; [compute_done|].
    apply not_elem_of_app. split; [exact Hh | compute_done].
Qed.

Lemma include_line_quoted (p : bytes) :
  "#"%char ∉ p -> NL ∉ p ->
  (NL ∉ include_line (quoted p)) /\
  cleanLine (include_line (quoted p)) = include_line (quoted p) /\
  lineIsInclude (include_line (quoted p)) = true /\
  getFilename (TrimSpace (include_line (quoted p))) = Ok p.
Proof.
  intros Hh Hn.
  assert (Hlast : forall cut, in_cutset DQ cut = false ->
            TrimRight (include_line (quoted p)) cut = include_line (quoted p)).
  { intros cut Hc. unfold include_line, quoted.
    rewrite app_comm_cons, app_assoc. now apply TrimRight_snoc_out. }
  split; [|split; [|split]].
  - unfold include_line, quoted. apply not_elem_of_app. split; [compute_done|].
    apply not_elem_of_cons. split; [compute_done|].
    apply not_elem_of_app. split; [exact Hn | compute_done].
  - rewrite cleanLine_no_hash.
    + change (TrimLeft (include_line (quoted p)) blanks) with (include_line (quoted p)).
      now apply Hlast.
    + unfold include_line, quoted. apply not_elem_of_app. split; [compute_done|].
      apply not_elem_of_cons. split; [compute_done|].
      apply not_elem_of_app. split; [exact Hh | compute_done].
  - apply lineIsInclude_include_line. discriminate.
  - unfold TrimSpace.
    rewrite (TrimLeftSpace_none _ (include_line (quoted p))) by reflexivity.
    assert (Hkeep : TrimRightSpace (length (include_line (quoted p)))
                      (include_line (quoted p)) = include_line (quoted p)).
    { unfold include_line, quoted. rewrite app_comm_cons, app_assoc.
      destruct (TrimRightSpace_keeps
                  (length ((bs "%include " ++ DQ :: p) ++ [DQ]))
                  (bs "%include " ++ DQ :: p) DQ
                  (space_runes_free DQ eq_refl) []) as (t' & Et & Hp).
      apply prefix_nil_inv in Hp. subst t'. exact Et. }
    rewrite Hkeep. unfold getFilename. rewrite include_line_split.
    change (bytes_Equal (bs "%include") (ToLower (bs "%include"))) with true. cbv iota.
    rewrite (quoted_clean p Hh). unfold quoted.
    change (Ascii.eqb DQ DQ) with true. cbv iota.
    destruct (p ++ [DQ]) as [|x y] eqn:E; [destruct p; discriminate E|].
    rewrite <- E. now rewrite removelast_last.
Qed.

Lemma getFilename_no_space (buf : bytes) :
  lineIsInclude buf = true -> buf !! 8%nat <> Some " "%char ->
  getFilename (TrimSpace buf) = Ok [].
Proof.
  intros Hi H8. unfold lineIsInclude in Hi. apply andb_prop in Hi as [_ Heq].
  apply bool_decide_eq_true in Heq. unfold slice_to in Heq.
  assert (Hb : buf = bs "%include" ++ drop 8 buf).
  { rewrite Heq. symmetry. apply take_drop. }
  set (d := drop 8 buf) in *. clearbody d. subst buf. clear Heq.
  change ((bs "%include" ++ d) !! 8%nat) with (d !! 0%nat) in H8.
  unfold TrimSpace.
  rewrite (TrimLeftSpace_none _ (bs "%include" ++ d)) by reflexivity.
  change (bs "%include" ++ d) with (bs "%includ" ++ "e"%char :: d).
  destruct (TrimRightSpace_keeps (length (bs "%includ" ++ "e"%char :: d))
              (bs "%includ") "e" (space_runes_free "e" eq_refl) d) as (t' & -> & Hp).
  destruct t' as [|c t]; [reflexivity|].
  assert (Hc : c <> " "%char).
  { destruct Hp as [k ->]. simpl in H8. congruence. }
  set (s := bs "%includ" ++ "e"%char :: c :: t).
  unfold getFilename. rewrite bytes_SplitN2_eq by discriminate.
  change (bs " ") with [" "%char].
  destruct (Z.ltb_spec (Index s [" "%char]) 0) as [_|Hfound]; [reflexivity|].
  destruct (Index_byte_found " " s Hfound) as [_ Hs].
  replace (bytes_Equal (bs "%include") (ToLower (slice_to s (Index s [" "%char]))))
    with false; [reflexivity|].
  symmetry. apply bool_decide_eq_false. intros E.
  apply (f_equal length) in E. unfold ToLower in E. rewrite length_map in E.
  assert (L : s !! 8%nat = Some " "%char).
  { rewrite Hs. apply list_lookup_middle. exact E. }
  change (s !! 8%nat) with (Some c) in L. congruence.
Qed.

Section IncludeLines.
Variable fs : FS.

(** X13: an include line. [%include p] with a bare path [p], and
    [%include] followed by [p] between double quotes (where [p] may hold
    blanks), open the file [expandUser p]: the loader panics when it
    cannot be opened, and else loads it into the block the line stands
    in, then goes on with the next line and with the pending row name it
    had before the include. A line that starts with [%include] but has no
    space as its ninth byte is an include line too; its file name is
    empty, so the load panics unless a file of the empty name can be
    opened. *)
Theorem include_line_loads :
  (forall fuel cfg (p rest f prev : bytes), ok_path p ->
     loadBlock fs (S fuel) cfg (include_line p ++ NL :: rest) f prev =
       match files fs !! expandUser fs p with
       | None => Panic (bs "could not open file " ++ expandUser fs p)
       | Some text =>
           cfg' ← loadCfgFile fs fuel cfg text (expandUser fs p) [];
           loadBlock fs fuel cfg' rest f prev
       end) /\
  (forall fuel cfg (p rest f prev : bytes), ("#"%char ∉ p) -> (NL ∉ p) ->
     loadBlock fs (S fuel) cfg (include_line (quoted p) ++ NL :: rest) f prev =
       match files fs !! expandUser fs p with
       | None => Panic (bs "could not open file " ++ expandUser fs p)
       | Some text =>
           cfg' ← loadCfgFile fs fuel cfg text (expandUser fs p) [];
           loadBlock fs fuel cfg' rest f prev
       end) /\
  (forall fuel cfg (l rest f prev : bytes),
     (NL ∉ l) -> lineIsInclude (cleanLine l) = true ->
     cleanLine l !! 8%nat <> Some " "%char -> files fs !! [] = None ->
     loadBlock fs (S fuel) cfg (l ++ NL :: rest) f prev =
       Panic (bs "could not open file ")).
Proof.
  split; [|split].
  - intros fuel cfg p rest f prev Hp.
    destruct (include_line_bare p Hp) as (Hn & Hc & Hg).
    rewrite (loadBlock_line fs _ cfg _ _ f prev Hn), Hc. unfold iteration.
    rewrite (classify_include_line _ (lineIsInclude_include_line p (proj1 Hp))).
    unfold openInclude. rewrite Hg. cbn [mbind result_bind].
    destruct (files fs !! expandUser fs p); reflexivity.
  - intros fuel cfg p rest f prev Hh Hnl.
    destruct (include_line_quoted p Hh Hnl) as (Hn & Hc & Hi & Hg).
    rewrite (loadBlock_line fs _ cfg _ _ f prev Hn), Hc. unfold iteration.
    rewrite (classify_include_line _ Hi).
    unfold openInclude. rewrite Hg. cbn [mbind result_bind].
    destruct (files fs !! expandUser fs p); reflexivity.
  - intros fuel cfg l rest f prev Hn Hi H8 Hfile.
    rewrite (loadBlock_line fs _ cfg _ _ f prev Hn). unfold iteration.
    rewrite (classify_include_line _ Hi).
    unfold openInclude. rewrite (getFilename_no_space _ Hi H8). cbn [mbind result_bind].
    change (expandUser fs []) with (@nil ascii). now rewrite Hfile.
Qed.
End IncludeLines.

Lemma include_line_loads_witness :
  loadBlock fs_includes 4 (newBlock (bs "app") (bs "f"))
    (include_line (bs "/etc/rows.cfg") ++ NL :: bs "+= b=2;
") (bs "f") (bs "r") =
  Ok (mkBlock (bs "app") (bs "f")
        {[ bs "r" := mkRow (bs "r") (cols_of [("a", "1"); ("b", "2")]) ]} ∅, []).
Proof.
  rewrite (proj1 (include_line_loads fs_includes) 3%nat (newBlock (bs "app") (bs "f"))
             (bs "/etc/rows.cfg") (bs "+= b=2;
") (bs "f") (bs "r")).
  - vm_compute. reflexivity.
  - unfold ok_path, plain. repeat split; try compute_done; discriminate.
Defined.

(** ** What follows the closing brace *)

Section AfterBrace.
Variable fs : FS.

Lemma loadBlock_extend (k : nat) :
  forall cfg (t f prev : bytes) c rest (x : bytes),
  loadBlock fs k cfg t f prev = Ok (c, rest) -> rest <> [] ->
  loadBlock fs k cfg (t ++ x) f prev = Ok (c, rest ++ x).
Proof.
  induction k as [|k IH]; intros cfg t f prev c rest x H Hne; [discriminate H|].
  destruct (stream_cases t) as [(l & rest0 & Hl & ->)|Hn].
  - rewrite <- app_assoc. cbn [app].
    rewrite (loadBlock_line fs _ cfg l rest0 f prev Hl) in H.
    rewrite (loadBlock_line fs _ cfg l (rest0 ++ x) f prev Hl).
    unfold iteration in *. destruct (classify (cleanLine l)).
    + now apply IH.
    + destruct (openInclude fs (cleanLine l)) as [[f2 r2]|m|];
        cbn [mbind result_bind] in *; try discriminate H.
      destruct (loadCfgFile fs k cfg r2 f2 []) as [c1|m|];
        cbn [mbind result_bind] in *; try discriminate H.
      now apply IH.
    + now injection H as <- <-.
    + destruct (loadBlock fs k (newBlock (getBlockname (cleanLine l)) f) rest0 f [])
        as [[blk r1]|m|] eqn:E; cbn [mbind result_bind] in H; try discriminate H.
      assert (Hr1 : r1 <> []).
      { intros ->. destruct (loadBlock_grows fs _ _ _ _ _ _ _ H) as [_ S].
        apply suffix_nil_inv in S. congruence. }
      rewrite (IH _ _ _ _ _ _ x E Hr1). cbn [mbind result_bind]. now apply IH.
    + destruct (loadRow cfg (slice_from (cleanLine l) 2) f prev). now apply IH.
    + now apply IH.
    + destruct (loadRow cfg (cleanLine l) f []). now apply IH.
  - exfalso. apply Hne. destruct t as [|a t'] eqn:Et.
    { now injection H as _ <-. }
    rewrite <- Et in *. assert (Ht : t <> []) by (subst; discriminate).
    rewrite (loadBlock_eof fs _ cfg t f prev Hn Ht) in H.
    assert (IHf : forall cfg r f p c, loadCfgFile fs k cfg r f p = Ok c -> grows cfg c).
    { intros c0 r0 f0 p0 c1 H0. rewrite loadCfgFile_loadBlock in H0.
      destruct (loadBlock fs k c0 r0 f0 p0) as [[c2 s2]|m|] eqn:E; try discriminate H0.
      injection H0 as <-. exact (proj1 (loadBlock_grows fs _ _ _ _ _ _ _ E)). }
    assert (Hnext : forall cfg1 (r1 p1 : bytes) c rest,
              (fun (cfg : CfgBlock) (rdr _ : bytes) => @Ok (CfgBlock * bytes) (cfg, rdr))
                cfg1 r1 p1 = Ok (c, rest) ->
              grows cfg1 c /\ rest `suffix_of` r1).
    { intros c1 r1 p1 c2 rest2 E0. injection E0 as <- <-.
      split; [apply grows_refl | reflexivity]. }
    destruct (iteration_grows fs k cfg _ [] f prev _ c rest IHf (loadBlock_grows fs k)
                Hnext H) as [_ S].
    now apply suffix_nil_inv in S.
Qed.

(** X14: what follows the closing brace is not read. When [loadBlock]
    returns before the end of a text, leaving a part of it unread, the
    text that follows has no part in the result: with any text appended,
    the block returned is the same and the unread part is the old one
    followed by the appended text. So a top-level load that stops at a
    closing brace of its own returns what was loaded up to there,
    whatever follows. *)
Theorem text_after_closing_brace_unread :
  forall fuel cfg (t f prev : bytes) c rest (x : bytes),
  loadBlock fs fuel cfg t f prev = Ok (c, rest) -> rest <> [] ->
  loadBlock fs fuel cfg (t ++ x) f prev = Ok (c, rest ++ x) /\
  loadCfgFile fs fuel cfg (t ++ x) f prev = Ok c /\
  loadCfgFile fs fuel cfg t f prev = Ok c.
Proof.
  intros fuel cfg t f prev c rest x H Hne.
  pose proof (loadBlock_extend fuel cfg t f prev c rest x H Hne) as E.
  split; [exact E|]. rewrite !loadCfgFile_loadBlock, E, H. split; reflexivity.
Qed.
End AfterBrace.

Lemma text_after_closing_brace_unread_witness :
  loadCfgFile fs_empty 20 (newBlock (bs "app") (bs "f"))
    (text_closed_early ++ bs "more :: x=y;
") (bs "f") [] =
  loadCfgFile fs_empty 20 (newBlock (bs "app") (bs "f")) text_closed_early (bs "f") [].
Proof.
  destruct (text_after_closing_brace_unread fs_empty 20%nat (newBlock (bs "app") (bs "f"))
              text_closed_early (bs "f") []
              (mkBlock (bs "app") (bs "f")
                 {[ bs "a" := mkRow (bs "a") {[ bs "k" := bs "v" ]} ]}
                 {[ bs "b" := mkBlock (bs "b") (bs "f")
                                {[ bs "r" := mkRow (bs "r") {[ bs "x" := bs "1" ]} ]} ∅ ]})
              (bs "late :: k=w;
") (bs "more :: x=y;
")) as (_ & A & B).
  - vm_compute. reflexivity.
  - discriminate.
  - now rewrite A, B.
Defined.

(** ** The lookups and the content of a tree *)


Section LookupsContent.
Variable int_bits : Z.
Variable Sscanf_d : bytes -> option Z.
Variable float64 : Type.
Variable Sscanf_g : bytes -> option float64.


End LookupsContent.

